(** * Othello: the board, the game session and the AI player

    A shallow embedding of [pkg/model/board.go], of the game session
    ([Game], [ParseMove]) and of [pkg/ai/player.go], with the properties the
    specification states about them.

    Conventions of the embedding.
    - Go's [int] is a 64-bit two's-complement integer: it is a [Z], and
      [wrap] is written where the source's arithmetic can leave the range.
      Coordinates never wrap: every [r += dir.DRow] follows a successful
      [IsValidPosition(r, c)], so [0 <= r < Size <= MaxInt64]; nor does the
      local [flipped], which counts cells of the grid.
    - A run-time panic (an index out of range) is [None] in the [option]
      monad; a function that returns normally yields [Some].
    - A method that mutates its receiver returns the receiver's new value.
    - [Cells] is a slice of slices; rows are taken not to share storage, as
      [NewBoard] and [Clone] build them. *)

From Stdlib Require Import ZArith Lia Ascii String.
From stdpp Require Import base option list list_numbers strings sorting.

Local Open Scope Z_scope.

(** ** 64-bit integers *)

Definition min_int : Z := - 2 ^ 63.
Definition max_int : Z := 2 ^ 63 - 1.

(** Two's-complement wrap-around of a 64-bit [int]. *)
Definition wrap (x : Z) : Z := (x + 2 ^ 63) mod 2 ^ 64 - 2 ^ 63.

Definition MinInt32 : Z := - 2 ^ 31.
Definition MaxInt32 : Z := 2 ^ 31 - 1.

(** ** pkg/model/board.go: data *)

Record Direction := { DRow : Z; DCol : Z }.

Definition Directions : list Direction :=
  [ {| DRow := -1; DCol := -1 |}; {| DRow := -1; DCol := 0 |}; {| DRow := -1; DCol := 1 |};
    {| DRow := 0; DCol := -1 |}; {| DRow := 0; DCol := 1 |};
    {| DRow := 1; DCol := -1 |}; {| DRow := 1; DCol := 0 |}; {| DRow := 1; DCol := 1 |} ].

#[global] Instance Direction_eq_dec : EqDecision Direction.
Proof. solve_decision. Defined.

Inductive Piece := Empty | Black | White.

#[global] Instance Piece_eq_dec : EqDecision Piece.
Proof. solve_decision. Defined.

Record Position := { Row : Z; Col : Z }.

#[global] Instance Position_eq_dec : EqDecision Position.
Proof. solve_decision. Defined.

Record Board := {
  Cells : list (list Piece);
  CurrentPlayer : Piece;
  Size : Z;
  BlackCnt : Z;
  WhiteCnt : Z
}.

Definition emptyRow : list Piece := replicate 8 Empty.

(** [NewBoard]: the opening layout. *)
Definition NewBoard : Board :=
  {| Cells :=
       [ emptyRow; emptyRow; emptyRow;
         [Empty; Empty; Empty; White; Black; Empty; Empty; Empty];
         [Empty; Empty; Empty; Black; White; Empty; Empty; Empty];
         emptyRow; emptyRow; emptyRow ];
     CurrentPlayer := Black;
     Size := 8;
     BlackCnt := 2;
     WhiteCnt := 2 |}.

(** ** Slice indexing *)

(** [l[i]]: panics when [i] is out of range. *)
Definition index {A} (l : list A) (i : Z) : option A :=
  if i <? 0 then None else l !! Z.to_nat i.

(** [b.Cells[row][col]] as an expression. *)
Definition cell (b : Board) (row col : Z) : option Piece :=
  line ← index (Cells b) row; index line col.

Definition withCells (b : Board) (cs : list (list Piece)) : Board :=
  {| Cells := cs; CurrentPlayer := CurrentPlayer b; Size := Size b;
     BlackCnt := BlackCnt b; WhiteCnt := WhiteCnt b |}.

Definition withPlayer (b : Board) (p : Piece) : Board :=
  {| Cells := Cells b; CurrentPlayer := p; Size := Size b;
     BlackCnt := BlackCnt b; WhiteCnt := WhiteCnt b |}.

Definition withCounts (b : Board) (black white : Z) : Board :=
  {| Cells := Cells b; CurrentPlayer := CurrentPlayer b; Size := Size b;
     BlackCnt := black; WhiteCnt := white |}.

(** [b.Cells[row][col] = p] as a statement: panics out of range. *)
Definition setCell (b : Board) (row col : Z) (p : Piece) : option Board :=
  line ← index (Cells b) row;
  _ ← index line col;
  Some (withCells b (<[Z.to_nat row := <[Z.to_nat col := p]> line]> (Cells b))).

(** ** pkg/model/board.go: operations *)

Definition IsValidPosition (b : Board) (row col : Z) : bool :=
  (0 <=? row) && (row <? Size b) && (0 <=? col) && (col <? Size b).

Definition GetPiece (b : Board) (row col : Z) : option Piece :=
  if negb (IsValidPosition b row col) then Some Empty else cell b row col.

Definition getOpponent (b : Board) : Piece :=
  if decide (CurrentPlayer b = Black) then White else Black.

(** The inner [for b.IsValidPosition(r, c)] loop of [IsValidMove]:
    [Some true] when it reaches [return true], [Some false] when it ends by
    [break] or by leaving the board.  Every iteration moves one step along
    [dir], so [scanFuel] iterations are never exhausted for a direction of
    [Directions]. *)
Fixpoint scanOwn (fuel : nat) (b : Board) (dir : Direction) (r c : Z) : option bool :=
  match fuel with
  | O => None
  | S fuel' =>
      if IsValidPosition b r c then
        p ← cell b r c;
        if decide (p = CurrentPlayer b) then Some true
        else if decide (p = Empty) then Some false
        else scanOwn fuel' b dir (r + DRow dir) (c + DCol dir)
      else Some false
  end.

Definition scanFuel (b : Board) : nat := S (Z.to_nat (Size b)).

(** The [for _, dir := range Directions] loop of [IsValidMove]. *)
Fixpoint validIn (b : Board) (row col : Z) (dirs : list Direction) : option bool :=
  match dirs with
  | [] => Some false
  | dir :: rest =>
      let r := row + DRow dir in
      let c := col + DCol dir in
      if negb (IsValidPosition b r c) then validIn b row col rest
      else
        p ← cell b r c;
        if decide (p ≠ getOpponent b) then validIn b row col rest
        else
          found ← scanOwn (scanFuel b) b dir (r + DRow dir) (c + DCol dir);
          if found : bool then Some true else validIn b row col rest
  end.

Definition IsValidMove (b : Board) (row col : Z) : option bool :=
  if negb (IsValidPosition b row col) then Some false
  else
    p ← cell b row col;
    if decide (p ≠ Empty) then Some false
    else validIn b row col Directions.

(** [GetValidMoves]: the row-major double loop. [scanFrom] is the loop over
    the positions still to visit. *)
Definition rowMajor (n : Z) : list Position :=
  i ← seqZ 0 n; j ← seqZ 0 n; [ {| Row := i; Col := j |} ].

Fixpoint scanFrom (b : Board) (ps : list Position) (moves : list Position)
  : option (list Position) :=
  match ps with
  | [] => Some moves
  | p :: ps' =>
      v ← IsValidMove b (Row p) (Col p);
      scanFrom b ps' (if v : bool then moves ++ [p] else moves)
  end.

Definition GetValidMoves (b : Board) : option (list Position) :=
  scanFrom b (rowMajor (Size b)) [].

Definition HasValidMove (b : Board) : option bool :=
  moves ← GetValidMoves b; Some (bool_decide (0 < Z.of_nat (length moves))).

(** The inner loop of [flipPieces]: returns [foundOwn] and [toFlip]. *)
Fixpoint scanFlip (fuel : nat) (b : Board) (dir : Direction) (r c : Z)
  (toFlip : list Position) : option (bool * list Position) :=
  match fuel with
  | O => None
  | S fuel' =>
      if IsValidPosition b r c then
        p ← cell b r c;
        if decide (p = Empty) then Some (false, toFlip)
        else if decide (p = CurrentPlayer b) then Some (true, toFlip)
        else scanFlip fuel' b dir (r + DRow dir) (c + DCol dir)
               (toFlip ++ [ {| Row := r; Col := c |} ])
      else Some (false, toFlip)
  end.

(** [for _, pos := range toFlip]: recolours each position and counts it. *)
Fixpoint flipAll (b : Board) (toFlip : list Position) (flipped : Z) : option (Board * Z) :=
  match toFlip with
  | [] => Some (b, flipped)
  | pos :: rest =>
      b' ← setCell b (Row pos) (Col pos) (CurrentPlayer b);
      flipAll b' rest (flipped + 1)
  end.

(** The loop of [flipPieces] over the directions, on the board and the
    running [flipped] counter. *)
Fixpoint flipDirs (b : Board) (row col : Z) (dirs : list Direction) (flipped : Z)
  : option (Board * Z) :=
  match dirs with
  | [] => Some (b, flipped)
  | dir :: rest =>
      let r := row + DRow dir in
      let c := col + DCol dir in
      if negb (IsValidPosition b r c) then flipDirs b row col rest flipped
      else
        p ← cell b r c;
        if decide (p ≠ getOpponent b) then flipDirs b row col rest flipped
        else
          '(foundOwn, toFlip) ← scanFlip (scanFuel b) b dir (r + DRow dir) (c + DCol dir)
                                  [ {| Row := r; Col := c |} ];
          if foundOwn : bool then
            '(b', flipped') ← flipAll b toFlip flipped;
            flipDirs b' row col rest flipped'
          else flipDirs b row col rest flipped
  end.

Definition flipPieces (b : Board) (row col : Z) : option Board :=
  '(b', flipped) ← flipDirs b row col Directions 0;
  if decide (CurrentPlayer b' = Black) then
    Some (withCounts b' (wrap (BlackCnt b' + wrap (flipped + 1))) (wrap (WhiteCnt b' - flipped)))
  else
    Some (withCounts b' (wrap (BlackCnt b' - flipped)) (wrap (WhiteCnt b' + wrap (flipped + 1)))).

(** [MakeMove]: the result and the board afterwards. *)
Definition MakeMove (b : Board) (row col : Z) : option (bool * Board) :=
  v ← IsValidMove b row col;
  if negb v then Some (false, b)
  else
    b1 ← setCell b row col (CurrentPlayer b);
    b2 ← flipPieces b1 row col;
    Some (true, withPlayer b2 (getOpponent b2)).

(** [IsGameOver]: the result and the board afterwards. *)
Definition IsGameOver (b : Board) : option (bool * Board) :=
  let current := CurrentPlayer b in
  hasMove ← HasValidMove b;
  if hasMove : bool then Some (false, b)
  else
    let b1 := withPlayer b (getOpponent b) in
    opponentHasMove ← HasValidMove b1;
    let b2 := withPlayer b1 current in
    Some (negb opponentHasMove, b2).

Definition GetWinner (b : Board) : Piece :=
  if BlackCnt b >? WhiteCnt b then Black
  else if WhiteCnt b >? BlackCnt b then White
  else Empty.

(** [Clone]: a fresh [Size] x [Size] grid filled from [b.Cells]; [make]
    panics on a negative length. *)
Definition Clone (b : Board) : option Board :=
  if Size b <? 0 then None
  else
    cs ← mapM (λ i, mapM (λ j, cell b i j) (seqZ 0 (Size b))) (seqZ 0 (Size b));
    Some (withCells b cs).

(** ** The game session ([Game]) *)

(** A Go [error]: [None] is [nil], [Some msg] is [errors.New(msg)]. *)
Definition error : Type := option string.

Record Move := { MovePosition : Position; MovePiece : Piece }.

Record Game := {
  GameBoard : Board;
  History : list Move;
  GameOver : bool;
  PassCount : Z;
  Winner : Piece
}.

Definition NewGame : Game :=
  {| GameBoard := NewBoard; History := []; GameOver := false;
     PassCount := 0; Winner := Empty |}.

Definition passPosition : Position := {| Row := -1; Col := -1 |}.

(** [updateGameState]; [IsGameOver] is evaluated before [PassCount >= 2]. *)
Definition updateGameState (g : Game) : option Game :=
  '(over, b) ← IsGameOver (GameBoard g);
  if over || (PassCount g >=? 2) then
    Some {| GameBoard := b; History := History g; GameOver := true;
            PassCount := PassCount g; Winner := GetWinner b |}
  else
    Some {| GameBoard := b; History := History g; GameOver := GameOver g;
            PassCount := PassCount g; Winner := Winner g |}.

(** [Game.MakeMove]: the error returned and the session afterwards. *)
Definition Game_MakeMove (g : Game) (row col : Z) : option (error * Game) :=
  if GameOver g then Some (Some "game is already over", g)
  else
    '(ok, b) ← MakeMove (GameBoard g) row col;
    let g0 := {| GameBoard := b; History := History g; GameOver := GameOver g;
                 PassCount := PassCount g; Winner := Winner g |} in
    if negb ok then Some (Some "invalid move", g0)
    else
      let g1 := {| GameBoard := b;
                   History := History g ++
                     [ {| MovePosition := {| Row := row; Col := col |};
                          MovePiece := CurrentPlayer b |} ];
                   GameOver := GameOver g; PassCount := 0; Winner := Winner g |} in
      g2 ← updateGameState g1;
      Some (None, g2).

(** [Game.Pass]: the error returned and the session afterwards. *)
Definition Game_Pass (g : Game) : option (error * Game) :=
  if GameOver g then Some (Some "game is already over", g)
  else
    hasMove ← HasValidMove (GameBoard g);
    if hasMove : bool then Some (Some "cannot pass when valid moves are available", g)
    else
      let b := GameBoard g in
      let g1 := {| GameBoard := withPlayer b (getOpponent b);
                   History := History g ++
                     [ {| MovePosition := passPosition; MovePiece := CurrentPlayer b |} ];
                   GameOver := GameOver g;
                   PassCount := wrap (PassCount g + 1);
                   Winner := Winner g |} in
      g2 ← updateGameState g1;
      Some (None, g2).

(** ** Move notation *)

Definition byte (a : ascii) : Z := Z.of_N (N_of_ascii a).

Definition isDigit (a : ascii) : bool := (48 <=? byte a) && (byte a <=? 57).

Fixpoint allDigits (s : string) : bool :=
  match s with
  | EmptyString => true
  | String a s' => isDigit a && allDigits s'
  end.

Definition startsWithDigit (s : string) : bool :=
  match s with
  | EmptyString => false
  | String a _ => isDigit a
  end.

(** The number a string of decimal digits denotes, after the digits [acc]
    already read. *)
Fixpoint decimalFrom (acc : Z) (s : string) : Z :=
  match s with
  | EmptyString => acc
  | String a s' => decimalFrom (10 * acc + (byte a - 48)) s'
  end.

Definition decimalValue (s : string) : Z := decimalFrom 0 s.

(** What [ParseMove] relies on in a scanner of integers: a leading run of
    decimal digits that fits an [int] is scanned as the number it denotes,
    and scanning stops at the first character that is not a digit.  The run
    is shorter than the 2^30 characters that [fmt] reads for one operand. *)
Definition scansLeadingDigits (scan : string → option Z) : Prop :=
  ∀ ds tail,
    ds ≠ EmptyString → allDigits ds = true → startsWithDigit tail = false →
    Z.of_nat (String.length ds) < 2 ^ 30 → decimalValue ds <= max_int →
    scan (ds +:+ tail) = Some (decimalValue ds).

Section MoveNotation.

(** [fmt.Sscanf(s, "%d", &row)] belongs to Go's standard library.
    [Sscanf_d s] is what the call stores: [Some n] when it scans the
    integer [n] into [row], [None] when it fails and leaves [row] as it
    was. *)
Variable Sscanf_d : string → option Z.

Hypothesis Sscanf_d_digits : scansLeadingDigits Sscanf_d.

Definition ParseMove (move : string) : Z * Z * error :=
  if Z.of_nat (String.length move) <? 2 then (-1, -1, Some "invalid move format")
  else if bool_decide (move = "pass") || bool_decide (move = "Pass")
          || bool_decide (move = "PASS") then (-1, -1, None)
  else
    match move with
    | EmptyString => (-1, -1, Some "invalid move format")
    | String first rest =>
        let col := byte first in
        let colIndex :=
          if (97 <=? col) && (col <=? 104) then Some (col - 97)
          else if (65 <=? col) && (col <=? 72) then Some (col - 65)
          else None in
        match colIndex with
        | None => (-1, -1, Some "invalid column")
        | Some col =>
            let row := default (-1) (Sscanf_d rest) in
            let row := wrap (row - 1) in
            if (row <? 0) || (row >=? 8) || (col <? 0) || (col >=? 8)
            then (-1, -1, Some "position out of bounds")
            else (row, col, None)
        end
    end.

End MoveNotation.

(** A scanner for ASCII input that meets [scansLeadingDigits], used to run
    [ParseMove]: blanks are skipped, a sign is accepted, at least one digit
    is required and a number that does not fit an [int] is an error. *)
Definition isBlank (a : ascii) : bool :=
  (byte a =? 32) || (byte a =? 9) || (byte a =? 13) || (byte a =? 11) || (byte a =? 12).

Fixpoint skipBlanks (s : string) : string :=
  match s with
  | String a s' => if isBlank a then skipBlanks s' else s
  | EmptyString => s
  end.

(** The value of the leading digits of [s], [None] when there is none. *)
Fixpoint leadingDigits (acc : option Z) (s : string) : option Z :=
  match s with
  | String a s' =>
      if isDigit a then leadingDigits (Some (10 * default 0 acc + (byte a - 48))) s'
      else acc
  | EmptyString => acc
  end.

Definition scanDecimal (s : string) : option Z :=
  match skipBlanks s with
  | EmptyString => None
  | String a s' =>
      let '(negative, body) :=
        if byte a =? 45 then (true, s')
        else if byte a =? 43 then (false, s')
        else (false, String a s') in
      n ← leadingDigits None body;
      let v := if negative : bool then - n else n in
      if (min_int <=? v) && (v <=? max_int) then Some v else None
  end.

(** ** pkg/ai/player.go *)

Definition Easy : string := "easy".
Definition Medium : string := "medium".
Definition Hard : string := "hard".

Record Player := { Difficulty : string; PlayerPiece : Piece }.

Definition NewPlayer (difficulty : string) (piece : Piece) : Player :=
  {| Difficulty := difficulty; PlayerPiece := piece |}.

Definition weights : list (list Z) :=
  [ [100; -20; 10; 5; 5; 10; -20; 100];
    [-20; -50; -2; -2; -2; -2; -50; -20];
    [10; -2; -1; -1; -1; -1; -2; 10];
    [5; -2; -1; -1; -1; -1; -2; 5];
    [5; -2; -1; -1; -1; -1; -2; 5];
    [10; -2; -1; -1; -1; -1; -2; 10];
    [-20; -50; -2; -2; -2; -2; -50; -20];
    [100; -20; 10; 5; 5; 10; -20; 100] ].

(** [weights[i][j]], read for [0 <= i, j < 8] only. *)
Definition weight (i j : Z) : Z :=
  default 0 (line ← weights !! Z.to_nat i; line !! Z.to_nat j).

(** The double loop of [evaluatePosition] over the cells still to visit,
    with the running [score]. *)
Fixpoint evalFrom (p : Player) (board : Board) (ps : list Position) (score : Z) : option Z :=
  match ps with
  | [] => Some score
  | pos :: rest =>
      piece ← GetPiece board (Row pos) (Col pos);
      let w := weight (Row pos) (Col pos) in
      evalFrom p board rest
        (if decide (piece = PlayerPiece p) then wrap (score + w)
         else if decide (piece ≠ Empty) then wrap (score - w)
         else score)
  end.

Definition evaluatePosition (p : Player) (board : Board) : option Z :=
  evalFrom p board (rowMajor 8) 0.

(** The maximizing loop of [minimax]; [child] is the recursive call on the
    board after a move. *)
Fixpoint maxLoop (child : Board → Z → Z → option Z) (board : Board)
  (moves : list Position) (alpha beta maxScore : Z) : option Z :=
  match moves with
  | [] => Some maxScore
  | move :: rest =>
      boardCopy ← Clone board;
      '(_, boardCopy) ← MakeMove boardCopy (Row move) (Col move);
      score ← child boardCopy alpha beta;
      let maxScore := Z.max maxScore score in
      let alpha := Z.max alpha score in
      if beta <=? alpha then Some maxScore
      else maxLoop child board rest alpha beta maxScore
  end.

(** The minimizing loop of [minimax]. *)
Fixpoint minLoop (child : Board → Z → Z → option Z) (board : Board)
  (moves : list Position) (alpha beta minScore : Z) : option Z :=
  match moves with
  | [] => Some minScore
  | move :: rest =>
      boardCopy ← Clone board;
      '(_, boardCopy) ← MakeMove boardCopy (Row move) (Col move);
      score ← child boardCopy alpha beta;
      let minScore := Z.min minScore score in
      let beta := Z.min beta score in
      if beta <=? alpha then Some minScore
      else minLoop child board rest alpha beta minScore
  end.

(** [minimax]. [fuel] bounds the nesting of calls: a call that needs more
    gives [None]. *)
Fixpoint minimax (fuel : nat) (p : Player) (board : Board) (depth alpha beta : Z)
  (maximizing : bool) : option Z :=
  match fuel with
  | O => None
  | S fuel' =>
      '(stop, board) ← (if depth =? 0 then Some (true, board) else IsGameOver board);
      if stop : bool then evaluatePosition p board
      else
        moves ← GetValidMoves board;
        if bool_decide (length moves = 0%nat) then evaluatePosition p board
        else if maximizing then
          maxLoop (λ bc a b, minimax fuel' p bc (wrap (depth - 1)) a b false)
            board moves alpha beta MinInt32
        else
          minLoop (λ bc a b, minimax fuel' p bc (wrap (depth - 1)) a b true)
            board moves alpha beta MaxInt32
  end.

(** The loop of [getMediumMove] and of [getHardMove]: [score] rates the
    board after a move. *)
Fixpoint bestOf (score : Board → option Z) (board : Board) (moves : list Position)
  (bestScore : Z) (bestMove : Position) : option Position :=
  match moves with
  | [] => Some bestMove
  | move :: rest =>
      boardCopy ← Clone board;
      '(_, boardCopy) ← MakeMove boardCopy (Row move) (Col move);
      sc ← score boardCopy;
      if sc >? bestScore then bestOf score board rest sc move
      else bestOf score board rest bestScore bestMove
  end.

Definition noMove : Z * Z * error := (-1, -1, None).

Definition getMediumMove (p : Player) (board : Board) : option (Z * Z * error) :=
  moves ← GetValidMoves board;
  if bool_decide (length moves = 0%nat) then Some noMove
  else
    best ← bestOf (evaluatePosition p) board moves MinInt32 {| Row := 0; Col := 0 |};
    Some (Row best, Col best, None).

(** [getHardMove]: four plies below each move, so five nested calls. *)
Definition getHardMove (p : Player) (board : Board) : option (Z * Z * error) :=
  moves ← GetValidMoves board;
  if bool_decide (length moves = 0%nat) then Some noMove
  else
    best ← bestOf (λ bc, minimax 5 p bc 4 MinInt32 MaxInt32 false)
             board moves MinInt32 {| Row := 0; Col := 0 |};
    Some (Row best, Col best, None).

Section Random.

(** [rand.Seed(time.Now().UnixNano())] followed by [rand.Intn(n)]:
    [Intn now n] is the number drawn when the clock reads [now]; for
    [0 < n] it lies in [[0, n)]. *)
Variable Intn : Z → Z → Z.

Hypothesis Intn_range : ∀ now n, 0 < n → 0 <= Intn now n < n.

Definition getRandomMove (p : Player) (now : Z) (board : Board) : option (Z * Z * error) :=
  moves ← GetValidMoves board;
  if bool_decide (length moves = 0%nat) then Some noMove
  else
    move ← index moves (Intn now (Z.of_nat (length moves)));
    Some (Row move, Col move, None).

Definition GetMove (p : Player) (now : Z) (board : Board) : option (Z * Z * error) :=
  if decide (Difficulty p = Easy) then getRandomMove p now board
  else if decide (Difficulty p = Medium) then getMediumMove p board
  else if decide (Difficulty p = Hard) then getHardMove p board
  else getRandomMove p now board.

End Random.

(** ** The game session: queries, formatting and the computer's move *)

Definition Game_GetValidMoves (g : Game) : option (list Position) :=
  GetValidMoves (GameBoard g).

Definition Game_HasValidMove (g : Game) : option bool := HasValidMove (GameBoard g).

Definition GetScore (g : Game) : Z * Z :=
  (BlackCnt (GameBoard g), WhiteCnt (GameBoard g)).

Definition GetGameStatus (g : Game) : string :=
  if GameOver g then
    match Winner g with
    | Black => "Game Over - Black Wins!"
    | White => "Game Over - White Wins!"
    | Empty => "Game Over - It's a tie!"
    end
  else if decide (CurrentPlayer (GameBoard g) = Black) then "Black's turn"
  else "White's turn".

(** [Reset]: the session afterwards. *)
Definition Reset (g : Game) : Game := NewGame.

Definition GetPieceName (p : Piece) : string :=
  match p with
  | Black => "Black"
  | White => "White"
  | Empty => "Empty"
  end.

Definition GetCurrentPlayer (g : Game) : Piece := CurrentPlayer (GameBoard g).

Definition char (n : Z) : ascii := ascii_of_N (Z.to_N n).

(** [utf8.AppendRune]: the UTF-8 encoding of the rune [r], given as the
    32-bit pattern read unsigned; a surrogate or a value above [MaxRune]
    is encoded as [RuneError], U+FFFD. *)
Definition encodeRune (r : Z) : string :=
  if r <=? 127 then String (char r) EmptyString
  else if r <=? 2047 then
    String (char (192 + r / 64)) (String (char (128 + r mod 64)) EmptyString)
  else
    let r := if (1114111 <? r) || ((55296 <=? r) && (r <=? 57343)) then 65533 else r in
    if r <=? 65535 then
      String (char (224 + r / 4096))
        (String (char (128 + (r / 64) mod 64)) (String (char (128 + r mod 64)) EmptyString))
    else
      String (char (240 + r / 262144))
        (String (char (128 + (r / 4096) mod 64))
           (String (char (128 + (r / 64) mod 64))
              (String (char (128 + r mod 64)) EmptyString))).

(** The verb [%c] of [fmt.Sprintf] on the [int] [c]: the value is read as
    an unsigned 64-bit number and replaced by [RuneError] above [MaxRune]. *)
Definition formatRune (c : Z) : string :=
  let u := c mod 2 ^ 64 in
  encodeRune (if 1114111 <? u then 65533 else u).

(** The decimal digits of [n >= 0], most significant first, before [acc];
    an [int] has at most 19 digits. *)
Fixpoint digitsBefore (fuel : nat) (n : Z) (acc : string) : string :=
  match fuel with
  | O => acc
  | S fuel' =>
      let acc' := String (char (48 + n mod 10)) acc in
      if n <? 10 then acc' else digitsBefore fuel' (n / 10) acc'
  end.

(** The verb [%d] of [fmt.Sprintf] on an [int]. *)
Definition formatInt (n : Z) : string :=
  if n <? 0 then String "-" (digitsBefore 20 (- n) EmptyString)
  else digitsBefore 20 n EmptyString.

(** [FormatMove]: [fmt.Sprintf("%c%d", 'A'+col, row+1)]. *)
Definition FormatMove (row col : Z) : string :=
  if (row <? 0) || (col <? 0) then "Pass"
  else formatRune (wrap (65 + col)) +:+ formatInt (wrap (row + 1)).

(** [Game.MakeComputerMove]: the result and the session afterwards; [Intn]
    and [now] stand for [rand.Intn] seeded from the clock, as in
    [getRandomMove]. *)
Definition MakeComputerMove (Intn : Z → Z → Z) (g : Game) (now : Z) : option (bool * Game) :=
  moves ← Game_GetValidMoves g;
  if bool_decide (length moves = 0%nat) then Some (false, g)
  else
    move ← index moves (Intn now (Z.of_nat (length moves)));
    '(err, g') ← Game_MakeMove g (Row move) (Col move);
    Some (bool_decide (err = None), g').

(** ** Specification-side notions *)

(** The grid is 8 x 8 and [Size] says so. *)
Definition wfGrid (b : Board) : Prop :=
  Size b = 8 ∧ length (Cells b) = 8%nat ∧ Forall (λ line, length line = 8%nat) (Cells b).

(** A board of the data model: an 8 x 8 grid and a side to move. *)
Definition wf (b : Board) : Prop := wfGrid b ∧ CurrentPlayer b ≠ Empty.

Definition onBoard (row col : Z) : Prop := 0 <= row < 8 ∧ 0 <= col < 8.

(** The cell [(row, col)] is on the board and holds [p]. *)
Definition holds (b : Board) (row col : Z) (p : Piece) : Prop :=
  onBoard row col ∧ cell b row col = Some p.

(** The other colour. *)
Definition other (p : Piece) : Piece :=
  match p with
  | Black => White
  | White => Black
  | Empty => Empty
  end.

(** From [(row, col)] in direction [dir]: [k >= 1] opponent pieces in a
    row, the first one adjacent, then a piece of the side to move. *)
Definition brackets (b : Board) (row col : Z) (dir : Direction) : Prop :=
  ∃ k, 1 <= k ∧
    (∀ i, 1 <= i <= k →
       holds b (row + i * DRow dir) (col + i * DCol dir) (other (CurrentPlayer b))) ∧
    holds b (row + (k + 1) * DRow dir) (col + (k + 1) * DCol dir) (CurrentPlayer b).

(** A legal move: an empty cell of the board that brackets in some
    direction. *)
Definition legal (b : Board) (row col : Z) : Prop :=
  holds b row col Empty ∧ ∃ dir, dir ∈ Directions ∧ brackets b row col dir.

(** The number of cells of the grid that hold [p]. *)
Definition countLine (p : Piece) (line : list Piece) : Z :=
  Z.of_nat (length (filter (λ q, q = p) line)).

Definition countPiece (p : Piece) (cs : list (list Piece)) : Z :=
  foldr (λ line n, countLine p line + n) 0 cs.

(** The number of cells of the grid that are not [Empty]. *)
Definition occupied (cs : list (list Piece)) : Z :=
  foldr (λ line n, Z.of_nat (length (filter (λ q, q ≠ Empty) line)) + n) 0 cs.

(** The counters agree with the grid. *)
Definition countsAgree (b : Board) : Prop :=
  BlackCnt b = countPiece Black (Cells b) ∧ WhiteCnt b = countPiece White (Cells b).

(** What a cell holding [piece], of weight [w], contributes to the score of
    the colour [scored]. *)
Definition contribution (scored piece : Piece) (w : Z) : Z :=
  if decide (piece = Empty) then 0
  else if decide (piece = scored) then w
  else - w.

(** The sum of the contributions of the cells [ps]. *)
Definition scoreOver (scored : Piece) (b : Board) (ps : list Position) : Z :=
  foldr (λ pos n,
           contribution scored (default Empty (cell b (Row pos) (Col pos)))
             (weight (Row pos) (Col pos)) + n)
        0 ps.

(** The positional score of [scored]: the sum of the contributions of the
    64 cells. *)
Definition positionalScore (scored : Piece) (b : Board) : Z :=
  scoreOver scored b (rowMajor 8).

(** A column letter, [A]-[H] or [a]-[h], and the column it names. *)
Definition isColumnLetter (a : ascii) : bool :=
  ((97 <=? byte a) && (byte a <=? 104)) || ((65 <=? byte a) && (byte a <=? 72)).

Definition columnOf (a : ascii) : Z :=
  if (97 <=? byte a) && (byte a <=? 104) then byte a - 97 else byte a - 65.

(** The three spellings of the pass token that [ParseMove] compares with. *)
Definition isPassToken (move : string) : Prop :=
  move = "pass" ∨ move = "Pass" ∨ move = "PASS".

(** The input in lower case, and the pass token read without regard to
    case. *)
Definition lowerByte (a : ascii) : ascii :=
  if (65 <=? byte a) && (byte a <=? 90) then ascii_of_N (N_of_ascii a + 32) else a.

Fixpoint lowerCase (s : string) : string :=
  match s with
  | EmptyString => EmptyString
  | String a s' => String (lowerByte a) (lowerCase s')
  end.

Definition isPassAnyCase (move : string) : Prop := lowerCase move = "pass".

(** A session no play leads to, where two passes in a row go through: no
    side is to move ([CurrentPlayer] is [Empty], the zero value of [Piece]),
    and on the grid Black has no move while White has one.  In
    [strandedGame] the pass counter starts below zero. *)
Definition strandedBoard : Board :=
  {| Cells :=
       [ [White; Black; Empty; Empty; Empty; Empty; Empty; Empty];
         emptyRow; emptyRow; emptyRow; emptyRow; emptyRow; emptyRow; emptyRow ];
     CurrentPlayer := Empty;
     Size := 8;
     BlackCnt := 1;
     WhiteCnt := 1 |}.


(** A session on the same grid with Black to move: Black has no legal
    move and White has one, so Black may pass. *)
Definition stuckGame : Game :=
  {| GameBoard := withPlayer strandedBoard Black; History := []; GameOver := false;
     PassCount := 0; Winner := Empty |}.






(** The clock reading taken modulo [n], a stand-in for [rand.Intn]. *)
Definition clockIntn (now n : Z) : Z := now mod n.

(** [p] comes before [q] in the row-major scan of the board. *)
Definition rowMajorBefore (p q : Position) : Prop :=
  Row p < Row q ∨ (Row p = Row q ∧ Col p < Col q).

(** The bracket of [brackets], with its length: from [(row, col)] in
    direction [dir], exactly [k >= 1] opponent pieces and then a piece of
    the side to move. *)
Definition bracketRun (b : Board) (row col : Z) (dir : Direction) (k : Z) : Prop :=
  1 <= k ∧
  (∀ i, 1 <= i <= k →
     holds b (row + i * DRow dir) (col + i * DCol dir) (other (CurrentPlayer b))) ∧
  holds b (row + (k + 1) * DRow dir) (col + (k + 1) * DCol dir) (CurrentPlayer b).

(** The cell [(r, c)] is one of the opponent pieces that a move at
    [(row, col)] brackets in one of the directions [dirs]. *)
Definition flippedIn (b : Board) (row col : Z) (dirs : list Direction) (r c : Z) : Prop :=
  ∃ dir k i, dir ∈ dirs ∧ bracketRun b row col dir k ∧ 1 <= i <= k ∧
             r = row + i * DRow dir ∧ c = col + i * DCol dir.

(** Neither the side to move nor the opponent has a legal move. *)
Definition terminal (b : Board) : Prop :=
  (∀ row col, ¬ legal b row col) ∧
  (∀ row col, ¬ legal (withPlayer b (other (CurrentPlayer b))) row col).

(** The sessions that calls of [Game.MakeMove] and [Game.Pass], accepted or
    refused, lead to from a new game. *)
Inductive reachable : Game → Prop :=
  | reachable_new : reachable NewGame
  | reachable_move g row col err g' :
      reachable g → Game_MakeMove g row col = Some (err, g') → reachable g'
  | reachable_pass g err g' :
      reachable g → Game_Pass g = Some (err, g') → reachable g'.

(** The number of entries of the history that are moves, not passes. *)
Definition moveCount (h : list Move) : Z :=
  Z.of_nat (length (filter (λ m, MovePosition m ≠ passPosition) h)).

(** What every reachable session satisfies. *)
Definition sessionInv (g : Game) : Prop :=
  wf (GameBoard g) ∧ countsAgree (GameBoard g) ∧
  occupied (Cells (GameBoard g)) = 4 + moveCount (History g) ∧
  0 <= PassCount g <= 1 ∧
  (GameOver g = true ↔ terminal (GameBoard g)) ∧
  (GameOver g = true → Winner g = GetWinner (GameBoard g)) ∧
  (GameOver g = false → Winner g = Empty) ∧
  (GameOver g = false → PassCount g = 1 → ∃ row col, legal (GameBoard g) row col).

(** The board that the search looks at after [move]: a clone of [board]
    with the move made on it. *)
Definition playOn (board : Board) (move : Position) : option Board :=
  boardCopy ← Clone board;
  '(_, boardCopy) ← MakeMove boardCopy (Row move) (Col move);
  Some boardCopy.

(** Minimax without pruning: the loop over all the moves of a node, and the
    value of a node, with the leaves and the sentinels of [minimax]. *)
Fixpoint plainLoop (pick : Z → Z → Z) (child : Board → option Z) (board : Board)
  (moves : list Position) (acc : Z) : option Z :=
  match moves with
  | [] => Some acc
  | move :: rest =>
      boardCopy ← playOn board move;
      score ← child boardCopy;
      plainLoop pick child board rest (pick acc score)
  end.

Fixpoint exhaustive (fuel : nat) (p : Player) (board : Board) (depth : Z)
  (maximizing : bool) : option Z :=
  match fuel with
  | O => None
  | S fuel' =>
      '(stop, board) ← (if depth =? 0 then Some (true, board) else IsGameOver board);
      if stop : bool then evaluatePosition p board
      else
        moves ← GetValidMoves board;
        if bool_decide (length moves = 0%nat) then evaluatePosition p board
        else if maximizing then
          plainLoop Z.max (λ bc, exhaustive fuel' p bc (wrap (depth - 1)) false)
            board moves MinInt32
        else
          plainLoop Z.min (λ bc, exhaustive fuel' p bc (wrap (depth - 1)) true)
            board moves MaxInt32
  end.

(** The move [move], played on [board], is rated [s] by [score]. *)
Definition rated (score : Board → option Z) (board : Board) (move : Position) (s : Z) : Prop :=
  ∃ b', playOn board move = Some b' ∧ score b' = Some s.

(** The value [v] of a search in the window [(alpha, beta)] against the
    value [m] of the full search: equal inside the window, and outside it
    a bound of [m] on the side where it fell. *)
Definition agrees (alpha beta m v : Z) : Prop :=
  (v <= alpha → m <= v) ∧ (alpha < v < beta → m = v) ∧ (beta <= v → v <= m).

(** ** Notions used in the proofs *)

(** How many cells lie ahead of [(r, c)] in direction [dir], itself
    included. *)
Definition ahead (dir : Direction) (r c : Z) : Z :=
  if DRow dir =? 1 then 8 - r
  else if DRow dir =? -1 then r + 1
  else if DCol dir =? 1 then 8 - c
  else c + 1.

(** From [(r, c)] on: [j] opponent pieces, then a piece of the side to
    move. *)
Definition run (b : Board) (dir : Direction) (r c j : Z) : Prop :=
  (∀ i, 0 <= i < j →
     holds b (r + i * DRow dir) (c + i * DCol dir) (other (CurrentPlayer b))) ∧
  holds b (r + j * DRow dir) (c + j * DCol dir) (CurrentPlayer b).

(** 1 when [P] holds, 0 otherwise. *)
Definition ind (P : Prop) `{Decision P} : Z := if decide P then 1 else 0.

(** What a write leaves alone. *)
Definition sameFrame (b b' : Board) : Prop :=
  Size b' = Size b ∧ CurrentPlayer b' = CurrentPlayer b ∧
  BlackCnt b' = BlackCnt b ∧ WhiteCnt b' = WhiteCnt b.

(** The cell [i] steps from [(row, col)] in direction [dir]. *)
Definition ray (row col : Z) (dir : Direction) (i : Z) : Position :=
  {| Row := row + i * DRow dir; Col := col + i * DCol dir |}.

(** [b'] has [k] more pieces of the side to move than [b], and [k] fewer
    of the opponent. *)
Definition gained (b b' : Board) (k : Z) : Prop :=
  countPiece (CurrentPlayer b) (Cells b') = countPiece (CurrentPlayer b) (Cells b) + k ∧
  countPiece (other (CurrentPlayer b)) (Cells b')
    = countPiece (other (CurrentPlayer b)) (Cells b) - k.

(** ** The model, run *)

Example opening_D3 : IsValidMove NewBoard 2 3 = Some true.
Proof. reflexivity. Qed.

Example opening_A1 : IsValidMove NewBoard 0 0 = Some false.
Proof. reflexivity. Qed.

Example opening_moves :
  GetValidMoves NewBoard =
  Some [ {| Row := 2; Col := 3 |}; {| Row := 3; Col := 2 |};
         {| Row := 4; Col := 5 |}; {| Row := 5; Col := 4 |} ].
Proof. reflexivity. Qed.

Example opening_D3_applied :
  ∃ b, MakeMove NewBoard 2 3 = Some (true, b) ∧
       cell b 2 3 = Some Black ∧ cell b 3 3 = Some Black ∧
       BlackCnt b = 4 ∧ WhiteCnt b = 1 ∧ CurrentPlayer b = White.
Proof. eexists. vm_compute. repeat split; reflexivity. Qed.

Example opening_clone : Clone NewBoard = Some NewBoard.
Proof. reflexivity. Qed.

Example parse_E4 : ParseMove scanDecimal "E4" = (3, 4, None).
Proof. reflexivity. Qed.

Example parse_pass : ParseMove scanDecimal "PASS" = (-1, -1, None).
Proof. reflexivity. Qed.

Example parse_short : ParseMove scanDecimal "E" = (-1, -1, Some "invalid move format").
Proof. reflexivity. Qed.

Example medium_opening :
  getMediumMove (NewPlayer Medium Black) NewBoard = Some (2, 3, None).
Proof. vm_compute. reflexivity. Qed.

(** ** Indexing a well-formed grid *)

Lemma wrap_small (x : Z) : min_int <= x <= max_int → wrap x = x.
Proof.
  unfold wrap, min_int, max_int. intros H.
  rewrite Z.mod_small; lia.
Qed.

Lemma index_Some {A} (l : list A) (i : Z) :
  0 <= i < Z.of_nat (length l) → ∃ x, index l i = Some x.
Proof.
  intros H. unfold index.
  destruct (Z.ltb_spec i 0); [lia|].
  destruct (lookup_lt_is_Some_2 l (Z.to_nat i)) as [x Hx]; [lia|]. eauto.
Qed.

Lemma index_inv {A} (l : list A) (i : Z) (x : A) :
  index l i = Some x → 0 <= i ∧ l !! Z.to_nat i = Some x.
Proof.
  unfold index. destruct (Z.ltb_spec i 0); [done|]. auto.
Qed.

Lemma IsValidPosition_onBoard (b : Board) (row col : Z) :
  Size b = 8 → (IsValidPosition b row col = true ↔ onBoard row col).
Proof.
  intros HS. unfold IsValidPosition, onBoard. rewrite HS.
  rewrite !andb_true_iff, !Z.leb_le, !Z.ltb_lt. lia.
Qed.

Lemma IsValidPosition_off (b : Board) (row col : Z) :
  Size b = 8 → (IsValidPosition b row col = false ↔ ¬ onBoard row col).
Proof.
  intros HS. rewrite <- (IsValidPosition_onBoard b row col HS).
  destruct (IsValidPosition b row col); split; congruence.
Qed.

Lemma cell_Some (b : Board) (row col : Z) :
  wfGrid b → onBoard row col → ∃ p, cell b row col = Some p.
Proof.
  intros (HS & Hlen & Hrows) [Hr Hc]. unfold cell.
  destruct (index_Some (Cells b) row) as [line Hline]; [lia|].
  rewrite Hline. simpl.
  apply index_inv in Hline as [_ Hline].
  rewrite Forall_lookup in Hrows. specialize (Hrows _ _ Hline). simpl in Hrows.
  apply index_Some. lia.
Qed.

Lemma other_involutive (p : Piece) : other (other p) = p.
Proof. by destruct p. Qed.

Lemma getOpponent_other (b : Board) :
  CurrentPlayer b ≠ Empty → getOpponent b = other (CurrentPlayer b).
Proof. unfold getOpponent. destruct (CurrentPlayer b); done. Qed.

Lemma neither_is_other (p cur : Piece) :
  cur ≠ Empty → p ≠ cur → p ≠ Empty → p = other cur.
Proof. destruct p, cur; done. Qed.

(** ** The scan of one direction *)

Lemma ahead_step (dir : Direction) (r c : Z) :
  dir ∈ Directions → onBoard r c →
  1 <= ahead dir r c <= 8 ∧
  ahead dir (r + DRow dir) (c + DCol dir) = ahead dir r c - 1.
Proof.
  intros Hdir [Hr Hc]. unfold Directions in Hdir.
  repeat (apply elem_of_cons in Hdir as [-> | Hdir]; [unfold ahead; simpl; lia|]).
  by apply elem_of_nil in Hdir.
Qed.

Lemma run_here (b : Board) (dir : Direction) (r c j : Z) (p : Piece) :
  0 <= j → run b dir r c j → cell b r c = Some p →
  onBoard r c ∧ (p = CurrentPlayer b ∧ j = 0 ∨ p = other (CurrentPlayer b) ∧ 0 < j).
Proof.
  intros Hj [Hrun Hend] Hp.
  destruct (decide (j = 0)) as [-> | Hne].
  - destruct Hend as [Hon Hc]. rewrite !Z.mul_0_l, !Z.add_0_r in Hon, Hc.
    split; [done|]. left. split; congruence.
  - destruct (Hrun 0) as [Hon Hc]; [lia|]. rewrite !Z.mul_0_l, !Z.add_0_r in Hon, Hc.
    split; [done|]. right. split; [congruence | lia].
Qed.

Lemma run_cons (b : Board) (dir : Direction) (r c j : Z) :
  0 <= j → holds b r c (other (CurrentPlayer b)) →
  run b dir (r + DRow dir) (c + DCol dir) j → run b dir r c (j + 1).
Proof.
  intros Hj Hh [Hrun Hend]. split.
  - intros i Hi. destruct (decide (i = 0)) as [-> | Hne].
    + by rewrite !Z.mul_0_l, !Z.add_0_r.
    + replace (r + i * DRow dir) with (r + DRow dir + (i - 1) * DRow dir) by lia.
      replace (c + i * DCol dir) with (c + DCol dir + (i - 1) * DCol dir) by lia.
      apply Hrun. lia.
  - replace (r + (j + 1) * DRow dir) with (r + DRow dir + j * DRow dir) by lia.
    replace (c + (j + 1) * DCol dir) with (c + DCol dir + j * DCol dir) by lia.
    done.
Qed.

Lemma run_tail (b : Board) (dir : Direction) (r c j : Z) :
  0 < j → run b dir r c j → run b dir (r + DRow dir) (c + DCol dir) (j - 1).
Proof.
  intros Hj [Hrun Hend]. split.
  - intros i Hi.
    replace (r + DRow dir + i * DRow dir) with (r + (i + 1) * DRow dir) by lia.
    replace (c + DCol dir + i * DCol dir) with (c + (i + 1) * DCol dir) by lia.
    apply Hrun. lia.
  - replace (r + DRow dir + (j - 1) * DRow dir) with (r + j * DRow dir) by lia.
    replace (c + DCol dir + (j - 1) * DCol dir) with (c + j * DCol dir) by lia.
    done.
Qed.

(** [scanOwn] returns, and finds a piece of the side to move exactly when
    a run starts at [(r, c)]. *)
Lemma scanOwn_run (b : Board) (dir : Direction) :
  wf b → dir ∈ Directions →
  ∀ fuel r c,
    (1 <= Z.of_nat fuel) → (onBoard r c → ahead dir r c < Z.of_nat fuel) →
    ∃ v, scanOwn fuel b dir r c = Some v ∧ (v = true ↔ ∃ j, 0 <= j ∧ run b dir r c j).
Proof.
  intros [Hgrid Hcur] Hdir. induction fuel as [|fuel IH]; intros r c H1 Hfuel; [lia|].
  simpl. destruct (IsValidPosition b r c) eqn:Hpos.
  - apply IsValidPosition_onBoard in Hpos; [|apply Hgrid].
    destruct (cell_Some b r c Hgrid Hpos) as [p Hp]. rewrite Hp. simpl.
    destruct (ahead_step dir r c Hdir Hpos) as [Hrange Hnext].
    specialize (Hfuel Hpos).
    destruct (decide (p = CurrentPlayer b)) as [-> | Hnc].
    { exists true. split; [done|]. split; [|done]. intros _. exists 0. split; [lia|].
      split; [intros; lia|]. rewrite !Z.mul_0_l, !Z.add_0_r. done. }
    destruct (decide (p = Empty)) as [-> | Hne].
    { exists false. split; [done|]. split; [done|]. intros (j & Hj & Hrun).
      destruct (run_here _ _ _ _ _ _ Hj Hrun Hp) as [_ [[? _] | [He _]]]; [done|].
      destruct (CurrentPlayer b); done. }
    destruct (IH (r + DRow dir) (c + DCol dir)) as (v & Hv & Hiff); [lia | lia |].
    exists v. split; [done|]. rewrite Hiff. split.
    + intros (j & Hj & Hrun). exists (j + 1). split; [lia|].
      apply run_cons; [done | | done]. split; [done|].
      rewrite Hp. f_equal. by apply neither_is_other.
    + intros (j & Hj & Hrun).
      destruct (run_here _ _ _ _ _ _ Hj Hrun Hp) as [_ [[? _] | [_ Hpos']]]; [done|].
      exists (j - 1). split; [lia|]. by apply run_tail.
  - exists false. split; [done|]. split; [done|]. intros (j & Hj & [Hrun Hend]).
    apply IsValidPosition_off in Hpos; [|apply Hgrid]. destruct Hpos.
    destruct (decide (j = 0)) as [-> | Hne].
    + destruct Hend as [Hon _]. by rewrite !Z.mul_0_l, !Z.add_0_r in Hon.
    + destruct (Hrun 0) as [Hon _]; [lia|]. by rewrite !Z.mul_0_l, !Z.add_0_r in Hon.
Qed.

Lemma brackets_run (b : Board) (row col : Z) (dir : Direction) :
  brackets b row col dir ↔
  holds b (row + DRow dir) (col + DCol dir) (other (CurrentPlayer b)) ∧
  ∃ j, 0 <= j ∧ run b dir (row + DRow dir + DRow dir) (col + DCol dir + DCol dir) j.
Proof.
  split.
  - intros (k & Hk & Hrun & Hend). split.
    + specialize (Hrun 1). rewrite !Z.mul_1_l in Hrun. apply Hrun. lia.
    + exists (k - 1). split; [lia|]. split.
      * intros i Hi.
        replace (row + DRow dir + DRow dir + i * DRow dir)
          with (row + (i + 2) * DRow dir) by lia.
        replace (col + DCol dir + DCol dir + i * DCol dir)
          with (col + (i + 2) * DCol dir) by lia.
        apply Hrun. lia.
      * replace (row + DRow dir + DRow dir + (k - 1) * DRow dir)
          with (row + (k + 1) * DRow dir) by lia.
        replace (col + DCol dir + DCol dir + (k - 1) * DCol dir)
          with (col + (k + 1) * DCol dir) by lia.
        done.
  - intros (Hadj & j & Hj & Hrun & Hend). exists (j + 1). split; [lia|]. split.
    + intros i Hi. destruct (decide (i = 1)) as [-> | Hne].
      * by rewrite !Z.mul_1_l.
      * replace (row + i * DRow dir)
          with (row + DRow dir + DRow dir + (i - 2) * DRow dir) by lia.
        replace (col + i * DCol dir)
          with (col + DCol dir + DCol dir + (i - 2) * DCol dir) by lia.
        apply Hrun. lia.
    + replace (row + (j + 1 + 1) * DRow dir)
        with (row + DRow dir + DRow dir + j * DRow dir) by lia.
      replace (col + (j + 1 + 1) * DCol dir)
        with (col + DCol dir + DCol dir + j * DCol dir) by lia.
      done.
Qed.

Lemma scanFuel_wf (b : Board) : Size b = 8 → scanFuel b = 9%nat.
Proof. unfold scanFuel. by intros ->. Qed.

#[local] Opaque scanFuel.

(** The loop over the directions returns, and answers whether one of them
    brackets. *)
Lemma validIn_brackets (b : Board) (row col : Z) :
  wf b →
  ∀ dirs, dirs ⊆ Directions →
    ∃ v, validIn b row col dirs = Some v ∧
         (v = true ↔ ∃ dir, dir ∈ dirs ∧ brackets b row col dir).
Proof.
  intros Hwf. pose proof Hwf as [Hgrid Hcur].
  induction dirs as [|dir rest IH]; intros Hsub.
  { exists false. split; [done|]. split; [done|]. intros (d & Hd & _).
    by apply elem_of_nil in Hd. }
  assert (Hdir : dir ∈ Directions) by (apply Hsub; left).
  destruct IH as (v & Hv & Hiff); [intros d Hd; apply Hsub; by right|].
  assert (Hskip : ¬ brackets b row col dir →
            ∃ v', validIn b row col rest = Some v' ∧
                  (v' = true ↔ ∃ d, d ∈ dir :: rest ∧ brackets b row col d)).
  { intros Hno. exists v. split; [done|]. rewrite Hiff. split.
    - intros (d & Hd & Hb). exists d. split; [by right | done].
    - intros (d & Hd & Hb). apply elem_of_cons in Hd as [-> | Hd]; [done|]. eauto. }
  simpl. destruct (IsValidPosition b (row + DRow dir) (col + DCol dir)) eqn:Hpos; simpl.
  - apply IsValidPosition_onBoard in Hpos; [|apply Hgrid].
    destruct (cell_Some b _ _ Hgrid Hpos) as [p Hp]. rewrite Hp. simpl.
    rewrite (getOpponent_other b Hcur).
    destruct (decide (p ≠ other (CurrentPlayer b))) as [Hne | Heq].
    { apply Hskip. rewrite brackets_run. intros [[_ Hc] _]. congruence. }
    apply dec_stable in Heq. subst p.
    destruct (scanOwn_run b dir Hwf Hdir (scanFuel b)
                (row + DRow dir + DRow dir) (col + DCol dir + DCol dir))
      as (found & Hfound & Hrun).
    { rewrite scanFuel_wf; [lia | apply Hgrid]. }
    { intros Hon. pose proof (ahead_step dir _ _ Hdir Hon).
      rewrite scanFuel_wf; [lia | apply Hgrid]. }
    rewrite Hfound. simpl. destruct found.
    + exists true. split; [done|]. split; [|done]. intros _. exists dir. split; [left|].
      rewrite brackets_run. split; [done|]. by apply Hrun.
    + apply Hskip. rewrite brackets_run. intros [_ Hr]. apply Hrun in Hr. done.
  - apply Hskip. rewrite brackets_run. intros [[Hon _] _].
    apply IsValidPosition_off in Hpos; [done | apply Hgrid].
Qed.

(** [IsValidMove] returns, and decides legality. *)
Lemma IsValidMove_decides (b : Board) (row col : Z) :
  wf b → ∃ v, IsValidMove b row col = Some v ∧ (v = true ↔ legal b row col).
Proof.
  intros Hwf. pose proof Hwf as [Hgrid Hcur]. unfold IsValidMove, legal.
  destruct (IsValidPosition b row col) eqn:Hpos; simpl.
  - apply IsValidPosition_onBoard in Hpos; [|apply Hgrid].
    destruct (cell_Some b _ _ Hgrid Hpos) as [p Hp]. rewrite Hp. simpl.
    destruct (decide (p ≠ Empty)) as [Hne | Heq].
    + exists false. split; [done|]. split; [done|]. intros [[_ Hc] _]. congruence.
    + apply dec_stable in Heq. subst p.
      destruct (validIn_brackets b row col Hwf Directions) as (v & Hv & Hiff); [done|].
      exists v. split; [done|]. rewrite Hiff. unfold holds. tauto.
  - exists false. split; [done|]. split; [done|]. intros [[Hon _] _].
    apply IsValidPosition_off in Hpos; [done | apply Hgrid].
Qed.

Lemma IsValidMove_true (b : Board) (row col : Z) :
  wf b → (IsValidMove b row col = Some true ↔ legal b row col).
Proof.
  intros Hwf. destruct (IsValidMove_decides b row col Hwf) as (v & Hv & Hiff).
  rewrite Hv, <- Hiff. split; congruence.
Qed.

Lemma NewBoard_wf : wf NewBoard.
Proof.
  split; [|done]. split; [done|]. split; [done|].
  repeat constructor.
Qed.

(** ** Enumerating the legal moves *)

Lemma rowMajor_onBoard (p : Position) : p ∈ rowMajor 8 ↔ onBoard (Row p) (Col p).
Proof.
  unfold rowMajor, onBoard. rewrite list_elem_of_bind. split.
  - intros (i & Hp & Hi). apply list_elem_of_bind in Hp as (j & Hp & Hj).
    apply list_elem_of_singleton in Hp as ->. simpl.
    apply elem_of_seqZ in Hi, Hj. lia.
  - intros [Hr Hc]. exists (Row p). split; [|apply elem_of_seqZ; lia].
    apply list_elem_of_bind. exists (Col p). split; [|apply elem_of_seqZ; lia].
    destruct p. simpl. apply list_elem_of_singleton. done.
Qed.

Lemma scanFrom_legal (b : Board) :
  wf b →
  ∀ ps moves, ∃ ms,
    scanFrom b ps moves = Some ms ∧
    ∀ p, p ∈ ms ↔ p ∈ moves ∨ (p ∈ ps ∧ legal b (Row p) (Col p)).
Proof.
  intros Hwf. induction ps as [|q ps IH]; intros moves; simpl.
  - exists moves. split; [done|]. intros p. rewrite elem_of_nil. tauto.
  - destruct (IsValidMove_decides b (Row q) (Col q) Hwf) as (v & Hv & Hiff).
    rewrite Hv. simpl.
    destruct (IH (if v then moves ++ [q] else moves)) as (ms & Hms & Hin).
    exists ms. split; [done|]. intros p. rewrite Hin, elem_of_cons.
    destruct v.
    + rewrite elem_of_app, list_elem_of_singleton. split.
      * intros [[Hp | ->] | [Hp Hl]]; [tauto | | tauto].
        right. split; [by left|]. by apply Hiff.
      * intros [Hp | [[-> | Hp] Hl]]; tauto.
    + split; [tauto|]. intros [Hp | [[-> | Hp] Hl]]; [tauto | | tauto].
      apply Hiff in Hl. done.
Qed.

(** [GetValidMoves] returns exactly the legal moves. *)
Lemma GetValidMoves_legal (b : Board) :
  wf b →
  ∃ ms, GetValidMoves b = Some ms ∧ ∀ p, p ∈ ms ↔ legal b (Row p) (Col p).
Proof.
  intros Hwf. unfold GetValidMoves. destruct Hwf as [Hgrid Hcur].
  pose proof Hgrid as [-> _].
  destruct (scanFrom_legal b (conj Hgrid Hcur) (rowMajor 8) []) as (ms & Hms & Hin).
  exists ms. split; [done|]. intros p. rewrite Hin, elem_of_nil, rowMajor_onBoard.
  unfold legal, holds. tauto.
Qed.

Lemma HasValidMove_legal (b : Board) :
  wf b →
  ∃ v, HasValidMove b = Some v ∧ (v = true ↔ ∃ row col, legal b row col).
Proof.
  intros Hwf. unfold HasValidMove.
  destruct (GetValidMoves_legal b Hwf) as (ms & -> & Hin). simpl.
  eexists. split; [done|]. rewrite bool_decide_eq_true. split.
  - intros Hlen. destruct ms as [|p ms]; [simpl in Hlen; lia|].
    exists (Row p), (Col p). apply Hin. left.
  - intros (row & col & Hl). specialize (Hin {| Row := row; Col := col |}).
    simpl in Hin. apply Hin in Hl. destruct ms; [by apply elem_of_nil in Hl|].
    simpl. lia.
Qed.

Lemma withPlayer_restore (b : Board) (p : Piece) :
  withPlayer (withPlayer b p) (CurrentPlayer b) = b.
Proof. by destruct b. Qed.

Lemma withPlayer_wf (b : Board) (p : Piece) : wf b → p ≠ Empty → wf (withPlayer b p).
Proof. intros [Hgrid _] Hp. split; done. Qed.

Lemma other_not_Empty (p : Piece) : p ≠ Empty → other p ≠ Empty.
Proof. by destruct p. Qed.

(** [IsGameOver] hands the board back as it received it, whatever it
    answers. *)
Lemma IsGameOver_restores (b b' : Board) (v : bool) :
  IsGameOver b = Some (v, b') → b' = b.
Proof.
  unfold IsGameOver. destruct (HasValidMove b) as [[|]|]; simpl; [congruence | | done].
  destruct (HasValidMove (withPlayer b (getOpponent b))); simpl; [|done].
  rewrite withPlayer_restore. congruence.
Qed.

Lemma IsGameOver_legal (b : Board) :
  wf b →
  ∃ v, IsGameOver b = Some (v, b) ∧
       (v = true ↔
        (∀ row col, ¬ legal b row col) ∧
        (∀ row col, ¬ legal (withPlayer b (other (CurrentPlayer b))) row col)).
Proof.
  intros Hwf. pose proof Hwf as [Hgrid Hcur]. unfold IsGameOver.
  destruct (HasValidMove_legal b Hwf) as (v1 & -> & H1). simpl.
  destruct v1.
  - exists false. split; [done|]. split; [done|]. intros [Hno _].
    destruct H1 as [H1 _]. destruct H1 as (row & col & Hl); [done|]. by apply Hno in Hl.
  - rewrite (getOpponent_other b Hcur).
    destruct (HasValidMove_legal (withPlayer b (other (CurrentPlayer b)))) as (v2 & -> & H2).
    { apply withPlayer_wf; [done|]. by apply other_not_Empty. }
    simpl. rewrite withPlayer_restore. exists (negb v2). split; [done|].
    rewrite negb_true_iff. split.
    + intros ->. split; intros row col Hl.
      * assert (false = true); [|done]. apply H1. eauto.
      * assert (false = true); [|done]. apply H2. eauto.
    + intros [_ Hno]. destruct v2; [|done]. destruct H2 as [H2 _].
      destruct H2 as (row & col & Hl); [done|]. by apply Hno in Hl.
Qed.

(** ** Counting pieces *)

Lemma countLine_cons (p q : Piece) (line : list Piece) :
  countLine p (q :: line) = ind (q = p) + countLine p line.
Proof.
  unfold countLine, ind. rewrite filter_cons.
  destruct (decide (q = p)); simpl; lia.
Qed.

Lemma countLine_insert (p q old : Piece) (line : list Piece) (j : nat) :
  line !! j = Some old →
  countLine p (<[j := q]> line) = countLine p line - ind (old = p) + ind (q = p).
Proof.
  revert j. induction line as [|x line IH]; intros [|j] Hj; simplify_eq/=.
  - rewrite !countLine_cons. lia.
  - rewrite !countLine_cons, (IH j Hj). lia.
Qed.

Lemma countPiece_insert (p : Piece) (cs : list (list Piece)) (i : nat) (line line' : list Piece) :
  cs !! i = Some line →
  countPiece p (<[i := line']> cs) = countPiece p cs - countLine p line + countLine p line'.
Proof.
  revert i. induction cs as [|x cs IH]; intros [|i] Hi; simplify_eq/=.
  - lia.
  - rewrite (IH i Hi). lia.
Qed.

Lemma countLine_bounds (line : list Piece) :
  0 <= countLine Black line ∧ 0 <= countLine White line ∧
  countLine Black line + countLine White line <= Z.of_nat (length line).
Proof.
  induction line as [|x line IH]; [unfold countLine; simpl; lia|].
  rewrite !countLine_cons. unfold ind. simpl length.
  destruct x; repeat case_decide; simplify_eq; lia.
Qed.

Lemma countPiece_bounds (cs : list (list Piece)) (n : nat) :
  Forall (λ line, length line = n) cs →
  0 <= countPiece Black cs ∧ 0 <= countPiece White cs ∧
  countPiece Black cs + countPiece White cs <= Z.of_nat (length cs) * Z.of_nat n.
Proof.
  induction 1 as [|line cs Hline _ IH]; simpl; [lia|].
  pose proof (countLine_bounds line). lia.
Qed.

Lemma countPiece_wf (b : Board) :
  wfGrid b →
  0 <= countPiece Black (Cells b) ∧ 0 <= countPiece White (Cells b) ∧
  countPiece Black (Cells b) + countPiece White (Cells b) <= 64.
Proof.
  intros (_ & Hlen & Hrows). pose proof (countPiece_bounds _ _ Hrows). lia.
Qed.

(** ** Writing a cell *)

Lemma sameFrame_refl (b : Board) : sameFrame b b.
Proof. by repeat split. Qed.

Lemma sameFrame_trans (b1 b2 b3 : Board) :
  sameFrame b1 b2 → sameFrame b2 b3 → sameFrame b1 b3.
Proof. unfold sameFrame. intros (? & ? & ? & ?) (? & ? & ? & ?). repeat split; congruence. Qed.

Lemma setCell_effect (b b' : Board) (row col : Z) (q : Piece) :
  wfGrid b → setCell b row col q = Some b' →
  ∃ old, cell b row col = Some old ∧ wfGrid b' ∧ sameFrame b b' ∧
    (∀ p, countPiece p (Cells b') =
          countPiece p (Cells b) - ind (old = p) + ind (q = p)) ∧
    (∀ r c, (r, c) ≠ (row, col) → cell b' r c = cell b r c).
Proof.
  intros (HS & Hlen & Hrows) Hset. unfold setCell in Hset.
  destruct (index (Cells b) row) as [line|] eqn:Hline; [|done]. simpl in Hset.
  destruct (index line col) as [old|] eqn:Hold; [|done]. simpl in Hset.
  injection Hset as <-.
  apply index_inv in Hline as [Hrow Hline]. apply index_inv in Hold as [Hcol Hold].
  exists old. split; [|split; [|split; [|split]]].
  - unfold cell, index. destruct (Z.ltb_spec row 0); [lia|]. rewrite Hline. simpl.
    destruct (Z.ltb_spec col 0); [lia|]. done.
  - split; [done|]. simpl. rewrite length_insert. split; [done|].
    apply Forall_insert; [done|]. rewrite length_insert.
    rewrite Forall_lookup in Hrows. by apply (Hrows _ _ Hline).
  - by repeat split.
  - intros p. simpl. rewrite (countPiece_insert _ _ _ _ _ Hline).
    rewrite (countLine_insert _ _ _ _ _ Hold). lia.
  - intros r c Hne. unfold cell, index. simpl.
    destruct (Z.ltb_spec r 0); [done|].
    destruct (decide (Z.to_nat row = Z.to_nat r)) as [Heq | Hneq].
    + assert (r = row) as -> by lia.
      rewrite list_lookup_insert_eq; [|by eapply lookup_lt_Some].
      rewrite Hline. simpl. destruct (Z.ltb_spec c 0); [done|].
      rewrite list_lookup_insert_ne; [done|]. intros Hc. apply Hne. f_equal. lia.
    + by rewrite list_lookup_insert_ne.
Qed.

(** ** Flipping *)

Lemma ray_inj (row col : Z) (dir : Direction) (i j : Z) :
  dir ∈ Directions → ray row col dir i = ray row col dir j → i = j.
Proof.
  intros Hdir Heq. unfold Directions in Hdir. unfold ray in Heq.
  repeat (apply elem_of_cons in Hdir as [-> | Hdir];
          [simpl in Heq; injection Heq; intros; lia|]).
  by apply elem_of_nil in Hdir.
Qed.

Lemma seqZ_snoc (k : Z) : 0 <= k → seqZ 1 (k + 1) = seqZ 1 k ++ [k + 1].
Proof.
  intros Hk. rewrite seqZ_app by lia. f_equal.
  rewrite seqZ_cons by lia. rewrite seqZ_nil by lia. f_equal. lia.
Qed.

(** The inner loop of [flipPieces] collects the cells of the ray in order;
    each holds an opponent piece. *)
Lemma scanFlip_ray (b : Board) (row col : Z) (dir : Direction) :
  wf b →
  ∀ fuel k r c found result,
    0 <= k → r = row + (k + 1) * DRow dir → c = col + (k + 1) * DCol dir →
    (∀ i, 1 <= i <= k →
       holds b (row + i * DRow dir) (col + i * DCol dir) (other (CurrentPlayer b))) →
    scanFlip fuel b dir r c (ray row col dir <$> seqZ 1 k) = Some (found, result) →
    ∃ k', k <= k' ∧ result = ray row col dir <$> seqZ 1 k' ∧
      ∀ i, 1 <= i <= k' →
        holds b (row + i * DRow dir) (col + i * DCol dir) (other (CurrentPlayer b)).
Proof.
  intros [Hgrid Hcur]. induction fuel as [|fuel IH];
    intros k r c found result Hk Hr Hc Hheld Hscan; [done|].
  simpl in Hscan. destruct (IsValidPosition b r c) eqn:Hpos.
  - destruct (cell b r c) as [p|] eqn:Hp; [|done]. simpl in Hscan.
    destruct (decide (p = Empty)); [exists k; simplify_eq; split; [lia | done]|].
    destruct (decide (p = CurrentPlayer b)); [exists k; simplify_eq; split; [lia | done]|].
    apply IsValidPosition_onBoard in Hpos; [|apply Hgrid].
    assert (Hlist : (ray row col dir <$> seqZ 1 k) ++ [ {| Row := r; Col := c |} ]
                    = ray row col dir <$> seqZ 1 (k + 1)).
    { rewrite seqZ_snoc by done. rewrite fmap_app. simpl. unfold ray at 3.
      by rewrite <- Hr, <- Hc. }
    rewrite Hlist in Hscan.
    destruct (IH (k + 1) (r + DRow dir) (c + DCol dir) found result)
      as (k' & Hk' & Hres & Hall); [lia | lia | lia | | done |].
    + intros i Hi. destruct (decide (i = k + 1)) as [-> | Hne]; [|apply Hheld; lia].
      rewrite <- Hr, <- Hc. split; [done|]. rewrite Hp. f_equal. by apply neither_is_other.
    + exists k'. split; [lia | done].
  - exists k. simplify_eq. split; [lia | done].
Qed.

Lemma ind_other (cur : Piece) :
  cur ≠ Empty →
  ind (other cur = cur) = 0 ∧ ind (cur = other cur) = 0 ∧
  ind (cur = cur) = 1 ∧ ind (other cur = other cur) = 1 ∧
  ind (Empty = cur) = 0 ∧ ind (Empty = other cur) = 0.
Proof. unfold ind. destruct cur; intros; repeat case_decide; done. Qed.

Lemma setCell_Some (b : Board) (row col : Z) (old q : Piece) :
  cell b row col = Some old → ∃ b', setCell b row col q = Some b'.
Proof.
  unfold cell, setCell. intros Hc.
  destruct (index (Cells b) row) as [line|]; [|done]. simpl in *. rewrite Hc. simpl. eauto.
Qed.

(** Recolouring distinct cells that hold opponent pieces succeeds and moves
    one piece per cell from the opponent to the side to move. *)
Lemma flipAll_counts (toFlip : list Position) :
  ∀ b n,
    wf b → NoDup toFlip →
    (∀ pos, pos ∈ toFlip → holds b (Row pos) (Col pos) (other (CurrentPlayer b))) →
    ∃ b', flipAll b toFlip n = Some (b', n + Z.of_nat (length toFlip)) ∧
          wf b' ∧ sameFrame b b' ∧ gained b b' (Z.of_nat (length toFlip)).
Proof.
  induction toFlip as [|pos rest IH]; intros b n Hwf Hnd Hheld.
  { exists b. simpl. rewrite Z.add_0_r. split; [done|]. split; [done|].
    split; [apply sameFrame_refl|]. unfold gained. lia. }
  simpl. destruct Hwf as [Hgrid Hcur].
  destruct (Hheld pos) as [_ Hopp]; [left|].
  destruct (setCell_Some b (Row pos) (Col pos) _ (CurrentPlayer b) Hopp) as [b1 Hset].
  rewrite Hset. simpl.
  destruct (setCell_effect _ _ _ _ _ Hgrid Hset) as (old & Hold & Hgrid1 & Hframe & Hcount & Hrest).
  assert (old = other (CurrentPlayer b)) as -> by congruence.
  pose proof Hframe as (_ & Hcur1 & _).
  apply NoDup_cons in Hnd as [Hnotin Hnd].
  destruct (IH b1 (n + 1)) as (b' & Hflip & Hwf' & Hframe' & Hgain); [split; congruence | done | |].
  - intros pos' Hin. rewrite Hcur1. destruct (Hheld pos') as [Hon Hc]; [by right|].
    split; [done|]. rewrite Hrest; [done|]. intros Heq. apply Hnotin.
    destruct pos, pos'. simpl in Heq. by simplify_eq.
  - exists b'. split.
    { rewrite Hflip. do 2 f_equal. simpl length. lia. }
    split; [done|]. split; [by eapply sameFrame_trans|].
    destruct Hgain as [Hg1 Hg2]. rewrite Hcur1 in Hg1, Hg2.
    destruct (ind_other _ Hcur) as (I1 & I2 & I3 & I4 & _).
    unfold gained. rewrite Hg1, Hg2, !Hcount, I1, I2, I3, I4. simpl length. lia.
Qed.

(** The inner loop of [flipPieces] returns within [scanFuel] iterations. *)
Lemma scanFlip_total (b : Board) (dir : Direction) :
  wfGrid b → dir ∈ Directions →
  ∀ fuel r c toFlip,
    1 <= Z.of_nat fuel → (onBoard r c → ahead dir r c < Z.of_nat fuel) →
    ∃ found result, scanFlip fuel b dir r c toFlip = Some (found, result).
Proof.
  intros Hgrid Hdir. induction fuel as [|fuel IH]; intros r c toFlip H1 Hfuel; [lia|].
  simpl. destruct (IsValidPosition b r c) eqn:Hpos; [|eauto].
  apply IsValidPosition_onBoard in Hpos; [|apply Hgrid].
  destruct (cell_Some b r c Hgrid Hpos) as [p ->]. simpl.
  destruct (decide (p = Empty)); [eauto|].
  destruct (decide (p = CurrentPlayer b)); [eauto|].
  destruct (ahead_step dir r c Hdir Hpos) as [Hrange Hnext]. specialize (Hfuel Hpos).
  apply IH; lia.
Qed.

(** The loop over the directions returns, having recoloured
    [flipped' - flipped] opponent pieces. *)
Lemma flipDirs_counts (row col : Z) (dirs : list Direction) :
  dirs ⊆ Directions →
  ∀ b flipped,
    wf b →
    ∃ b' flipped', flipDirs b row col dirs flipped = Some (b', flipped') ∧
      wf b' ∧ sameFrame b b' ∧ flipped <= flipped' ∧ gained b b' (flipped' - flipped).
Proof.
  induction dirs as [|dir rest IH]; intros Hsub b flipped Hwf.
  { exists b, flipped. split; [done|]. split; [done|]. split; [apply sameFrame_refl|].
    split; [lia|]. unfold gained. lia. }
  assert (Hdir : dir ∈ Directions) by (apply Hsub; left).
  assert (Hsub' : rest ⊆ Directions) by (intros d Hd; apply Hsub; by right).
  specialize (IH Hsub'). simpl.
  destruct (IsValidPosition b (row + DRow dir) (col + DCol dir)) eqn:Hpos;
    simpl; [|by apply IH].
  pose proof Hwf as [Hgrid Hcur].
  apply IsValidPosition_onBoard in Hpos; [|apply Hgrid].
  destruct (cell_Some b _ _ Hgrid Hpos) as [p Hp]. rewrite Hp. simpl.
  rewrite (getOpponent_other b Hcur).
  destruct (decide (p ≠ other (CurrentPlayer b))) as [Hne | Heq]; [by apply IH|].
  apply dec_stable in Heq. subst p.
  destruct (scanFlip_total b dir Hgrid Hdir (scanFuel b)
              (row + DRow dir + DRow dir) (col + DCol dir + DCol dir)
              [ {| Row := row + DRow dir; Col := col + DCol dir |} ])
    as (foundOwn & toFlip & Hscan).
  { rewrite scanFuel_wf; [lia | apply Hgrid]. }
  { intros Hon. pose proof (ahead_step dir _ _ Hdir Hon).
    rewrite scanFuel_wf; [lia | apply Hgrid]. }
  rewrite Hscan. simpl. destruct foundOwn; [|by apply IH].
  destruct (scanFlip_ray b row col dir Hwf (scanFuel b) 1
              (row + DRow dir + DRow dir) (col + DCol dir + DCol dir) true toFlip)
    as (k & Hk & -> & Hheld); [lia | lia | lia | | |].
  { intros i Hi. assert (i = 1) as -> by lia. rewrite !Z.mul_1_l. done. }
  { rewrite <- Hscan. f_equal. change (seqZ 1 1) with [1]. simpl. unfold ray.
    do 2 f_equal; lia. }
  destruct (flipAll_counts (ray row col dir <$> seqZ 1 k) b flipped Hwf)
    as (b1 & Hflip & Hwf1 & Hframe1 & Hgain1).
  { apply NoDup_fmap_2_strong; [|apply NoDup_seqZ].
    intros i j _ _ Heq. by apply (ray_inj row col dir). }
  { intros pos Hin. apply list_elem_of_fmap in Hin as (i & -> & Hi).
    apply elem_of_seqZ in Hi. simpl. apply Hheld. lia. }
  rewrite Hflip. simpl.
  destruct (IH b1 (flipped + Z.of_nat (length (ray row col dir <$> seqZ 1 k))) Hwf1)
    as (b' & flipped' & Hrun & Hwf' & Hframe' & Hle & Hgain').
  exists b', flipped'. split; [done|]. split; [done|].
  split; [by eapply sameFrame_trans|]. split; [lia|].
  destruct Hframe1 as (_ & Hcur1 & _). destruct Hgain1 as [G1 G2], Hgain' as [G3 G4].
  rewrite Hcur1 in G3, G4. unfold gained. rewrite G3, G4, G1, G2. lia.
Qed.

Lemma occupied_count (cs : list (list Piece)) :
  occupied cs = countPiece Black cs + countPiece White cs.
Proof.
  induction cs as [|line cs IH]; simpl; [done|]. rewrite IH.
  assert (Z.of_nat (length (filter (λ q, q ≠ Empty) line))
          = countLine Black line + countLine White line) as ->; [|lia].
  induction line as [|x line IHl]; [done|].
  rewrite !countLine_cons, filter_cons. unfold ind.
  destruct x; repeat case_decide; simplify_eq; simpl length; lia.
Qed.

(** [MakeMove] refuses an illegal move and leaves the board as it is. *)
Lemma MakeMove_illegal (b : Board) (row col : Z) :
  wf b → ¬ legal b row col → MakeMove b row col = Some (false, b).
Proof.
  intros Hwf Hno. unfold MakeMove.
  destruct (IsValidMove_decides b row col Hwf) as (v & -> & Hiff). simpl.
  destruct v; [|done]. destruct Hno. by apply Hiff.
Qed.

(** [MakeMove] accepts a legal move: the turn passes, and with [k] pieces
    flipped the mover has [k + 1] more pieces on the grid, the opponent [k]
    fewer, and the counters are moved by as much. *)
Lemma MakeMove_legal (b : Board) (row col : Z) :
  wf b → legal b row col →
  ∃ b', MakeMove b row col = Some (true, b') ∧
    wf b' ∧ CurrentPlayer b' = other (CurrentPlayer b) ∧
    ∃ k, 0 <= k ∧
      countPiece (CurrentPlayer b) (Cells b')
        = countPiece (CurrentPlayer b) (Cells b) + 1 + k ∧
      countPiece (other (CurrentPlayer b)) (Cells b')
        = countPiece (other (CurrentPlayer b)) (Cells b) - k ∧
      (BlackCnt b', WhiteCnt b') =
        if decide (CurrentPlayer b = Black)
        then (wrap (BlackCnt b + wrap (k + 1)), wrap (WhiteCnt b - k))
        else (wrap (BlackCnt b - k), wrap (WhiteCnt b + wrap (k + 1))).
Proof.
  intros Hwf Hlegal. pose proof Hwf as [Hgrid Hcur]. unfold MakeMove.
  rewrite (proj2 (IsValidMove_true b row col Hwf) Hlegal). simpl.
  destruct Hlegal as [[_ Hempty] _].
  destruct (setCell_Some b row col _ (CurrentPlayer b) Hempty) as [b1 Hset].
  rewrite Hset. simpl.
  destruct (setCell_effect _ _ _ _ _ Hgrid Hset)
    as (old & Hold & Hgrid1 & Hframe1 & Hcount1 & _).
  assert (old = Empty) as -> by congruence.
  pose proof Hframe1 as (_ & Hcur1 & HB1 & HW1).
  assert (Hwf1 : wf b1) by (split; congruence).
  destruct (flipDirs_counts row col Directions ltac:(done) b1 0 Hwf1)
    as (b3 & flipped & Hdirs & Hwf3 & Hframe3 & Hflipped & [G1 G2]).
  unfold flipPieces. rewrite Hdirs. simpl.
  destruct Hframe3 as (HS3 & Hcur3 & HB3 & HW3).
  rewrite Hcur1 in G1, G2. rewrite Z.sub_0_r in G1, G2.
  destruct (ind_other _ Hcur) as (_ & I2 & I3 & _ & I5 & I6).
  rewrite !Hcount1 in G1, G2. rewrite ?I2, ?I3, ?I5, ?I6 in G1, G2.
  rewrite Hcur3, Hcur1, HB3, HW3, HB1, HW1.
  destruct Hwf3 as [(HS & Hlen & Hrows) _].
  destruct (decide (CurrentPlayer b = Black)) as [Hblack | Hwhite]; simpl;
    eexists; (split; [reflexivity|]); simpl.
  - split; [split; [done|]|].
    { unfold getOpponent. simpl. rewrite Hcur3, Hcur1. by destruct (CurrentPlayer b). }
    split.
    { unfold getOpponent. simpl. rewrite Hcur3, Hcur1. by destruct (CurrentPlayer b). }
    exists flipped. split; [lia|]. split; [lia|]. split; [lia|]. done.
  - split; [split; [done|]|].
    { unfold getOpponent. simpl. rewrite Hcur3, Hcur1. by destruct (CurrentPlayer b). }
    split.
    { unfold getOpponent. simpl. rewrite Hcur3, Hcur1. by destruct (CurrentPlayer b). }
    exists flipped. split; [lia|]. split; [lia|]. split; [lia|]. done.
Qed.

(** [MakeMove] returns on every board of the data model, and leaves one. *)
Lemma MakeMove_total (b : Board) (row col : Z) :
  wf b → ∃ v b', MakeMove b row col = Some (v, b') ∧ wf b'.
Proof.
  intros Hwf. destruct (IsValidMove_decides b row col Hwf) as ([|] & Hv & Hiff).
  - destruct (MakeMove_legal b row col Hwf) as (b' & Hmove & Hwf' & _); [by apply Hiff|].
    eauto.
  - exists false, b. split; [|done]. apply MakeMove_illegal; [done|].
    intros Hl. by apply Hiff in Hl.
Qed.

(** What a successful [MakeMove] has done. *)
Lemma MakeMove_effect (b b' : Board) (row col : Z) :
  wf b → MakeMove b row col = Some (true, b') →
  legal b row col ∧ wf b' ∧ CurrentPlayer b' = other (CurrentPlayer b) ∧
  ∃ k, 0 <= k ∧
    countPiece (CurrentPlayer b) (Cells b')
      = countPiece (CurrentPlayer b) (Cells b) + 1 + k ∧
    countPiece (other (CurrentPlayer b)) (Cells b')
      = countPiece (other (CurrentPlayer b)) (Cells b) - k ∧
    (BlackCnt b', WhiteCnt b') =
      if decide (CurrentPlayer b = Black)
      then (wrap (BlackCnt b + wrap (k + 1)), wrap (WhiteCnt b - k))
      else (wrap (BlackCnt b - k), wrap (WhiteCnt b + wrap (k + 1))).
Proof.
  intros Hwf Hmove.
  destruct (IsValidMove_decides b row col Hwf) as (v & Hv & Hiff).
  assert (Hlegal : legal b row col).
  { apply Hiff. unfold MakeMove in Hmove. rewrite Hv in Hmove. simpl in Hmove.
    destruct v; [done|]. simpl in Hmove. congruence. }
  split; [done|].
  destruct (MakeMove_legal b row col Hwf Hlegal) as (b'' & Hmove' & Hrest).
  assert (b'' = b') as -> by congruence. done.
Qed.

(** ** The evaluator *)

Lemma weight_bound (i j : Z) : -100 <= weight i j <= 100.
Proof.
  assert (Hall : Forall (Forall (λ w, -100 <= w <= 100)) weights).
  { unfold weights. repeat constructor; lia. }
  unfold weight. destruct (weights !! Z.to_nat i) as [line|] eqn:Hline.
  - rewrite Forall_lookup in Hall. specialize (Hall _ _ Hline). simpl.
    destruct (line !! Z.to_nat j) as [w|] eqn:Hw.
    + rewrite Forall_lookup in Hall. apply (Hall _ _ Hw).
    + simpl. lia.
  - simpl. lia.
Qed.

Lemma GetPiece_wf (b : Board) (row col : Z) :
  wfGrid b → GetPiece b row col = Some (default Empty (cell b row col)).
Proof.
  intros Hgrid. unfold GetPiece.
  destruct (IsValidPosition b row col) eqn:Hpos; simpl.
  - apply IsValidPosition_onBoard in Hpos; [|apply Hgrid].
    by destruct (cell_Some b row col Hgrid Hpos) as [p ->].
  - apply IsValidPosition_off in Hpos; [|apply Hgrid].
    destruct (cell b row col) as [p|] eqn:Hp; [|done]. destruct Hpos.
    destruct Hgrid as (_ & Hlen & Hrows). unfold cell in Hp.
    destruct (index (Cells b) row) as [line|] eqn:Hline; [|done]. simpl in Hp.
    apply index_inv in Hline as [Hr Hline]. apply index_inv in Hp as [Hc Hp].
    rewrite Forall_lookup in Hrows. specialize (Hrows _ _ Hline). simpl in Hrows.
    apply lookup_lt_Some in Hline, Hp. unfold onBoard. lia.
Qed.

Lemma contribution_bound (scored piece : Piece) (w : Z) :
  -100 <= w <= 100 → -100 <= contribution scored piece w <= 100.
Proof. unfold contribution. intros. repeat case_decide; lia. Qed.

Lemma scoreOver_bound (scored : Piece) (b : Board) (ps : list Position) :
  - (100 * Z.of_nat (length ps)) <= scoreOver scored b ps <= 100 * Z.of_nat (length ps).
Proof.
  induction ps as [|pos ps IH]; simpl; [lia|].
  pose proof (contribution_bound scored (default Empty (cell b (Row pos) (Col pos)))
                _ (weight_bound (Row pos) (Col pos))).
  lia.
Qed.

(** The loop of [evaluatePosition] adds up the contributions; the running
    score stays far from the ends of the [int] range. *)
Lemma evalFrom_scoreOver (p : Player) (b : Board) :
  wfGrid b → PlayerPiece p ≠ Empty →
  ∀ ps score,
    - 2 ^ 62 <= score - 100 * Z.of_nat (length ps) →
    score + 100 * Z.of_nat (length ps) <= 2 ^ 62 →
    evalFrom p b ps score = Some (score + scoreOver (PlayerPiece p) b ps).
Proof.
  intros Hgrid Hp. induction ps as [|pos ps IH]; intros score Hlo Hhi; simpl.
  { f_equal. lia. }
  rewrite (GetPiece_wf b _ _ Hgrid). simpl.
  set (piece := default Empty (cell b (Row pos) (Col pos))).
  pose proof (weight_bound (Row pos) (Col pos)) as Hw.
  simpl length in Hlo, Hhi.
  unfold contribution.
  destruct (decide (piece = PlayerPiece p)) as [Heq | Hne].
  - rewrite wrap_small by (unfold min_int, max_int; lia). rewrite IH by lia.
    destruct (decide (piece = Empty)); [congruence|]. f_equal. lia.
  - destruct (decide (piece ≠ Empty)) as [Hocc | Hemp].
    + rewrite wrap_small by (unfold min_int, max_int; lia). rewrite IH by lia.
      destruct (decide (piece = Empty)); [done|]. f_equal. lia.
    + apply dec_stable in Hemp. rewrite IH by lia.
      destruct (decide (piece = Empty)); [|done]. f_equal; lia.
Qed.

Lemma rowMajor_length : length (rowMajor 8) = 64%nat.
Proof. reflexivity. Qed.

Lemma evaluatePosition_score (p : Player) (b : Board) :
  wfGrid b → PlayerPiece p ≠ Empty →
  evaluatePosition p b = Some (positionalScore (PlayerPiece p) b).
Proof.
  intros Hgrid Hp. unfold evaluatePosition, positionalScore.
  rewrite (evalFrom_scoreOver p b Hgrid Hp); [done | |]; rewrite rowMajor_length; lia.
Qed.

Lemma contribution_opposite (piece : Piece) (w : Z) :
  contribution Black piece w = - contribution White piece w.
Proof. unfold contribution. destruct piece; repeat case_decide; simplify_eq; lia. Qed.

Lemma scoreOver_opposite (b : Board) (ps : list Position) :
  scoreOver Black b ps = - scoreOver White b ps.
Proof.
  induction ps as [|pos ps IH]; simpl; [done|]. rewrite IH, contribution_opposite. lia.
Qed.

(** The evaluation does not look at the side to move. *)
Lemma evaluatePosition_withPlayer (p : Player) (b : Board) (q : Piece) :
  evaluatePosition p (withPlayer b q) = evaluatePosition p b.
Proof.
  unfold evaluatePosition. generalize 0. generalize (rowMajor 8).
  induction l as [|pos ps IH]; intros score; simpl; [done|].
  change (GetPiece (withPlayer b q) (Row pos) (Col pos)) with (GetPiece b (Row pos) (Col pos)).
  destruct (GetPiece b (Row pos) (Col pos)); simpl; [|done]. apply IH.
Qed.

(** ** The search returns *)

Lemma mapM_index {A} (l : list A) (n : Z) :
  n = Z.of_nat (length l) → mapM (index l) (seqZ 0 n) = Some l.
Proof.
  intros ->. apply mapM_Some_2, Forall2_same_length_lookup_2.
  - rewrite length_seqZ. lia.
  - intros i j x Hj Hx. apply lookup_seqZ in Hj as [-> _].
    unfold index. destruct (Z.ltb_spec (0 + Z.of_nat i) 0); [lia|].
    by replace (Z.to_nat (0 + Z.of_nat i)) with i by lia.
Qed.

(** On an 8 x 8 grid [Clone] is a copy equal to the board. *)
Lemma Clone_wf (b : Board) : wfGrid b → Clone b = Some b.
Proof.
  intros (HS & Hlen & Hrows). unfold Clone. rewrite HS.
  destruct (Z.ltb_spec 8 0); [lia|].
  assert (mapM (λ i, mapM (λ j, cell b i j) (seqZ 0 8)) (seqZ 0 8) = Some (Cells b)) as ->.
  { apply mapM_Some_2, Forall2_same_length_lookup_2.
    - rewrite length_seqZ. lia.
    - intros i r line Hr Hline. apply lookup_seqZ in Hr as [-> _].
      assert (Hidx : index (Cells b) (0 + Z.of_nat i) = Some line).
      { unfold index. destruct (Z.ltb_spec (0 + Z.of_nat i) 0); [lia|].
        by replace (Z.to_nat (0 + Z.of_nat i)) with i by lia. }
      rewrite (mapM_ext _ (index line)); [|by intros j; unfold cell; rewrite Hidx].
      apply mapM_index. rewrite Forall_lookup in Hrows. by rewrite (Hrows _ _ Hline). }
  simpl. by destruct b.
Qed.

Lemma evalFrom_total (p : Player) (b : Board) (ps : list Position) (score : Z) :
  wfGrid b → ∃ s, evalFrom p b ps score = Some s.
Proof.
  intros Hgrid. revert score. induction ps as [|pos ps IH]; intros score; simpl; [eauto|].
  rewrite (GetPiece_wf b _ _ Hgrid). simpl. apply IH.
Qed.

Lemma maxLoop_total (child : Board → Z → Z → option Z) (board : Board) (beta : Z) :
  wf board → (∀ b a c, wf b → ∃ s, child b a c = Some s) →
  ∀ moves alpha maxScore, ∃ s, maxLoop child board moves alpha beta maxScore = Some s.
Proof.
  intros Hwf Hchild. induction moves as [|move rest IH]; intros alpha maxScore; simpl; [eauto|].
  rewrite (Clone_wf board (proj1 Hwf)). simpl.
  destruct (MakeMove_total board (Row move) (Col move) Hwf) as (v & b' & -> & Hwf'). simpl.
  destruct (Hchild b' alpha beta Hwf') as [score ->]. simpl.
  destruct (beta <=? Z.max alpha score); [eauto|]. apply IH.
Qed.

Lemma minLoop_total (child : Board → Z → Z → option Z) (board : Board) (alpha : Z) :
  wf board → (∀ b a c, wf b → ∃ s, child b a c = Some s) →
  ∀ moves beta minScore, ∃ s, minLoop child board moves alpha beta minScore = Some s.
Proof.
  intros Hwf Hchild. induction moves as [|move rest IH]; intros beta minScore; simpl; [eauto|].
  rewrite (Clone_wf board (proj1 Hwf)). simpl.
  destruct (MakeMove_total board (Row move) (Col move) Hwf) as (v & b' & -> & Hwf'). simpl.
  destruct (Hchild b' alpha beta Hwf') as [score ->]. simpl.
  destruct (Z.min beta score <=? alpha); [eauto|]. apply IH.
Qed.

(** [minimax] returns when it is given one more level of nesting than the
    depth asked for. *)
Lemma minimax_total (p : Player) :
  ∀ fuel board depth alpha beta maximizing,
    wf board → 0 <= depth < Z.of_nat fuel → depth <= max_int →
    ∃ s, minimax fuel p board depth alpha beta maximizing = Some s.
Proof.
  induction fuel as [|fuel IH]; intros board depth alpha beta maximizing Hwf Hdepth Hmax; [lia|].
  simpl. destruct (Z.eqb_spec depth 0) as [Hzero | Hdeep].
  { simpl. apply evalFrom_total, Hwf. }
  destruct (IsGameOver_legal board Hwf) as (over & -> & _). simpl.
  destruct over; [apply evalFrom_total, Hwf|].
  destruct (GetValidMoves_legal board Hwf) as (moves & -> & _). simpl.
  case_bool_decide; [apply evalFrom_total, Hwf|].
  assert (Hchild : ∀ m b a c, wf b →
            ∃ s, minimax fuel p b (wrap (depth - 1)) a c m = Some s).
  { intros m b a c Hb. apply IH; [done | |];
      rewrite wrap_small; unfold min_int, max_int in *; lia. }
  destruct maximizing.
  - apply maxLoop_total; [done|]. intros b a c. apply Hchild.
  - apply minLoop_total; [done|]. intros b a c. apply Hchild.
Qed.

Lemma bestOf_total (score : Board → option Z) (board : Board) :
  wf board → (∀ b, wf b → ∃ s, score b = Some s) →
  ∀ moves bestScore bestMove,
    ∃ best, bestOf score board moves bestScore bestMove = Some best.
Proof.
  intros Hwf Hscore. induction moves as [|move rest IH]; intros bestScore bestMove; simpl;
    [eauto|].
  rewrite (Clone_wf board (proj1 Hwf)). simpl.
  destruct (MakeMove_total board (Row move) (Col move) Hwf) as (v & b' & -> & Hwf'). simpl.
  destruct (Hscore b' Hwf') as [sc ->]. simpl.
  destruct (sc >? bestScore); apply IH.
Qed.

Lemma getMediumMove_total (p : Player) (board : Board) :
  wf board → ∃ row col, getMediumMove p board = Some (row, col, None).
Proof.
  intros Hwf. unfold getMediumMove.
  destruct (GetValidMoves_legal board Hwf) as (moves & -> & _). simpl.
  case_bool_decide; [by exists (-1), (-1)|].
  destruct (bestOf_total (evaluatePosition p) board Hwf) with (moves := moves)
    (bestScore := MinInt32) (bestMove := {| Row := 0; Col := 0 |}) as [best ->].
  { intros b Hb. apply evalFrom_total, Hb. }
  simpl. eauto.
Qed.

(** The five levels of nesting that [getHardMove] is modelled with are
    enough for its four plies. *)
Lemma getHardMove_total (p : Player) (board : Board) :
  wf board → ∃ row col, getHardMove p board = Some (row, col, None).
Proof.
  intros Hwf. unfold getHardMove.
  destruct (GetValidMoves_legal board Hwf) as (moves & -> & _).
  cbn -[minimax bestOf].
  case_bool_decide; [by exists (-1), (-1)|].
  destruct (bestOf_total (λ bc, minimax 5 p bc 4 MinInt32 MaxInt32 false) board Hwf)
    with (moves := moves) (bestScore := MinInt32) (bestMove := {| Row := 0; Col := 0 |})
    as [best ->].
  { intros b Hb. apply minimax_total; [done | lia | unfold max_int; lia]. }
  cbn -[minimax bestOf]. eauto.
Qed.

(** [getRandomMove] returns: no move on a board without legal moves, and
    otherwise the legal move at the index drawn. *)
Lemma getRandomMove_picks (Intn : Z → Z → Z) (p : Player) (now : Z) (board : Board) :
  (∀ now n, 0 < n → 0 <= Intn now n < n) → wf board →
  ∃ moves, GetValidMoves board = Some moves ∧
    (moves = [] → getRandomMove Intn p now board = Some (-1, -1, None)) ∧
    (moves ≠ [] →
     ∃ move, index moves (Intn now (Z.of_nat (length moves))) = Some move ∧
             move ∈ moves ∧ legal board (Row move) (Col move) ∧
             getRandomMove Intn p now board = Some (Row move, Col move, None)).
Proof.
  intros Hrange Hwf. unfold getRandomMove.
  destruct (GetValidMoves_legal board Hwf) as (moves & -> & Hin). simpl.
  exists moves. split; [done|]. split.
  - intros ->. done.
  - intros Hne. rewrite bool_decide_eq_false_2 by (by destruct moves).
    destruct (index_Some moves (Intn now (Z.of_nat (length moves)))) as [move Hmove].
    { apply Hrange. destruct moves; [done | simpl; lia]. }
    rewrite Hmove. simpl. exists move.
    assert (move ∈ moves).
    { apply index_inv in Hmove as [_ Hmove]. by eapply list_elem_of_lookup_2. }
    repeat split; [done | by apply Hin..].
Qed.

(** [GetMove] returns a move and no error at every difficulty. *)
Lemma GetMove_total (Intn : Z → Z → Z) (p : Player) (now : Z) (board : Board) :
  (∀ now n, 0 < n → 0 <= Intn now n < n) → wf board →
  ∃ row col, GetMove Intn p now board = Some (row, col, None).
Proof.
  intros Hrange Hwf.
  assert (Hrandom : ∃ row col, getRandomMove Intn p now board = Some (row, col, None)).
  { destruct (getRandomMove_picks Intn p now board Hrange Hwf) as (moves & _ & Hnil & Hcons).
    destruct moves as [|m ms]; [rewrite Hnil; eauto|].
    destruct Hcons as (move & _ & _ & _ & ->); [done | eauto]. }
  unfold GetMove. repeat case_decide;
    auto using getMediumMove_total, getHardMove_total.
Qed.

(** ** Scanning decimal digits *)

Lemma decimalFrom_nonneg (s : string) (acc : Z) :
  allDigits s = true → 0 <= acc → 0 <= decimalFrom acc s.
Proof.
  revert acc. induction s as [|a s IH]; intros acc Hd Hacc; simpl; [done|].
  simpl in Hd. apply andb_true_iff in Hd as [Ha Hs]. apply IH; [done|].
  unfold isDigit in Ha. apply andb_true_iff in Ha as [Ha _]. apply Z.leb_le in Ha. lia.
Qed.

Lemma leadingDigits_app (ds tail : string) (acc : option Z) :
  allDigits ds = true → startsWithDigit tail = false →
  leadingDigits acc (ds +:+ tail) =
    match ds with
    | EmptyString => acc
    | String _ _ => Some (decimalFrom (default 0 acc) ds)
    end.
Proof.
  revert acc. induction ds as [|a ds IH]; intros acc Hd Htail; simpl.
  - destruct tail as [|c tail]; [done|]. simpl in *. by rewrite Htail.
  - simpl in Hd. apply andb_true_iff in Hd as [Ha Hs]. rewrite Ha.
    rewrite (IH _ Hs Htail). by destruct ds.
Qed.

(** [scanDecimal] meets what [ParseMove] uses of [Sscanf]. *)
Lemma scanDecimal_digits : scansLeadingDigits scanDecimal.
Proof.
  intros ds tail Hne Hd Htail _ Hmax. destruct ds as [|a ds]; [done|].
  pose proof (decimalFrom_nonneg _ 0 Hd ltac:(lia)) as Hpos.
  fold (decimalValue (String a ds)) in Hpos.
  pose proof (leadingDigits_app (String a ds) tail None Hd Htail) as Hlead.
  simpl in Hd. apply andb_true_iff in Hd as [Ha Hs].
  pose proof Ha as Hrange. unfold isDigit in Hrange.
  apply andb_true_iff in Hrange as [Hlo Hhi]. apply Z.leb_le in Hlo, Hhi.
  change (String a ds +:+ tail) with (String a (ds +:+ tail)) in *.
  unfold scanDecimal. cbn [skipBlanks].
  assert (isBlank a = false) as ->.
  { unfold isBlank. rewrite !orb_false_iff, !Z.eqb_neq. lia. }
  destruct (Z.eqb_spec (byte a) 45); [lia|]. destruct (Z.eqb_spec (byte a) 43); [lia|].
  rewrite Hlead. cbn [mbind option_bind].
  change (decimalFrom (default 0 None) (String a ds)) with (decimalValue (String a ds)).
  destruct (Z.leb_spec min_int (decimalValue (String a ds))); [|unfold min_int in *; lia].
  destruct (Z.leb_spec (decimalValue (String a ds)) max_int); [done | lia].
Qed.

Lemma append_empty (s : string) : s +:+ EmptyString = s.
Proof.
  induction s as [|a s IH]; [done|].
  change (String a s +:+ EmptyString) with (String a (s +:+ EmptyString)). by rewrite IH.
Qed.

(** [ParseMove] on an input of two characters or more that is not a pass
    token: the first character decides the column, the scan of the rest the
    row. *)
Lemma ParseMove_column (Sscanf_d : string → option Z) (first : ascii) (rest : string) :
  rest ≠ EmptyString → ¬ isPassToken (String first rest) →
  (isColumnLetter first = false →
   ParseMove Sscanf_d (String first rest) = (-1, -1, Some "invalid column")) ∧
  (isColumnLetter first = true →
   ∀ row, row = wrap (default (-1) (Sscanf_d rest) - 1) →
     (¬ 0 <= row < 8 →
      ParseMove Sscanf_d (String first rest) = (-1, -1, Some "position out of bounds")) ∧
     (0 <= row < 8 →
      ParseMove Sscanf_d (String first rest) = (row, columnOf first, None))).
Proof.
  intros Hrest Hnot. unfold ParseMove.
  destruct (Z.ltb_spec (Z.of_nat (String.length (String first rest))) 2) as [Hlen|_].
  { destruct rest; [done | simpl in Hlen; lia]. }
  assert (bool_decide (String first rest = "pass")
          || bool_decide (String first rest = "Pass")
          || bool_decide (String first rest = "PASS") = false) as ->.
  { rewrite !orb_false_iff, !bool_decide_eq_false. unfold isPassToken in Hnot. tauto. }
  unfold isColumnLetter, columnOf.
  destruct ((97 <=? byte first) && (byte first <=? 104)) eqn:Hlower.
  - split; [done|]. intros _ row0 ->.
    apply andb_true_iff in Hlower as [Hlo Hhi]. apply Z.leb_le in Hlo, Hhi.
    set (row := wrap (default (-1) (Sscanf_d rest) - 1)). rewrite !Z.geb_leb.
    destruct (Z.ltb_spec row 0), (Z.leb_spec 8 row),
      (Z.ltb_spec (byte first - 97) 0), (Z.leb_spec 8 (byte first - 97));
      simpl; split; intros; (done || lia).
  - destruct ((65 <=? byte first) && (byte first <=? 72)) eqn:Hupper.
    + split; [done|]. intros _ row0 ->.
      apply andb_true_iff in Hupper as [Hlo Hhi]. apply Z.leb_le in Hlo, Hhi.
      set (row := wrap (default (-1) (Sscanf_d rest) - 1)). rewrite !Z.geb_leb.
      destruct (Z.ltb_spec row 0), (Z.leb_spec 8 row),
        (Z.ltb_spec (byte first - 65) 0), (Z.leb_spec 8 (byte first - 65));
        simpl; split; intros; (done || lia).
    + split; [done|]. done.
Qed.

Lemma column_letter_not_pass (first : ascii) (rest : string) :
  isColumnLetter first = true → ¬ isPassToken (String first rest).
Proof. intros Hcol [Heq | [Heq | Heq]]; injection Heq as -> _; done. Qed.

(** ** The session *)

Lemma updateGameState_effect (g g' : Game) :
  updateGameState g = Some g' →
  GameBoard g' = GameBoard g ∧ History g' = History g ∧ PassCount g' = PassCount g ∧
  (2 <= PassCount g → GameOver g' = true ∧ Winner g' = GetWinner (GameBoard g)).
Proof.
  unfold updateGameState. intros Hup.
  destruct (IsGameOver (GameBoard g)) as [[over b]|] eqn:Hover; [|done]. simpl in Hup.
  apply IsGameOver_restores in Hover as ->.
  destruct (over || (PassCount g >=? 2)) eqn:Hor; simplify_eq; simpl.
  - repeat split; done.
  - split; [done|]. split; [done|]. split; [done|]. intros Hge.
    apply orb_false_iff in Hor as [_ Hlt].
    rewrite Z.geb_leb in Hlt. apply Z.leb_gt in Hlt. lia.
Qed.


(** Once a side has passed, the other side cannot pass as well: either it
    has a move, or the first pass has ended the game. *)
Lemma Game_Pass_twice_rejected (g g1 : Game) :
  wf (GameBoard g) → Game_Pass g = Some (None, g1) →
  ∃ msg, Game_Pass g1 = Some (Some msg, g1).
Proof.
  intros Hwf Hpass. pose proof Hwf as [Hgrid Hcur].
  unfold Game_Pass in Hpass.
  destruct (GameOver g); [done|].
  destruct (HasValidMove_legal _ Hwf) as (v & Hv & Hlegal). rewrite Hv in Hpass.
  destruct v; simpl in Hpass; [done|].
  destruct (updateGameState _) as [g2|] eqn:Hup; [|done]. simpl in Hpass. simplify_eq.
  unfold updateGameState in Hup. simpl in Hup.
  rewrite (getOpponent_other _ Hcur) in Hup.
  set (b1 := withPlayer (GameBoard g) (other (CurrentPlayer (GameBoard g)))) in *.
  assert (Hwf1 : wf b1) by (apply withPlayer_wf; [done | by apply other_not_Empty]).
  destruct (IsGameOver_legal b1 Hwf1) as (over & Hover & Hiff). rewrite Hover in Hup.
  simpl in Hup.
  destruct (over || _) eqn:Hor; simplify_eq; unfold Game_Pass; simpl; [eauto|].
  apply orb_false_iff in Hor as [-> _].
  destruct (HasValidMove_legal b1 Hwf1) as (v1 & Hv1 & Hlegal1). rewrite Hv1. simpl.
  destruct v1; [eauto|]. exfalso.
  assert (Hback : withPlayer b1 (other (CurrentPlayer b1)) = GameBoard g).
  { unfold b1. simpl. rewrite other_involutive. apply withPlayer_restore. }
  assert (false = true); [|done]. apply Hiff. rewrite Hback. split; intros row col Hl.
  - assert (false = true); [|done]. apply Hlegal1. eauto.
  - assert (false = true); [|done]. apply Hlegal. eauto.
Qed.

(** A successful [Game.MakeMove] records the side to move after the move. *)
Lemma Game_MakeMove_records (g g' : Game) (row col : Z) :
  wf (GameBoard g) → Game_MakeMove g row col = Some (None, g') →
  History g' = History g ++
    [ {| MovePosition := {| Row := row; Col := col |};
         MovePiece := other (CurrentPlayer (GameBoard g)) |} ].
Proof.
  intros Hwf Hmove. unfold Game_MakeMove in Hmove.
  destruct (GameOver g); [done|].
  destruct (MakeMove (GameBoard g) row col) as [[ok b]|] eqn:Hb; [|done]. simpl in Hmove.
  destruct ok; simpl in Hmove; [|done].
  destruct (updateGameState _) as [g2|] eqn:Hup; [|done]. simpl in Hmove. simplify_eq.
  apply updateGameState_effect in Hup as (_ & -> & _). simpl.
  apply MakeMove_effect in Hb as (_ & _ & -> & _); done.
Qed.

(** ** The properties of the specification *)

(** C1. On a board of the data model [IsValidMove] returns; it answers
    false when the coordinate is off the board or the cell is not Empty;
    on an empty cell of the board it answers true exactly when some one of
    the eight directions brackets: the adjacent cell and the cells after it
    hold a contiguous run of opponent pieces that ends in a piece of the
    side to move, with no empty cell and no board edge before that piece. *)
Theorem IsValidMove_brackets (b : Board) (row col : Z) :
  wf b →
  ∃ v, IsValidMove b row col = Some v ∧
    (¬ onBoard row col → v = false) ∧
    (cell b row col ≠ Some Empty → v = false) ∧
    (holds b row col Empty →
     (v = true ↔ ∃ dir, dir ∈ Directions ∧ brackets b row col dir)).
Proof.
  intros Hwf. destruct (IsValidMove_decides b row col Hwf) as (v & Hv & Hiff).
  exists v. split; [done|]. unfold legal, holds in Hiff. repeat split.
  - intros Hoff. destruct v; [|done]. destruct Hiff as [Hiff _]. destruct Hiff; tauto.
  - intros Hocc. destruct v; [|done]. destruct Hiff as [Hiff _]. destruct Hiff; tauto.
  - intros ->. by apply Hiff.
  - intros Hex. apply Hiff. unfold holds in *. tauto.
Qed.

Lemma IsValidMove_brackets_witness :
  wf NewBoard ∧
  ∃ v, IsValidMove NewBoard 2 3 = Some v ∧
    (¬ onBoard 2 3 → v = false) ∧
    (cell NewBoard 2 3 ≠ Some Empty → v = false) ∧
    (holds NewBoard 2 3 Empty →
     (v = true ↔ ∃ dir, dir ∈ Directions ∧ brackets NewBoard 2 3 dir)).
Proof.
  split; [exact NewBoard_wf|]. apply (IsValidMove_brackets NewBoard 2 3). exact NewBoard_wf.
Defined.

(** C2. On a board of the data model whose counters agree with the grid, a
    successful [MakeMove] raises [BlackCnt + WhiteCnt] by one and leaves the
    counters in agreement with the grid, so that their sum is the number of
    cells that are not Empty. *)
Theorem MakeMove_counts (b b' : Board) (row col : Z) :
  wf b → countsAgree b → MakeMove b row col = Some (true, b') →
  BlackCnt b' + WhiteCnt b' = BlackCnt b + WhiteCnt b + 1 ∧
  countsAgree b' ∧
  BlackCnt b' + WhiteCnt b' = occupied (Cells b').
Proof.
  intros Hwf [HB HW] Hmove.
  destruct (MakeMove_effect b b' row col Hwf Hmove)
    as (_ & [Hgrid' _] & _ & k & Hk & Hmine & Htheirs & Hcnt).
  pose proof (countPiece_wf b (proj1 Hwf)) as (HB0 & HW0 & Hsum).
  pose proof (countPiece_wf b' Hgrid') as (HB0' & HW0' & Hsum').
  destruct Hwf as [_ Hcur].
  assert (Hagree : countsAgree b').
  { unfold countsAgree. destruct (CurrentPlayer b) eqn:Hc; [done | |]; simpl in *.
    - destruct (decide (Black = Black)); [|done]. injection Hcnt as -> ->.
      rewrite HB, HW, (wrap_small (k + 1)), !wrap_small; unfold min_int, max_int; lia.
    - destruct (decide (White = Black)); [done|]. injection Hcnt as -> ->.
      rewrite HB, HW, (wrap_small (k + 1)), !wrap_small; unfold min_int, max_int; lia. }
  split; [|split; [done|]].
  - destruct Hagree as [-> ->]. rewrite HB, HW.
    destruct (CurrentPlayer b); [done | |]; simpl in *; lia.
  - destruct Hagree as [-> ->]. by rewrite occupied_count.
Qed.

Lemma MakeMove_counts_witness :
  ∃ b', wf NewBoard ∧ countsAgree NewBoard ∧ MakeMove NewBoard 2 3 = Some (true, b') ∧
    (BlackCnt b' + WhiteCnt b' = BlackCnt NewBoard + WhiteCnt NewBoard + 1 ∧
     countsAgree b' ∧
     BlackCnt b' + WhiteCnt b' = occupied (Cells b')).
Proof.
  eexists. split; [exact NewBoard_wf|]. split; [split; reflexivity|].
  split; [vm_compute; reflexivity|].
  apply (MakeMove_counts NewBoard _ 2 3);
    [exact NewBoard_wf | split; reflexivity | vm_compute; reflexivity].
Defined.

(** The property C3, on passes, rests on the invariant of the sessions
    that play leads to; it comes after [reachable_inv] below. *)

(** C4. What the code does at the opening: Black is to move and plays D3;
    the session records the move with [Piece] White, the side to move
    after the move, where the specification has the side that acted. *)
Theorem Game_MakeMove_opening_history :
  CurrentPlayer (GameBoard NewGame) = Black ∧
  ∃ g', Game_MakeMove NewGame 2 3 = Some (None, g') ∧
        History g' = [ {| MovePosition := {| Row := 2; Col := 3 |}; MovePiece := White |} ].
Proof. split; [reflexivity|]. eexists. split; vm_compute; reflexivity. Qed.

(** C5. At a node where the depth is exhausted, the board is terminal or
    the side to move has no legal move, [minimax] returns the static
    evaluation of the board for the player it was called on: the
    evaluation does not depend on the side to move at the node, and for a
    player of colour Black or White it is the positional score of that
    colour. *)
Theorem minimax_leaf (fuel : nat) (p : Player) (board : Board)
  (depth alpha beta : Z) (maximizing : bool) :
  wf board →
  depth = 0 ∨ IsGameOver board = Some (true, board) ∨ GetValidMoves board = Some [] →
  minimax (S fuel) p board depth alpha beta maximizing = evaluatePosition p board ∧
  (∀ q, evaluatePosition p (withPlayer board q) = evaluatePosition p board) ∧
  (PlayerPiece p ≠ Empty →
   evaluatePosition p board = Some (positionalScore (PlayerPiece p) board)).
Proof.
  intros Hwf Hleaf. split; [|split].
  - simpl. destruct (Z.eqb_spec depth 0) as [Hzero | Hdeep]; [done|].
    destruct (IsGameOver_legal board Hwf) as (over & Hover & _). rewrite Hover. simpl.
    destruct over; [done|].
    destruct Hleaf as [Hzero | [Hterm | Hnone]]; [done | congruence |].
    rewrite Hnone. done.
  - intros q. apply evaluatePosition_withPlayer.
  - intros Hp. apply evaluatePosition_score; [apply Hwf | done].
Qed.

Lemma minimax_leaf_witness :
  wf NewBoard ∧
  (0 = 0 ∨ IsGameOver NewBoard = Some (true, NewBoard) ∨ GetValidMoves NewBoard = Some []) ∧
  (minimax 1 (NewPlayer Hard White) NewBoard 0 MinInt32 MaxInt32 false
     = evaluatePosition (NewPlayer Hard White) NewBoard ∧
   (∀ q, evaluatePosition (NewPlayer Hard White) (withPlayer NewBoard q)
         = evaluatePosition (NewPlayer Hard White) NewBoard) ∧
   (PlayerPiece (NewPlayer Hard White) ≠ Empty →
    evaluatePosition (NewPlayer Hard White) NewBoard
      = Some (positionalScore (PlayerPiece (NewPlayer Hard White)) NewBoard))).
Proof.
  split; [exact NewBoard_wf|]. split; [left; reflexivity|].
  apply (minimax_leaf 0 (NewPlayer Hard White) NewBoard 0 MinInt32 MaxInt32 false);
    [exact NewBoard_wf | left; reflexivity].
Defined.

(** C6. On an 8 x 8 grid the evaluation for Black is the positional score
    of Black, the evaluation for White is the positional score of White,
    and the one is the negation of the other; in the positional score an
    occupied cell counts its weight for its owner and against the other
    colour, and an Empty cell counts 0. *)
Theorem evaluatePosition_antisymmetric (difficulty : string) (b : Board) :
  wfGrid b →
  evaluatePosition (NewPlayer difficulty Black) b = Some (positionalScore Black b) ∧
  evaluatePosition (NewPlayer difficulty White) b = Some (positionalScore White b) ∧
  positionalScore Black b = - positionalScore White b ∧
  (∀ scored w, contribution scored Empty w = 0) ∧
  (∀ scored w, scored ≠ Empty →
     contribution scored scored w = w ∧ contribution scored (other scored) w = - w).
Proof.
  intros Hgrid. split; [by apply (evaluatePosition_score (NewPlayer difficulty Black))|].
  split; [by apply (evaluatePosition_score (NewPlayer difficulty White))|].
  split; [apply scoreOver_opposite|]. split; [done|].
  intros scored w Hs. unfold contribution. destruct scored; [done | |];
    repeat case_decide; simplify_eq; done.
Qed.

Lemma evaluatePosition_antisymmetric_witness :
  wfGrid NewBoard ∧
  (evaluatePosition (NewPlayer Medium Black) NewBoard = Some (positionalScore Black NewBoard) ∧
   evaluatePosition (NewPlayer Medium White) NewBoard = Some (positionalScore White NewBoard) ∧
   positionalScore Black NewBoard = - positionalScore White NewBoard ∧
   (∀ scored w, contribution scored Empty w = 0) ∧
   (∀ scored w, scored ≠ Empty →
      contribution scored scored w = w ∧ contribution scored (other scored) w = - w)).
Proof.
  split; [exact (proj1 NewBoard_wf)|].
  apply (evaluatePosition_antisymmetric Medium NewBoard). exact (proj1 NewBoard_wf).
Defined.

(** C7, as the specification has it, fails: a pass token in mixed case is not
    accepted; its first letter is taken for a column and refused. *)
Lemma ParseMove_mixed_case_pass :
  isPassAnyCase "pAsS" ∧
  ParseMove scanDecimal "pAsS" = (-1, -1, Some "invalid column") ∧
  ParseMove scanDecimal "pAsS" ≠ (-1, -1, None).
Proof. repeat split; done. Qed.

(** C7, amended. [ParseMove] takes exactly "pass", "Pass" and "PASS" for the
    pass sentinel (-1, -1).  An input shorter than 2 characters fails with
    "invalid move format".  Any other input whose first character is not a
    column letter A-H or a-h, a pass token in another case among them,
    fails with "invalid column".  After a column letter, the row is the
    number scanned from the rest, less one, or -2 when none is scanned:
    outside 0..7 the input fails with "position out of bounds", inside it
    parses to that row and the column of the letter. *)
Theorem ParseMove_cases (Sscanf_d : string → option Z) (move : string) :
  (Z.of_nat (String.length move) < 2 →
   ParseMove Sscanf_d move = (-1, -1, Some "invalid move format")) ∧
  (isPassToken move → ParseMove Sscanf_d move = (-1, -1, None)) ∧
  (∀ first rest, move = String first rest → 2 <= Z.of_nat (String.length move) →
     ¬ isPassToken move →
     (isColumnLetter first = false →
      ParseMove Sscanf_d move = (-1, -1, Some "invalid column")) ∧
     (isColumnLetter first = true →
      ∀ row, row = wrap (default (-1) (Sscanf_d rest) - 1) →
        (¬ 0 <= row < 8 →
         ParseMove Sscanf_d move = (-1, -1, Some "position out of bounds")) ∧
        (0 <= row < 8 → ParseMove Sscanf_d move = (row, columnOf first, None)))).
Proof.
  split; [|split].
  - intros Hlen. unfold ParseMove.
    destruct (Z.ltb_spec (Z.of_nat (String.length move)) 2); [done | lia].
  - intros [-> | [-> | ->]]; reflexivity.
  - intros first rest -> Hlen Hnot. apply ParseMove_column; [|done].
    intros ->. simpl in Hlen. lia.
Qed.

Lemma ParseMove_cases_witness :
  (Z.of_nat (String.length "pAsS") < 2 →
   ParseMove scanDecimal "pAsS" = (-1, -1, Some "invalid move format")) ∧
  (isPassToken "pAsS" → ParseMove scanDecimal "pAsS" = (-1, -1, None)) ∧
  (∀ first rest, "pAsS" = String first rest → 2 <= Z.of_nat (String.length "pAsS") →
     ¬ isPassToken "pAsS" →
     (isColumnLetter first = false →
      ParseMove scanDecimal "pAsS" = (-1, -1, Some "invalid column")) ∧
     (isColumnLetter first = true →
      ∀ row, row = wrap (default (-1) (scanDecimal rest) - 1) →
        (¬ 0 <= row < 8 →
         ParseMove scanDecimal "pAsS" = (-1, -1, Some "position out of bounds")) ∧
        (0 <= row < 8 → ParseMove scanDecimal "pAsS" = (row, columnOf first, None)))).
Proof. exact (ParseMove_cases scanDecimal "pAsS"). Defined.

(** C8. [IsGameOver] hands back the board it was given on every return:
    the side to move, the grid and the counters are as before the call.
    On a board of the data model it returns, and answers true exactly when
    neither the side to move nor the opponent has a legal move. *)
Theorem IsGameOver_frame (b : Board) :
  (∀ v b', IsGameOver b = Some (v, b') →
     b' = b ∧ CurrentPlayer b' = CurrentPlayer b ∧ Cells b' = Cells b ∧
     BlackCnt b' = BlackCnt b ∧ WhiteCnt b' = WhiteCnt b) ∧
  (wf b →
   ∃ v, IsGameOver b = Some (v, b) ∧
     (v = true ↔
      (∀ row col, ¬ legal b row col) ∧
      (∀ row col, ¬ legal (withPlayer b (other (CurrentPlayer b))) row col))).
Proof.
  split.
  - intros v b' Hover. apply IsGameOver_restores in Hover as ->. done.
  - apply IsGameOver_legal.
Qed.

Lemma IsGameOver_frame_witness :
  wf NewBoard ∧
  (∀ v b', IsGameOver NewBoard = Some (v, b') →
     b' = NewBoard ∧ CurrentPlayer b' = CurrentPlayer NewBoard ∧ Cells b' = Cells NewBoard ∧
     BlackCnt b' = BlackCnt NewBoard ∧ WhiteCnt b' = WhiteCnt NewBoard) ∧
  ∃ v, IsGameOver NewBoard = Some (v, NewBoard) ∧
    (v = true ↔
     (∀ row col, ¬ legal NewBoard row col) ∧
     (∀ row col, ¬ legal (withPlayer NewBoard (other (CurrentPlayer NewBoard))) row col)).
Proof.
  split; [exact NewBoard_wf|]. split.
  - exact (proj1 (IsGameOver_frame NewBoard)).
  - exact (proj2 (IsGameOver_frame NewBoard) NewBoard_wf).
Defined.

(** C9. For a difficulty that is none of "easy", "medium" and "hard",
    [GetMove] is [GetMove] of the Easy tier; on a board of the data model
    it returns without error, (-1, -1) when the board has no valid move and
    otherwise the valid move at the index that [rand.Intn] draws. *)
Theorem GetMove_default (Intn : Z → Z → Z) (p : Player) (now : Z) (board : Board) :
  (∀ now n, 0 < n → 0 <= Intn now n < n) →
  wf board →
  Difficulty p ≠ Easy → Difficulty p ≠ Medium → Difficulty p ≠ Hard →
  GetMove Intn p now board = GetMove Intn (NewPlayer Easy (PlayerPiece p)) now board ∧
  ∃ moves, GetValidMoves board = Some moves ∧
    (moves = [] → GetMove Intn p now board = Some (-1, -1, None)) ∧
    (moves ≠ [] →
     ∃ move, index moves (Intn now (Z.of_nat (length moves))) = Some move ∧
             move ∈ moves ∧ legal board (Row move) (Col move) ∧
             GetMove Intn p now board = Some (Row move, Col move, None)).
Proof.
  intros Hrange Hwf He Hm Hh.
  assert (Hget : ∀ q, Difficulty q ≠ Medium → Difficulty q ≠ Hard →
            GetMove Intn q now board = getRandomMove Intn p now board).
  { intros q Hqm Hqh. unfold GetMove. repeat case_decide; done. }
  split; [by rewrite !Hget|]. rewrite Hget by done.
  by apply getRandomMove_picks.
Qed.

Lemma GetMove_default_witness :
  (∀ now n, 0 < n → 0 <= clockIntn now n < n) ∧
  wf NewBoard ∧ Difficulty (NewPlayer "expert" White) ≠ Easy ∧
  Difficulty (NewPlayer "expert" White) ≠ Medium ∧
  Difficulty (NewPlayer "expert" White) ≠ Hard ∧
  (GetMove clockIntn (NewPlayer "expert" White) 7 NewBoard
     = GetMove clockIntn (NewPlayer Easy (PlayerPiece (NewPlayer "expert" White))) 7 NewBoard ∧
   ∃ moves, GetValidMoves NewBoard = Some moves ∧
     (moves = [] →
      GetMove clockIntn (NewPlayer "expert" White) 7 NewBoard = Some (-1, -1, None)) ∧
     (moves ≠ [] →
      ∃ move, index moves (clockIntn 7 (Z.of_nat (length moves))) = Some move ∧
              move ∈ moves ∧ legal NewBoard (Row move) (Col move) ∧
              GetMove clockIntn (NewPlayer "expert" White) 7 NewBoard
                = Some (Row move, Col move, None))).
Proof.
  assert (Hrange : ∀ now n, 0 < n → 0 <= clockIntn now n < n).
  { intros now n Hn. unfold clockIntn. apply Z.mod_pos_bound. lia. }
  split; [exact Hrange|]. split; [exact NewBoard_wf|].
  split; [done|]. split; [done|]. split; [done|].
  apply (GetMove_default clockIntn (NewPlayer "expert" White) 7 NewBoard Hrange NewBoard_wf);
    done.
Defined.

(** C10. With [Sscanf] scanning a leading run of digits as the library
    does: an input made of a column letter, digits that denote a row in
    1..8 and anything that does not begin with a digit parses to that row
    and column, the same as without the trailing characters; and an input
    of a column letter and a rest from which no integer is scanned fails
    with "position out of bounds". *)
Theorem ParseMove_leading_digits (Sscanf_d : string → option Z)
  (first : ascii) (ds tail rest : string) :
  scansLeadingDigits Sscanf_d →
  isColumnLetter first = true →
  (ds ≠ EmptyString → allDigits ds = true → startsWithDigit tail = false →
   Z.of_nat (String.length ds) < 2 ^ 30 → 1 <= decimalValue ds <= 8 →
   ParseMove Sscanf_d (String first (ds +:+ tail))
     = (decimalValue ds - 1, columnOf first, None) ∧
   ParseMove Sscanf_d (String first (ds +:+ tail)) = ParseMove Sscanf_d (String first ds)) ∧
  (rest ≠ EmptyString → Sscanf_d rest = None →
   ParseMove Sscanf_d (String first rest) = (-1, -1, Some "position out of bounds")).
Proof.
  intros Hscan Hcol.
  assert (Hread : ∀ tl, ds ≠ EmptyString → allDigits ds = true →
            startsWithDigit tl = false → Z.of_nat (String.length ds) < 2 ^ 30 →
            1 <= decimalValue ds <= 8 →
            ParseMove Sscanf_d (String first (ds +:+ tl))
              = (decimalValue ds - 1, columnOf first, None)).
  { intros tl Hne Hd Htl Hlen Hval.
    destruct (ParseMove_column Sscanf_d first (ds +:+ tl)) as [_ Hrow];
      [by destruct ds | by apply column_letter_not_pass |].
    apply (Hrow Hcol); [|lia].
    rewrite (Hscan ds tl Hne Hd Htl Hlen) by (unfold max_int; lia). simpl.
    rewrite wrap_small; [done | unfold min_int, max_int; lia]. }
  split.
  - intros Hne Hd Htail Hlen Hval. split; [by apply Hread|].
    rewrite (Hread tail Hne Hd Htail Hlen Hval).
    pose proof (Hread EmptyString Hne Hd eq_refl Hlen Hval) as Hbare.
    rewrite append_empty in Hbare. by rewrite Hbare.
  - intros Hne Hnone.
    destruct (ParseMove_column Sscanf_d first rest Hne) as [_ Hrow];
      [by apply column_letter_not_pass|].
    apply (Hrow Hcol (-2)); [|lia].
    rewrite Hnone. simpl. rewrite wrap_small; [done | unfold min_int, max_int; lia].
Qed.

Lemma ParseMove_leading_digits_witness :
  scansLeadingDigits scanDecimal ∧
  isColumnLetter "A" = true ∧
  ("1"%string ≠ EmptyString ∧ allDigits "1" = true ∧ startsWithDigit "xyz" = false ∧
   Z.of_nat (String.length "1") < 2 ^ 30 ∧ 1 <= decimalValue "1" <= 8) ∧
  ("x"%string ≠ EmptyString ∧ scanDecimal "x" = None) ∧
  (ParseMove scanDecimal "A1xyz" = (0, 0, None) ∧
   ParseMove scanDecimal "A1xyz" = ParseMove scanDecimal "A1") ∧
  ParseMove scanDecimal "Ax" = (-1, -1, Some "position out of bounds").
Proof.
  pose proof (ParseMove_leading_digits scanDecimal "A" "1" "xyz" "x"
                scanDecimal_digits eq_refl) as [Hdigits Hnone].
  split; [exact scanDecimal_digits|]. split; [reflexivity|].
  split; [repeat split; (done || by vm_compute)|]. split; [split; done|].
  split.
  - apply Hdigits; [done | reflexivity | reflexivity | by vm_compute | by vm_compute].
  - apply Hnone; [done | reflexivity].
Defined.

(** ** Further properties of the board *)

#[local] Instance rowMajorBefore_trans : Transitive rowMajorBefore.
Proof. intros p q r. unfold rowMajorBefore. lia. Qed.

Lemma rowMajor_sorted : StronglySorted rowMajorBefore (rowMajor 8).
Proof.
  apply Sorted_StronglySorted; [apply _|].
  repeat (constructor; [|constructor; unfold rowMajorBefore; simpl; lia]).
  constructor.
Qed.

Lemma StronglySorted_without {A} (R : relation A) (l1 l2 : list A) (x : A) :
  StronglySorted R (l1 ++ x :: l2) → StronglySorted R (l1 ++ l2).
Proof.
  rewrite !StronglySorted_app, StronglySorted_cons. intros (Hcross & H1 & Hx & H2).
  split; [|done]. intros x1 x2 Hx1 Hx2. apply Hcross; [done | by right].
Qed.

Lemma scanFrom_sorted (b : Board) (ps moves ms : list Position) :
  StronglySorted rowMajorBefore (moves ++ ps) → scanFrom b ps moves = Some ms →
  StronglySorted rowMajorBefore ms.
Proof.
  revert moves. induction ps as [|p ps IH]; intros moves Hsorted Hscan; simpl in Hscan.
  - rewrite app_nil_r in Hsorted. congruence.
  - destruct (IsValidMove b (Row p) (Col p)) as [[|]|]; simpl in Hscan; [| |done].
    + apply (IH (moves ++ [p])); [|done]. by rewrite <- app_assoc.
    + apply (IH moves); [|done]. by eapply StronglySorted_without.
Qed.

Lemma rowMajorBefore_NoDup (l : list Position) :
  StronglySorted rowMajorBefore l → NoDup l.
Proof.
  induction 1 as [|p l _ IH Hall]; constructor; [|done].
  intros Hin. rewrite Forall_forall in Hall. specialize (Hall p Hin).
  unfold rowMajorBefore in Hall. lia.
Qed.

(** X1. On an 8 x 8 grid [GetPiece] returns for every coordinate: the
    piece of the cell on the board, Empty off the board. *)
Theorem GetPiece_total (b : Board) (row col : Z) :
  wfGrid b →
  ∃ p, GetPiece b row col = Some p ∧
       (onBoard row col → cell b row col = Some p) ∧
       (¬ onBoard row col → p = Empty).
Proof.
  intros Hgrid. rewrite (GetPiece_wf b row col Hgrid). eexists. split; [done|]. split.
  - intros Hon. by destruct (cell_Some b row col Hgrid Hon) as [p ->].
  - intros Hoff.
    pose proof (proj2 (IsValidPosition_off b row col (proj1 Hgrid)) Hoff) as Hpos.
    pose proof (GetPiece_wf b row col Hgrid) as Hget. unfold GetPiece in Hget.
    rewrite Hpos in Hget. simpl in Hget. congruence.
Qed.

Lemma GetPiece_total_witness :
  wfGrid NewBoard ∧
  ∃ p, GetPiece NewBoard 8 (-1) = Some p ∧
       (onBoard 8 (-1) → cell NewBoard 8 (-1) = Some p) ∧
       (¬ onBoard 8 (-1) → p = Empty).
Proof.
  split; [exact (proj1 NewBoard_wf)|].
  apply (GetPiece_total NewBoard 8 (-1)). exact (proj1 NewBoard_wf).
Defined.

(** X2. On a board of the data model [GetValidMoves] returns the legal
    moves of the side to move, all of them, each once, in row-major
    order. *)
Theorem GetValidMoves_sorted (b : Board) :
  wf b →
  ∃ moves, GetValidMoves b = Some moves ∧
    (∀ p, p ∈ moves ↔ legal b (Row p) (Col p)) ∧
    NoDup moves ∧ StronglySorted rowMajorBefore moves.
Proof.
  intros Hwf. destruct (GetValidMoves_legal b Hwf) as (moves & Hmoves & Hin).
  exists moves. split; [done|]. split; [done|].
  assert (StronglySorted rowMajorBefore moves).
  { unfold GetValidMoves in Hmoves. destruct Hwf as [[HS _] _]. rewrite HS in Hmoves.
    eapply scanFrom_sorted; [|done]. apply rowMajor_sorted. }
  split; [by apply rowMajorBefore_NoDup | done].
Qed.

Lemma GetValidMoves_sorted_witness :
  wf NewBoard ∧
  ∃ moves, GetValidMoves NewBoard = Some moves ∧
    (∀ p, p ∈ moves ↔ legal NewBoard (Row p) (Col p)) ∧
    NoDup moves ∧ StronglySorted rowMajorBefore moves.
Proof. split; [exact NewBoard_wf|]. apply GetValidMoves_sorted. exact NewBoard_wf. Defined.

(** X3. On a board of the data model [HasValidMove] answers whether the
    side to move has a legal move. *)
Theorem HasValidMove_iff (b : Board) :
  wf b →
  (HasValidMove b = Some true ↔ ∃ row col, legal b row col) ∧
  (HasValidMove b = Some false ↔ ∀ row col, ¬ legal b row col).
Proof.
  intros Hwf. destruct (HasValidMove_legal b Hwf) as (v & -> & Hiff). split.
  - rewrite <- Hiff. split; congruence.
  - split.
    + intros Hv row col Hl. assert (v = true) by (apply Hiff; eauto). congruence.
    + intros Hno. destruct v; [|done]. destruct Hiff as [Hiff _].
      destruct Hiff as (row & col & Hl); [done|]. by apply Hno in Hl.
Qed.

Lemma HasValidMove_iff_witness :
  wf NewBoard ∧
  (HasValidMove NewBoard = Some true ↔ ∃ row col, legal NewBoard row col) ∧
  (HasValidMove NewBoard = Some false ↔ ∀ row col, ¬ legal NewBoard row col).
Proof. split; [exact NewBoard_wf|]. apply HasValidMove_iff. exact NewBoard_wf. Defined.

(** X4. On a board of the data model [MakeMove] accepts exactly the legal
    moves: on a legal move it returns true and hands the turn to the
    opponent; on any other it returns false and leaves the board, its grid,
    counters and side to move, as it was. *)
Theorem MakeMove_accepts (b : Board) (row col : Z) :
  wf b →
  (legal b row col →
   ∃ b', MakeMove b row col = Some (true, b') ∧ wf b' ∧
         CurrentPlayer b' = other (CurrentPlayer b)) ∧
  (¬ legal b row col → MakeMove b row col = Some (false, b)).
Proof.
  intros Hwf. split.
  - intros Hl. destruct (MakeMove_legal b row col Hwf Hl) as (b' & Hm & Hwf' & Hcur & _).
    eauto.
  - by apply MakeMove_illegal.
Qed.

Lemma MakeMove_accepts_witness :
  wf NewBoard ∧
  (legal NewBoard 0 0 →
   ∃ b', MakeMove NewBoard 0 0 = Some (true, b') ∧ wf b' ∧
         CurrentPlayer b' = other (CurrentPlayer NewBoard)) ∧
  (¬ legal NewBoard 0 0 → MakeMove NewBoard 0 0 = Some (false, NewBoard)).
Proof. split; [exact NewBoard_wf|]. apply MakeMove_accepts. exact NewBoard_wf. Defined.

(** X5. [Clone] of a board with an 8 x 8 grid returns a board equal to
    it in every field. *)
Theorem Clone_equal (b : Board) : wfGrid b → Clone b = Some b.
Proof. apply Clone_wf. Qed.

Lemma Clone_equal_witness : wfGrid NewBoard ∧ Clone NewBoard = Some NewBoard.
Proof. split; [exact (proj1 NewBoard_wf)|]. apply Clone_equal. exact (proj1 NewBoard_wf). Defined.

(** *** The grid after a move *)

Lemma setCell_here (b b' : Board) (row col : Z) (q : Piece) :
  setCell b row col q = Some b' → cell b' row col = Some q.
Proof.
  unfold setCell. intros Hset.
  destruct (index (Cells b) row) as [line|] eqn:Hline; [|done]. simpl in Hset.
  destruct (index line col) as [old|] eqn:Hold; [|done]. simpl in Hset.
  injection Hset as <-.
  apply index_inv in Hline as [Hrow Hline]. apply index_inv in Hold as [Hcol Hold].
  unfold cell, index. simpl. destruct (Z.ltb_spec row 0); [lia|].
  rewrite list_lookup_insert_eq by (by eapply lookup_lt_Some). simpl.
  destruct (Z.ltb_spec col 0); [lia|].
  rewrite list_lookup_insert_eq by (by eapply lookup_lt_Some). done.
Qed.

(** [flipAll] recolours the cells of [toFlip] and no other. *)
Lemma flipAll_cells (toFlip : list Position) :
  ∀ b n b' n', wfGrid b → flipAll b toFlip n = Some (b', n') →
    ∀ r c,
      ({| Row := r; Col := c |} ∈ toFlip → cell b' r c = Some (CurrentPlayer b)) ∧
      ({| Row := r; Col := c |} ∉ toFlip → cell b' r c = cell b r c).
Proof.
  induction toFlip as [|pos rest IH]; intros b n b' n' Hgrid Hflip r c; simpl in Hflip.
  { simplify_eq. split; [by intros ?%elem_of_nil | done]. }
  destruct (setCell b (Row pos) (Col pos) (CurrentPlayer b)) as [b1|] eqn:Hset; [|done].
  simpl in Hflip.
  destruct (setCell_effect _ _ _ _ _ Hgrid Hset) as (old & _ & Hgrid1 & Hframe & _ & Hrest).
  destruct Hframe as (_ & Hcur1 & _).
  destruct (IH _ _ _ _ Hgrid1 Hflip r c) as [Hin Hout]. rewrite Hcur1 in Hin.
  destruct (decide ({| Row := r; Col := c |} ∈ rest)) as [Hmem | Hnot].
  - split; [by intros _; apply Hin|]. intros Hno. destruct Hno. by right.
  - rewrite (Hout Hnot). split.
    + intros [Heq | Hmem]%elem_of_cons; [|done]. subst pos. simpl in Hset.
      by apply setCell_here in Hset.
    + intros Hno. apply Hrest. intros Heq. apply Hno.
      destruct pos as [pr pc]. simpl in Heq. injection Heq as -> ->. left.
Qed.

(** The inner loop of [flipPieces] stops on a piece of the side to move
    exactly when the run it has collected is a bracket. *)
Lemma scanFlip_bracket (b : Board) (row col : Z) (dir : Direction) :
  wf b →
  ∀ fuel k r c found result,
    1 <= k → r = row + (k + 1) * DRow dir → c = col + (k + 1) * DCol dir →
    (∀ i, 1 <= i <= k →
       holds b (row + i * DRow dir) (col + i * DCol dir) (other (CurrentPlayer b))) →
    scanFlip fuel b dir r c (ray row col dir <$> seqZ 1 k) = Some (found, result) →
    ∃ k', k <= k' ∧ result = ray row col dir <$> seqZ 1 k' ∧
      (found = true → bracketRun b row col dir k') ∧
      (found = false → ∀ k'', ¬ bracketRun b row col dir k'').
Proof.
  intros [Hgrid Hcur]. induction fuel as [|fuel IH];
    intros k r c found result Hk Hr Hc Hheld Hscan; [done|].
  assert (Hstop : ¬ holds b r c (CurrentPlayer b) →
            ¬ holds b r c (other (CurrentPlayer b)) →
            ∀ k'', ¬ bracketRun b row col dir k'').
  { intros Hnc Hno k'' (Hk'' & Hrun & Hend).
    destruct (Z.lt_trichotomy k'' k) as [Hlt | [-> | Hgt]].
    - destruct (Hheld (k'' + 1)) as [_ H1]; [lia|]. destruct Hend as [_ H2].
      rewrite H1 in H2. injection H2. by destruct (CurrentPlayer b).
    - apply Hnc. by rewrite Hr, Hc.
    - apply Hno. rewrite Hr, Hc. apply Hrun. lia. }
  simpl in Hscan. destruct (IsValidPosition b r c) eqn:Hpos.
  - apply IsValidPosition_onBoard in Hpos; [|apply Hgrid].
    destruct (cell b r c) as [p|] eqn:Hp; [|done]. simpl in Hscan.
    destruct (decide (p = Empty)) as [-> | Hne].
    { exists k. simplify_eq. split; [lia|]. split; [done|]. split; [done|]. intros _.
      apply Hstop; intros [_ Hc]; rewrite Hp in Hc; injection Hc;
        by destruct (CurrentPlayer b). }
    destruct (decide (p = CurrentPlayer b)) as [-> | Hnc].
    { exists k. injection Hscan as <- <-. split; [lia|]. split; [done|].
      split; [|done]. intros _. split; [done|]. split; [done|].
      rewrite <- Hr, <- Hc. done. }
    assert (Hlist : (ray row col dir <$> seqZ 1 k) ++ [ {| Row := r; Col := c |} ]
                    = ray row col dir <$> seqZ 1 (k + 1)).
    { rewrite seqZ_snoc by lia. rewrite fmap_app. simpl. unfold ray at 3.
      by rewrite <- Hr, <- Hc. }
    rewrite Hlist in Hscan.
    destruct (IH (k + 1) (r + DRow dir) (c + DCol dir) found result)
      as (k' & Hk' & Hres & Hrest); [lia | lia | lia | | done |].
    + intros i Hi. destruct (decide (i = k + 1)) as [-> | Hni]; [|apply Hheld; lia].
      rewrite <- Hr, <- Hc. split; [done|]. rewrite Hp. f_equal. by apply neither_is_other.
    + exists k'. split; [lia | done].
  - exists k. simplify_eq. split; [lia|]. split; [done|]. split; [done|]. intros _.
    apply IsValidPosition_off in Hpos; [|apply Hgrid].
    apply Hstop; by intros [Hon _].
Qed.

Lemma bracketRun_unique (b : Board) (row col : Z) (dir : Direction) (k k' : Z) :
  CurrentPlayer b ≠ Empty →
  bracketRun b row col dir k → bracketRun b row col dir k' → k = k'.
Proof.
  intros Hcur (Hk & Hrun & Hend) (Hk' & Hrun' & Hend').
  assert (Hdiff : ∀ r c, holds b r c (CurrentPlayer b) →
            holds b r c (other (CurrentPlayer b)) → False).
  { intros r c [_ H1] [_ H2]. rewrite H1 in H2. injection H2. by destruct (CurrentPlayer b). }
  destruct (Z.lt_trichotomy k k') as [Hlt | [-> | Hgt]]; [|done|].
  - destruct (Hdiff _ _ Hend). apply Hrun'. lia.
  - destruct (Hdiff _ _ Hend'). apply Hrun. lia.
Qed.

Lemma ray_apart (row col : Z) (d d' : Direction) (i j : Z) :
  d ∈ Directions → d' ∈ Directions → 1 <= i → 1 <= j →
  ray row col d i = ray row col d' j → d = d'.
Proof.
  intros Hd Hd' Hi Hj Heq. unfold Directions in Hd, Hd'. unfold ray in Heq.
  repeat (apply elem_of_cons in Hd as [-> | Hd]);
    try (by apply elem_of_nil in Hd);
    repeat (apply elem_of_cons in Hd' as [-> | Hd']);
    try (by apply elem_of_nil in Hd');
    simpl in Heq; injection Heq; intros; first [reflexivity | lia].
Qed.

Lemma bracketRun_ext (b b1 : Board) (row col : Z) (dir : Direction) (k : Z) :
  CurrentPlayer b1 = CurrentPlayer b →
  (∀ i, 1 <= i →
     cell b1 (row + i * DRow dir) (col + i * DCol dir)
       = cell b (row + i * DRow dir) (col + i * DCol dir)) →
  bracketRun b row col dir k → bracketRun b1 row col dir k.
Proof.
  intros Hcur Hcells (Hk & Hrun & Hend). unfold bracketRun, holds in *.
  rewrite Hcur. split; [done|]. split.
  - intros i Hi. rewrite Hcells by lia. by apply Hrun.
  - rewrite Hcells by lia. done.
Qed.

Lemma flippedIn_later (b : Board) (row col : Z) (dir : Direction) (rest : list Direction)
  (r c : Z) :
  flippedIn b row col rest r c → flippedIn b row col (dir :: rest) r c.
Proof. intros (d & k & i & Hd & Hrest). exists d, k, i. split; [by right | done]. Qed.

Lemma flippedIn_skip (b : Board) (row col : Z) (dir : Direction) (rest : list Direction)
  (r c : Z) :
  (∀ k, ¬ bracketRun b row col dir k) →
  flippedIn b row col (dir :: rest) r c → flippedIn b row col rest r c.
Proof.
  intros Hno (d & k & i & Hd & Hrun & Hrest).
  apply elem_of_cons in Hd as [-> | Hd]; [by apply Hno in Hrun|].
  exists d, k, i. done.
Qed.

(** The loop of [flipPieces] over the directions recolours the bracketed
    runs of those directions and leaves every other cell alone. *)
Lemma flipDirs_cells (row col : Z) (dirs : list Direction) :
  dirs ⊆ Directions → NoDup dirs →
  ∀ b n b' n', wf b → flipDirs b row col dirs n = Some (b', n') →
    ∀ r c,
      (flippedIn b row col dirs r c → cell b' r c = Some (CurrentPlayer b)) ∧
      (cell b' r c = cell b r c ∨ flippedIn b row col dirs r c).
Proof.
  induction dirs as [|dir rest IH]; intros Hsub Hnd b n b' n' Hwf Hrun r c.
  { simpl in Hrun. simplify_eq. split; [|by left].
    intros (d & k & i & Hd & _). by apply elem_of_nil in Hd. }
  assert (Hdir : dir ∈ Directions) by (apply Hsub; left).
  assert (Hsub' : rest ⊆ Directions) by (intros d Hd; apply Hsub; by right).
  apply NoDup_cons in Hnd as [Hfresh Hnd].
  specialize (IH Hsub' Hnd).
  assert (Hnone : (∀ k, ¬ bracketRun b row col dir k) →
            flipDirs b row col rest n = Some (b', n') →
            (flippedIn b row col (dir :: rest) r c → cell b' r c = Some (CurrentPlayer b)) ∧
            (cell b' r c = cell b r c ∨ flippedIn b row col (dir :: rest) r c)).
  { intros Hno Hrest. destruct (IH _ _ _ _ Hwf Hrest r c) as [H1 H2]. split.
    - intros Hf. apply H1. by eapply flippedIn_skip.
    - destruct H2 as [H2 | H2]; [by left | right; by apply flippedIn_later]. }
  pose proof Hwf as [Hgrid Hcur]. simpl in Hrun.
  destruct (IsValidPosition b (row + DRow dir) (col + DCol dir)) eqn:Hpos; simpl in Hrun.
  2: { apply Hnone; [|done]. intros k (Hk & Hheld & _).
       destruct (Hheld 1) as [Hon _]; [lia|]. rewrite !Z.mul_1_l in Hon.
       apply IsValidPosition_off in Hpos; [done | apply Hgrid]. }
  destruct (cell b (row + DRow dir) (col + DCol dir)) as [p|] eqn:Hp; [|done].
  simpl in Hrun. rewrite (getOpponent_other b Hcur) in Hrun.
  destruct (decide (p ≠ other (CurrentPlayer b))) as [Hne | Heq].
  { apply Hnone; [|done]. intros k (Hk & Hheld & _).
    destruct (Hheld 1) as [_ Hc]; [lia|]. rewrite !Z.mul_1_l in Hc. congruence. }
  apply dec_stable in Heq. subst p.
  apply IsValidPosition_onBoard in Hpos; [|apply Hgrid].
  destruct (scanFlip (scanFuel b) b dir _ _ _) as [[foundOwn toFlip]|] eqn:Hscan; [|done].
  simpl in Hrun.
  destruct (scanFlip_bracket b row col dir Hwf (scanFuel b) 1
              (row + DRow dir + DRow dir) (col + DCol dir + DCol dir) foundOwn toFlip)
    as (k & Hk & -> & Hfound & Hlost); [lia | lia | lia | | |].
  { intros i Hi. assert (i = 1) as -> by lia. rewrite !Z.mul_1_l. done. }
  { rewrite <- Hscan. f_equal. change (seqZ 1 1) with [1]. simpl. unfold ray.
    do 2 f_equal; lia. }
  destruct foundOwn; [|by apply Hnone; [apply Hlost|]].
  specialize (Hfound eq_refl). pose proof Hfound as (_ & Hheld & _).
  destruct (flipAll b _ n) as [[b1 n1]|] eqn:Hflip; [|done]. simpl in Hrun.
  destruct (flipAll_counts (ray row col dir <$> seqZ 1 k) b n Hwf)
    as (b1' & Hflip' & Hwf1 & Hframe1 & _).
  { apply NoDup_fmap_2_strong; [|apply NoDup_seqZ].
    intros i j _ _ Heq. by apply (ray_inj row col dir). }
  { intros pos Hin. apply list_elem_of_fmap in Hin as (i & -> & Hi).
    apply elem_of_seqZ in Hi. simpl. apply Hheld. lia. }
  assert (b1' = b1) as -> by congruence.
  destruct Hframe1 as (_ & Hcur1 & _).
  pose proof (flipAll_cells _ _ _ _ _ Hgrid Hflip) as Hcells.
  assert (Hray : ∀ d j, d ∈ rest → 1 <= j →
            cell b1 (row + j * DRow d) (col + j * DCol d)
              = cell b (row + j * DRow d) (col + j * DCol d)).
  { intros d j Hd Hj. apply Hcells. intros Hin.
    apply list_elem_of_fmap in Hin as (i & Heq & Hi). apply elem_of_seqZ in Hi.
    apply Hfresh. rewrite <- (ray_apart row col d dir j i); [done | by apply Hsub' | done | lia..|].
    exact Heq. }
  assert (Hto : ∀ r c, flippedIn b row col rest r c → flippedIn b1 row col rest r c).
  { intros r0 c0 (d & k0 & i & Hd & Hb & Hrest). exists d, k0, i. split; [done|].
    split; [|done]. apply (bracketRun_ext b b1); [done | | done].
    intros j Hj. by apply Hray. }
  assert (Hback : ∀ r c, flippedIn b1 row col rest r c → flippedIn b row col rest r c).
  { intros r0 c0 (d & k0 & i & Hd & Hb & Hrest). exists d, k0, i. split; [done|].
    split; [|done]. apply (bracketRun_ext b1 b); [done | | done].
    intros j Hj. symmetry. by apply Hray. }
  destruct (IH _ _ _ _ Hwf1 Hrun r c) as [H1 H2]. rewrite Hcur1 in H1.
  destruct (Hcells r c) as [Hin Hout].
  split.
  - intros (d & k0 & i & Hd & Hb & Hi & -> & ->).
    apply elem_of_cons in Hd as [-> | Hd].
    + assert (k0 = k) as -> by (by eapply bracketRun_unique).
      assert (Hcell1 : cell b1 (row + i * DRow dir) (col + i * DCol dir)
                       = Some (CurrentPlayer b)).
      { apply Hin. apply list_elem_of_fmap. exists i. split; [done|].
        apply elem_of_seqZ. lia. }
      destruct H2 as [H2 | H2]; [congruence | by apply H1].
    + apply H1, Hto. exists d, k0, i. done.
  - destruct H2 as [H2 | H2]; [|right; by apply flippedIn_later, Hback].
    destruct (decide ({| Row := r; Col := c |} ∈ ray row col dir <$> seqZ 1 k))
      as [Hmem | Hnot].
    + right. apply list_elem_of_fmap in Hmem as (i & Heq & Hi).
      apply elem_of_seqZ in Hi. injection Heq as -> ->.
      exists dir, k, i. split; [left|]. split; [done|]. split; [lia | done].
    + left. rewrite H2. by apply Hout.
Qed.

Lemma Directions_NoDup : NoDup Directions.
Proof. exact (bool_decide_unpack (NoDup Directions) I). Qed.

Lemma ray_off_origin (row col : Z) (dir : Direction) (i : Z) :
  dir ∈ Directions → 1 <= i →
  (row + i * DRow dir, col + i * DCol dir) ≠ (row, col).
Proof.
  intros Hdir Hi Heq. injection Heq as Hr Hc.
  assert (i = 0); [|lia]. apply (ray_inj row col dir); [done|].
  unfold ray. f_equal; lia.
Qed.

(** The grid after a successful [MakeMove]: the cell played and the
    bracketed runs hold the mover's colour, and no other cell has changed. *)
Lemma MakeMove_cells (b b' : Board) (row col : Z) :
  wf b → MakeMove b row col = Some (true, b') →
  cell b' row col = Some (CurrentPlayer b) ∧
  ∀ r c,
    (flippedIn b row col Directions r c → cell b' r c = Some (CurrentPlayer b)) ∧
    (cell b' r c = cell b r c ∨ (r, c) = (row, col) ∨ flippedIn b row col Directions r c).
Proof.
  intros Hwf Hmove. pose proof Hwf as [Hgrid Hcur]. unfold MakeMove in Hmove.
  destruct (IsValidMove b row col) as [[|]|]; simpl in Hmove; [|congruence|done].
  destruct (setCell b row col (CurrentPlayer b)) as [b1|] eqn:Hset; [|done].
  simpl in Hmove.
  destruct (setCell_effect _ _ _ _ _ Hgrid Hset) as (old & _ & Hgrid1 & Hframe1 & _ & Hother).
  pose proof (setCell_here _ _ _ _ _ Hset) as Hhere.
  destruct Hframe1 as (_ & Hcur1 & _).
  assert (Hwf1 : wf b1) by (split; congruence).
  destruct (flipPieces b1 row col) as [b2|] eqn:Hflip; [|done]. simpl in Hmove.
  unfold flipPieces in Hflip.
  destruct (flipDirs b1 row col Directions 0) as [[b3 flipped]|] eqn:Hdirs; [|done].
  simpl in Hflip.
  assert (Hsame : ∀ r c, cell b' r c = cell b3 r c).
  { intros r c. destruct (decide (CurrentPlayer b3 = Black)); by simplify_eq. }
  pose proof (flipDirs_cells row col Directions ltac:(done) Directions_NoDup
                _ _ _ _ Hwf1 Hdirs) as Hcells.
  assert (Hray : ∀ d j, d ∈ Directions → 1 <= j →
            cell b1 (row + j * DRow d) (col + j * DCol d)
              = cell b (row + j * DRow d) (col + j * DCol d)).
  { intros d j Hd Hj. apply Hother. by apply ray_off_origin. }
  assert (Hto : ∀ r c, flippedIn b row col Directions r c →
                       flippedIn b1 row col Directions r c).
  { intros r0 c0 (d & k0 & i & Hd & Hb & Hrest). exists d, k0, i. split; [done|].
    split; [|done]. apply (bracketRun_ext b b1); [done | | done].
    intros j Hj. by apply Hray. }
  assert (Hback : ∀ r c, flippedIn b1 row col Directions r c →
                         flippedIn b row col Directions r c).
  { intros r0 c0 (d & k0 & i & Hd & Hb & Hrest). exists d, k0, i. split; [done|].
    split; [|done]. apply (bracketRun_ext b1 b); [done | | done].
    intros j Hj. symmetry. by apply Hray. }
  split.
  - rewrite Hsame. destruct (Hcells row col) as [H1 [H2 | H2]].
    + congruence.
    + rewrite <- Hcur1. by apply H1.
  - intros r c. rewrite Hsame. destruct (Hcells r c) as [H1 H2]. rewrite Hcur1 in H1.
    split; [intros Hf; by apply H1, Hto|].
    destruct H2 as [H2 | H2]; [|right; right; by apply Hback].
    destruct (decide ((r, c) = (row, col))) as [Heq | Hne]; [by right; left|].
    left. rewrite H2. by apply Hother.
Qed.

(** X6. On a board of the data model a legal move is played as the rules
    of the game say: the cell played takes the mover's colour, every
    opponent piece of a bracketed run, in each of the eight directions,
    takes the mover's colour, and a cell that is neither the one nor the
    other keeps what it held. *)
Theorem MakeMove_grid (b : Board) (row col : Z) :
  wf b → legal b row col →
  ∃ b', MakeMove b row col = Some (true, b') ∧
    cell b' row col = Some (CurrentPlayer b) ∧
    ∀ r c,
      (flippedIn b row col Directions r c → cell b' r c = Some (CurrentPlayer b)) ∧
      (cell b' r c = cell b r c ∨ (r, c) = (row, col) ∨
       flippedIn b row col Directions r c).
Proof.
  intros Hwf Hlegal.
  destruct (MakeMove_legal b row col Hwf Hlegal) as (b' & Hmove & _).
  exists b'. split; [done|]. by apply MakeMove_cells.
Qed.

Lemma MakeMove_grid_witness :
  wf NewBoard ∧ legal NewBoard 2 3 ∧
  ∃ b', MakeMove NewBoard 2 3 = Some (true, b') ∧
    cell b' 2 3 = Some (CurrentPlayer NewBoard) ∧
    ∀ r c,
      (flippedIn NewBoard 2 3 Directions r c → cell b' r c = Some (CurrentPlayer NewBoard)) ∧
      (cell b' r c = cell NewBoard r c ∨ (r, c) = (2, 3) ∨
       flippedIn NewBoard 2 3 Directions r c).
Proof.
  assert (Hlegal : legal NewBoard 2 3).
  { apply (IsValidMove_true NewBoard 2 3 NewBoard_wf). reflexivity. }
  split; [exact NewBoard_wf|]. split; [exact Hlegal|].
  exact (MakeMove_grid NewBoard 2 3 NewBoard_wf Hlegal).
Defined.

(** ** Further properties of the session *)

Lemma terminal_IsGameOver (b : Board) :
  wf b → ∃ v, IsGameOver b = Some (v, b) ∧ (v = true ↔ terminal b).
Proof. apply IsGameOver_legal. Qed.

(** [updateGameState] returns on a board of the data model; it ends the
    game exactly when the board is terminal or two passes are counted, and
    then names the winner by the counters. *)
Lemma updateGameState_wf (g : Game) :
  wf (GameBoard g) →
  ∃ g' (over : bool),
    updateGameState g = Some g' ∧
    GameBoard g' = GameBoard g ∧ History g' = History g ∧ PassCount g' = PassCount g ∧
    (over = true ↔ terminal (GameBoard g) ∨ 2 <= PassCount g) ∧
    (over = true → GameOver g' = true ∧ Winner g' = GetWinner (GameBoard g)) ∧
    (over = false → GameOver g' = GameOver g ∧ Winner g' = Winner g).
Proof.
  intros Hwf. unfold updateGameState.
  destruct (terminal_IsGameOver _ Hwf) as (v & -> & Hv). simpl.
  rewrite Z.geb_leb.
  destruct v, (Z.leb_spec 2 (PassCount g)); simpl; eexists;
    [exists true | exists true | exists true | exists false];
    (split; [reflexivity|]); simpl; repeat split;
    intuition (auto; try lia; try discriminate).
Qed.

(** The outcomes of [Game.MakeMove]. *)
Lemma Game_MakeMove_outcome (g : Game) (row col : Z) :
  wf (GameBoard g) →
  (GameOver g = true →
   Game_MakeMove g row col = Some (Some "game is already over", g)) ∧
  (GameOver g = false → ¬ legal (GameBoard g) row col →
   Game_MakeMove g row col = Some (Some "invalid move", g)) ∧
  (GameOver g = false → legal (GameBoard g) row col →
   ∃ b' g' m,
     MakeMove (GameBoard g) row col = Some (true, b') ∧
     Game_MakeMove g row col = Some (None, g') ∧
     GameBoard g' = b' ∧ PassCount g' = 0 ∧
     History g' = History g ++ [m] ∧ MovePosition m = {| Row := row; Col := col |} ∧
     (GameOver g' = true ↔ terminal b') ∧
     (GameOver g' = true → Winner g' = GetWinner b') ∧
     (GameOver g' = false → Winner g' = Winner g)).
Proof.
  intros Hwf. unfold Game_MakeMove. destruct g as [b h over pc w]. simpl in *.
  split; [|split].
  - intros ->. done.
  - intros -> Hno. rewrite (MakeMove_illegal _ _ _ Hwf Hno). done.
  - intros -> Hlegal.
    destruct (MakeMove_legal _ _ _ Hwf Hlegal) as (b' & -> & Hwf' & _). simpl.
    match goal with |- context [updateGameState ?g1] =>
      destruct (updateGameState_wf g1 Hwf')
        as (g' & ov & -> & HB & HH & HP & Hov & Hyes & Hno) end.
    simpl in *. exists b', g'. eexists. do 6 (split; [done|]).
    split; [split|split].
    + intros Hg. destruct ov; [|destruct (Hno eq_refl) as [Hn _]; congruence].
      destruct (proj1 Hov eq_refl) as [Ht | Hp]; [done | lia].
    + intros Ht. apply Hyes, Hov. by left.
    + intros Hg. destruct ov; [by apply Hyes | destruct (Hno eq_refl) as [Hn _]; congruence].
    + intros Hg. destruct ov; [destruct (Hyes eq_refl) as [Hy _]; congruence | by apply Hno].
Qed.

(** The outcomes of [Game.Pass]. *)
Lemma Game_Pass_outcome (g : Game) :
  wf (GameBoard g) →
  (GameOver g = true → Game_Pass g = Some (Some "game is already over", g)) ∧
  (GameOver g = false → (∃ row col, legal (GameBoard g) row col) →
   Game_Pass g = Some (Some "cannot pass when valid moves are available", g)) ∧
  (GameOver g = false → (∀ row col, ¬ legal (GameBoard g) row col) →
   ∃ g',
     Game_Pass g = Some (None, g') ∧
     GameBoard g' = withPlayer (GameBoard g) (other (CurrentPlayer (GameBoard g))) ∧
     History g' = History g ++
       [ {| MovePosition := passPosition; MovePiece := CurrentPlayer (GameBoard g) |} ] ∧
     PassCount g' = wrap (PassCount g + 1) ∧
     (GameOver g' = true ↔ terminal (GameBoard g') ∨ 2 <= PassCount g') ∧
     (GameOver g' = true → Winner g' = GetWinner (GameBoard g')) ∧
     (GameOver g' = false → Winner g' = Winner g)).
Proof.
  intros Hwf. pose proof Hwf as [Hgrid Hcur]. unfold Game_Pass.
  destruct g as [b h over pc w]. simpl in *.
  destruct (HasValidMove_legal _ Hwf) as (v & -> & Hv). simpl.
  split; [|split].
  - intros ->. done.
  - intros -> Hex. apply Hv in Hex as ->. done.
  - intros -> Hno. destruct v.
    { destruct Hv as [Hv _]. destruct Hv as (row & col & Hl); [done|]. by apply Hno in Hl. }
    rewrite (getOpponent_other _ Hcur).
    match goal with |- context [updateGameState ?g1] =>
      destruct (updateGameState_wf g1)
        as (g' & ov & -> & HB & HH & HP & Hov & Hyes & Hnot) end.
    { simpl. apply withPlayer_wf; [done | by apply other_not_Empty]. }
    simpl in *. exists g'. rewrite HB, HP. do 4 (split; [done|]).
    split; [split|split].
    + intros Hg. destruct ov; [by apply Hov | destruct (Hnot eq_refl) as [Hn _]; congruence].
    + intros Ht. by apply Hyes, Hov.
    + intros Hg. destruct ov; [by apply Hyes | destruct (Hnot eq_refl) as [Hn _]; congruence].
    + intros Hg. destruct ov; [destruct (Hyes eq_refl) as [Hy _]; congruence | by apply Hnot].
Qed.

(** X7. [Game.MakeMove] on a session whose board is of the data model.
    A session that is over refuses with "game is already over", an illegal
    move is refused with "invalid move", and a refusal leaves the whole
    session as it was.  A legal move is accepted: the board is the one
    [Board.MakeMove] produces, one entry with the position played is
    appended to the history, the pass counter is reset to 0, and the
    session is over afterwards exactly when neither side has a legal move
    on the new board, with the winner named by the counters. *)
Theorem Game_MakeMove_cases (g : Game) (row col : Z) :
  wf (GameBoard g) →
  (GameOver g = true →
   Game_MakeMove g row col = Some (Some "game is already over", g)) ∧
  (GameOver g = false → ¬ legal (GameBoard g) row col →
   Game_MakeMove g row col = Some (Some "invalid move", g)) ∧
  (GameOver g = false → legal (GameBoard g) row col →
   ∃ b' g' m,
     MakeMove (GameBoard g) row col = Some (true, b') ∧
     Game_MakeMove g row col = Some (None, g') ∧
     GameBoard g' = b' ∧ PassCount g' = 0 ∧
     History g' = History g ++ [m] ∧ MovePosition m = {| Row := row; Col := col |} ∧
     (GameOver g' = true ↔ terminal b') ∧
     (GameOver g' = true → Winner g' = GetWinner b') ∧
     (GameOver g' = false → Winner g' = Winner g)).
Proof. apply Game_MakeMove_outcome. Qed.

Lemma Game_MakeMove_cases_witness :
  wf (GameBoard NewGame) ∧
  (GameOver NewGame = true →
   Game_MakeMove NewGame 2 3 = Some (Some "game is already over", NewGame)) ∧
  (GameOver NewGame = false → ¬ legal (GameBoard NewGame) 2 3 →
   Game_MakeMove NewGame 2 3 = Some (Some "invalid move", NewGame)) ∧
  (GameOver NewGame = false → legal (GameBoard NewGame) 2 3 →
   ∃ b' g' m,
     MakeMove (GameBoard NewGame) 2 3 = Some (true, b') ∧
     Game_MakeMove NewGame 2 3 = Some (None, g') ∧
     GameBoard g' = b' ∧ PassCount g' = 0 ∧
     History g' = History NewGame ++ [m] ∧ MovePosition m = {| Row := 2; Col := 3 |} ∧
     (GameOver g' = true ↔ terminal b') ∧
     (GameOver g' = true → Winner g' = GetWinner b') ∧
     (GameOver g' = false → Winner g' = Winner NewGame)).
Proof. split; [exact NewBoard_wf|]. apply Game_MakeMove_cases. exact NewBoard_wf. Defined.

(** X8. [Game.Pass] on a session whose board is of the data model.  A
    session that is over refuses with "game is already over", a side that
    has a legal move is refused with "cannot pass when valid moves are
    available", and a refusal leaves the session as it was.  A side
    without a legal move passes: the grid and the counters stay, the turn
    goes to the opponent, the pass sentinel (-1, -1) is appended to the
    history with the piece of the side that passed, the pass counter goes
    up by one, and the session is over afterwards exactly when the board is
    terminal or the counter has reached 2. *)
Theorem Game_Pass_cases (g : Game) :
  wf (GameBoard g) →
  (GameOver g = true → Game_Pass g = Some (Some "game is already over", g)) ∧
  (GameOver g = false → (∃ row col, legal (GameBoard g) row col) →
   Game_Pass g = Some (Some "cannot pass when valid moves are available", g)) ∧
  (GameOver g = false → (∀ row col, ¬ legal (GameBoard g) row col) →
   ∃ g',
     Game_Pass g = Some (None, g') ∧
     GameBoard g' = withPlayer (GameBoard g) (other (CurrentPlayer (GameBoard g))) ∧
     History g' = History g ++
       [ {| MovePosition := passPosition; MovePiece := CurrentPlayer (GameBoard g) |} ] ∧
     PassCount g' = wrap (PassCount g + 1) ∧
     (GameOver g' = true ↔ terminal (GameBoard g') ∨ 2 <= PassCount g') ∧
     (GameOver g' = true → Winner g' = GetWinner (GameBoard g')) ∧
     (GameOver g' = false → Winner g' = Winner g)).
Proof. apply Game_Pass_outcome. Qed.

Lemma stuckGame_wf : wf (GameBoard stuckGame).
Proof. split; [|done]. split; [done|]. split; [done|]. repeat constructor. Qed.

Lemma Game_Pass_cases_witness :
  wf (GameBoard stuckGame) ∧
  (GameOver stuckGame = true →
   Game_Pass stuckGame = Some (Some "game is already over", stuckGame)) ∧
  (GameOver stuckGame = false → (∃ row col, legal (GameBoard stuckGame) row col) →
   Game_Pass stuckGame = Some (Some "cannot pass when valid moves are available", stuckGame)) ∧
  (GameOver stuckGame = false → (∀ row col, ¬ legal (GameBoard stuckGame) row col) →
   ∃ g',
     Game_Pass stuckGame = Some (None, g') ∧
     GameBoard g'
       = withPlayer (GameBoard stuckGame) (other (CurrentPlayer (GameBoard stuckGame))) ∧
     History g' = History stuckGame ++
       [ {| MovePosition := passPosition;
            MovePiece := CurrentPlayer (GameBoard stuckGame) |} ] ∧
     PassCount g' = wrap (PassCount stuckGame + 1) ∧
     (GameOver g' = true ↔ terminal (GameBoard g') ∨ 2 <= PassCount g') ∧
     (GameOver g' = true → Winner g' = GetWinner (GameBoard g')) ∧
     (GameOver g' = false → Winner g' = Winner stuckGame)).
Proof. split; [exact stuckGame_wf|]. apply Game_Pass_cases. exact stuckGame_wf. Defined.

(** *** Sessions that play leads to *)

Lemma MakeMove_keeps_counts (b b' : Board) (row col : Z) :
  wf b → countsAgree b → MakeMove b row col = Some (true, b') →
  countsAgree b' ∧ occupied (Cells b') = occupied (Cells b) + 1.
Proof.
  intros Hwf [HB HW] Hmove.
  destruct (MakeMove_effect b b' row col Hwf Hmove)
    as (_ & [Hgrid' _] & _ & k & Hk & Hmine & Htheirs & Hcnt).
  pose proof (countPiece_wf b (proj1 Hwf)) as (HB0 & HW0 & Hsum).
  pose proof (countPiece_wf b' Hgrid') as (HB0' & HW0' & Hsum').
  destruct Hwf as [_ Hcur]. rewrite !occupied_count.
  unfold countsAgree. destruct (CurrentPlayer b) eqn:Hc; [done | |]; simpl in *.
  - destruct (decide (Black = Black)); [|done]. injection Hcnt as -> ->.
    rewrite HB, HW, (wrap_small (k + 1)), !wrap_small; unfold min_int, max_int; lia.
  - destruct (decide (White = Black)); [done|]. injection Hcnt as -> ->.
    rewrite HB, HW, (wrap_small (k + 1)), !wrap_small; unfold min_int, max_int; lia.
Qed.

Lemma moveCount_move (h : list Move) (m : Move) :
  MovePosition m ≠ passPosition → moveCount (h ++ [m]) = moveCount h + 1.
Proof.
  intros Hm. unfold moveCount. rewrite filter_app, length_app, filter_cons.
  destruct (decide (MovePosition m ≠ passPosition)); [simpl; lia | done].
Qed.

Lemma moveCount_pass (h : list Move) (p : Piece) :
  moveCount (h ++ [ {| MovePosition := passPosition; MovePiece := p |} ]) = moveCount h.
Proof.
  unfold moveCount. rewrite filter_app, length_app, filter_cons. simpl.
  destruct (decide (passPosition ≠ passPosition)); [done | simpl; lia].
Qed.

Lemma NewGame_inv : sessionInv NewGame.
Proof.
  split; [exact NewBoard_wf|]. split; [split; reflexivity|]. split; [reflexivity|].
  split; [simpl; lia|]. split; [|split; [done|split; [done|]]].
  - split; [done|]. intros [Hno _]. destruct (Hno 2 3).
    apply (IsValidMove_true NewBoard 2 3 NewBoard_wf). reflexivity.
  - intros _ Hp. simpl in Hp. lia.
Qed.

Lemma Game_MakeMove_inv (g g' : Game) (row col : Z) (err : error) :
  sessionInv g → Game_MakeMove g row col = Some (err, g') → sessionInv g'.
Proof.
  intros Hinv Hmove. pose proof Hinv as (Hwf & Hcnt & Hocc & Hpass & Hover & Hwin & Hnone & Hmust).
  destruct (Game_MakeMove_outcome g row col Hwf) as (Hdone & Hbad & Hgood).
  destruct (GameOver g) eqn:Hg.
  { rewrite Hdone in Hmove by done. by simplify_eq. }
  destruct (IsValidMove_decides (GameBoard g) row col Hwf) as ([|] & _ & Hiff).
  2: { rewrite Hbad in Hmove; [by simplify_eq | done |].
       intros Hl. by apply Hiff in Hl. }
  assert (Hlegal : legal (GameBoard g) row col) by (by apply Hiff).
  destruct (Hgood eq_refl Hlegal)
    as (b' & g1 & m & Hb & Hres & HB & HP & HH & Hm & Hov & Hw & Hnw).
  assert (g1 = g') as -> by congruence.
  destruct (MakeMove_effect _ _ _ _ Hwf Hb) as (_ & Hwf' & _).
  destruct (MakeMove_keeps_counts _ _ _ _ Hwf Hcnt Hb) as [Hcnt' Hocc'].
  unfold sessionInv. rewrite HB. split; [done|]. split; [done|]. split.
  { rewrite Hocc', Hocc, HH, moveCount_move; [lia|]. rewrite Hm.
    destruct Hlegal as [[[Hr _] _] _]. intros Heq. injection Heq. lia. }
  split; [lia|]. split; [done|]. split; [done|]. split.
  - intros Hg'. rewrite (Hnw Hg'). by apply Hnone.
  - intros _ Hp. lia.
Qed.

Lemma Game_Pass_inv (g g' : Game) (err : error) :
  sessionInv g → Game_Pass g = Some (err, g') → sessionInv g'.
Proof.
  intros Hinv Hpass. pose proof Hinv as (Hwf & Hcnt & Hocc & Hrange & Hover & Hwin & Hnone & Hmust).
  pose proof Hwf as [Hgrid Hcur].
  destruct (Game_Pass_outcome g Hwf) as (Hdone & Hbad & Hgood).
  destruct (GameOver g) eqn:Hg.
  { rewrite Hdone in Hpass by done. by simplify_eq. }
  destruct (HasValidMove_legal (GameBoard g) Hwf) as ([|] & _ & Hiff).
  { rewrite Hbad in Hpass; [by simplify_eq | done | by apply Hiff]. }
  assert (Hnolegal : ∀ row col, ¬ legal (GameBoard g) row col).
  { intros row col Hl. assert (false = true); [|done]. apply Hiff. eauto. }
  destruct (Hgood eq_refl Hnolegal) as (g1 & Hres & HB & HH & HP & Hov & Hw & Hnw).
  assert (g1 = g') as -> by congruence.
  assert (Hzero : PassCount g = 0).
  { destruct (decide (PassCount g = 1)) as [Hone | Hne]; [|lia].
    destruct (Hmust eq_refl Hone) as (row & col & Hl). by apply Hnolegal in Hl. }
  rewrite Hzero in HP. change (wrap (0 + 1)) with 1 in HP.
  assert (Hwf' : wf (GameBoard g')).
  { rewrite HB. apply withPlayer_wf; [done | by apply other_not_Empty]. }
  split; [done|]. split; [by rewrite HB|]. split.
  { rewrite HB, HH, moveCount_pass. done. }
  split; [lia|]. split.
  { rewrite Hov. split; [intros [Ht | Hp]; [done | lia] | by left]. }
  split; [done|]. split.
  - intros Hg'. rewrite (Hnw Hg'). by apply Hnone.
  - intros Hg' _.
    destruct (HasValidMove_legal (GameBoard g') Hwf') as ([|] & _ & Hiff'); [by apply Hiff'|].
    assert (GameOver g' = true); [|congruence]. apply Hov. left. split.
    + intros row col Hl. assert (false = true); [|done]. apply Hiff'. eauto.
    + intros row col. rewrite HB. simpl. rewrite other_involutive, withPlayer_restore.
      apply Hnolegal.
Qed.

Lemma reachable_inv (g : Game) : reachable g → sessionInv g.
Proof.
  induction 1 as [|g row col err g' _ IH Hmove|g err g' _ IH Hpass].
  - exact NewGame_inv.
  - by eapply Game_MakeMove_inv.
  - by eapply Game_Pass_inv.
Qed.

(** X9. In every session that calls of [Game.MakeMove] and [Game.Pass]
    lead to from a new game: the board is of the data model and its
    counters agree with the grid; the pieces on the grid number four plus
    the moves of the history; the pass counter is 0 or 1, so that the test
    for two passes never ends a game; the session is over exactly when
    neither side has a legal move, and then the winner is named by the
    counters, and before that the winner is Empty. *)
Theorem reachable_session (g : Game) :
  reachable g →
  wf (GameBoard g) ∧ countsAgree (GameBoard g) ∧
  BlackCnt (GameBoard g) + WhiteCnt (GameBoard g) = 4 + moveCount (History g) ∧
  occupied (Cells (GameBoard g)) = 4 + moveCount (History g) ∧
  0 <= PassCount g <= 1 ∧
  (GameOver g = true ↔ terminal (GameBoard g)) ∧
  (GameOver g = true → Winner g = GetWinner (GameBoard g)) ∧
  (GameOver g = false → Winner g = Empty).
Proof.
  intros Hreach.
  destruct (reachable_inv g Hreach) as (Hwf & Hcnt & Hocc & Hpass & Hover & Hwin & Hnone & _).
  split; [done|]. split; [done|]. split; [|done].
  destruct Hcnt as [-> ->]. by rewrite <- occupied_count.
Qed.

Lemma reachable_session_witness :
  ∃ g, reachable g ∧ Game_MakeMove NewGame 2 3 = Some (None, g) ∧
    (wf (GameBoard g) ∧ countsAgree (GameBoard g) ∧
     BlackCnt (GameBoard g) + WhiteCnt (GameBoard g) = 4 + moveCount (History g) ∧
     occupied (Cells (GameBoard g)) = 4 + moveCount (History g) ∧
     0 <= PassCount g <= 1 ∧
     (GameOver g = true ↔ terminal (GameBoard g)) ∧
     (GameOver g = true → Winner g = GetWinner (GameBoard g)) ∧
     (GameOver g = false → Winner g = Empty)).
Proof.
  assert (Hmove : ∃ g, Game_MakeMove NewGame 2 3 = Some (None, g)).
  { eexists. vm_compute. reflexivity. }
  destruct Hmove as [g Hmove].
  assert (Hreach : reachable g) by (eapply reachable_move; [apply reachable_new | exact Hmove]).
  exists g. split; [exact Hreach|]. split; [exact Hmove|].
  exact (reachable_session g Hreach).
Defined.

(** X10. On a session whose board is of the data model, once a side has
    passed the other side cannot pass as well: the next [Game.Pass] is
    refused and leaves the session as it is, because the first pass has
    ended the game or because the side to move has a legal move. *)
Theorem Game_Pass_not_twice (g g1 : Game) :
  wf (GameBoard g) → Game_Pass g = Some (None, g1) →
  Game_Pass g1 = Some (Some "game is already over", g1) ∨
  Game_Pass g1 = Some (Some "cannot pass when valid moves are available", g1).
Proof.
  intros Hwf Hpass.
  destruct (Game_Pass_twice_rejected g g1 Hwf Hpass) as [msg Hmsg].
  pose proof Hmsg as Hcopy. unfold Game_Pass in Hcopy.
  destruct (GameOver g1); [left; congruence|].
  destruct (HasValidMove (GameBoard g1)) as [[|]|]; simpl in Hcopy; [right; congruence | |done].
  destruct (updateGameState _); simpl in Hcopy; [congruence | done].
Qed.

Lemma Game_Pass_not_twice_witness :
  ∃ g1, wf (GameBoard stuckGame) ∧ Game_Pass stuckGame = Some (None, g1) ∧
    (Game_Pass g1 = Some (Some "game is already over", g1) ∨
     Game_Pass g1 = Some (Some "cannot pass when valid moves are available", g1)).
Proof.
  eexists. split; [exact stuckGame_wf|]. split; [vm_compute; reflexivity|].
  apply (Game_Pass_not_twice stuckGame); [exact stuckGame_wf | vm_compute; reflexivity].
Defined.

(** *** Passes in play *)









(** X11. [Game.MakeComputerMove] on a session whose board is of the data
    model, with [rand.Intn] in its range.  Without a legal move for the
    side to move it returns false; with one, in a session that is over, it
    returns false as well; the session is untouched in both cases.  With a
    legal move in a session that is not over it returns true, and the
    session is the one [Game.MakeMove] leaves after one of the legal moves. *)
Theorem MakeComputerMove_cases (Intn : Z → Z → Z) (g : Game) (now : Z) :
  (∀ now n, 0 < n → 0 <= Intn now n < n) →
  wf (GameBoard g) →
  ((∀ row col, ¬ legal (GameBoard g) row col) →
   MakeComputerMove Intn g now = Some (false, g)) ∧
  ((∃ row col, legal (GameBoard g) row col) → GameOver g = true →
   MakeComputerMove Intn g now = Some (false, g)) ∧
  ((∃ row col, legal (GameBoard g) row col) → GameOver g = false →
   ∃ move g',
     legal (GameBoard g) (Row move) (Col move) ∧
     Game_MakeMove g (Row move) (Col move) = Some (None, g') ∧
     MakeComputerMove Intn g now = Some (true, g')).
Proof.
  intros Hrange Hwf. unfold MakeComputerMove, Game_GetValidMoves.
  destruct (GetValidMoves_legal _ Hwf) as (moves & -> & Hin). simpl.
  assert (Hpick : moves ≠ [] →
            ∃ move, index moves (Intn now (Z.of_nat (length moves))) = Some move ∧
                    legal (GameBoard g) (Row move) (Col move)).
  { intros Hne.
    destruct (index_Some moves (Intn now (Z.of_nat (length moves)))) as [move Hmove].
    { apply Hrange. destruct moves; [done | simpl; lia]. }
    exists move. split; [done|]. apply Hin.
    apply index_inv in Hmove as [_ Hmove]. by eapply list_elem_of_lookup_2. }
  assert (Hsome : (∃ row col, legal (GameBoard g) row col) → moves ≠ []).
  { intros (row & col & Hl) ->. apply (Hin {| Row := row; Col := col |}) in Hl.
    by apply elem_of_nil in Hl. }
  split; [|split].
  - intros Hno. destruct moves as [|m ms]; [done|].
    destruct (Hno (Row m) (Col m)). apply Hin. left.
  - intros Hex Hover. destruct (Hpick (Hsome Hex)) as (move & -> & Hl).
    rewrite bool_decide_eq_false_2
      by (intros Hlen; apply (Hsome Hex); by destruct moves). simpl.
    destruct (Game_MakeMove_outcome g (Row move) (Col move) Hwf) as (-> & _); done.
  - intros Hex Hover. destruct (Hpick (Hsome Hex)) as (move & -> & Hl).
    rewrite bool_decide_eq_false_2
      by (intros Hlen; apply (Hsome Hex); by destruct moves). simpl.
    destruct (Game_MakeMove_outcome g (Row move) (Col move) Hwf) as (_ & _ & Hgood).
    destruct (Hgood Hover Hl) as (b' & g' & m & _ & Hres & _).
    exists move, g'. rewrite Hres. done.
Qed.

Lemma MakeComputerMove_cases_witness :
  (∀ now n, 0 < n → 0 <= clockIntn now n < n) ∧
  wf (GameBoard NewGame) ∧
  ((∀ row col, ¬ legal (GameBoard NewGame) row col) →
   MakeComputerMove clockIntn NewGame 7 = Some (false, NewGame)) ∧
  ((∃ row col, legal (GameBoard NewGame) row col) → GameOver NewGame = true →
   MakeComputerMove clockIntn NewGame 7 = Some (false, NewGame)) ∧
  ((∃ row col, legal (GameBoard NewGame) row col) → GameOver NewGame = false →
   ∃ move g',
     legal (GameBoard NewGame) (Row move) (Col move) ∧
     Game_MakeMove NewGame (Row move) (Col move) = Some (None, g') ∧
     MakeComputerMove clockIntn NewGame 7 = Some (true, g')).
Proof.
  assert (Hrange : ∀ now n, 0 < n → 0 <= clockIntn now n < n).
  { intros now n Hn. unfold clockIntn. apply Z.mod_pos_bound. lia. }
  split; [exact Hrange|]. split; [exact NewBoard_wf|].
  exact (MakeComputerMove_cases clockIntn NewGame 7 Hrange NewBoard_wf).
Defined.

(** ** Further properties of the move notation *)

Lemma FormatMove_on_board (row col : Z) :
  0 <= row < 8 → 0 <= col < 8 →
  FormatMove row col = String (char (65 + col)) (String (char (49 + row)) EmptyString) ∧
  isColumnLetter (char (65 + col)) = true ∧ columnOf (char (65 + col)) = col ∧
  allDigits (String (char (49 + row)) EmptyString) = true ∧
  decimalValue (String (char (49 + row)) EmptyString) = row + 1.
Proof.
  intros Hr Hc.
  assert (Hrow : row = 0 ∨ row = 1 ∨ row = 2 ∨ row = 3 ∨ row = 4 ∨ row = 5 ∨ row = 6 ∨ row = 7)
    by lia.
  assert (Hcol : col = 0 ∨ col = 1 ∨ col = 2 ∨ col = 3 ∨ col = 4 ∨ col = 5 ∨ col = 6 ∨ col = 7)
    by lia.
  repeat (destruct Hrow as [-> | Hrow]); try subst row;
    repeat (destruct Hcol as [-> | Hcol]); try subst col;
    vm_compute; repeat split; reflexivity.
Qed.

(** X12. Formatting and parsing are inverse on the board: for a scanner
    that reads leading digits as [Sscanf] does, [ParseMove] of
    [FormatMove(row, col)] is [(row, col)] with no error for every cell of
    the board; and [FormatMove] of a negative row or column is "Pass",
    which [ParseMove] reads back as the pass sentinel (-1, -1). *)
Theorem FormatMove_ParseMove (Sscanf_d : string → option Z) (row col : Z) :
  scansLeadingDigits Sscanf_d →
  (0 <= row < 8 → 0 <= col < 8 →
   ParseMove Sscanf_d (FormatMove row col) = (row, col, None)) ∧
  (row < 0 ∨ col < 0 →
   FormatMove row col = "Pass" ∧
   ParseMove Sscanf_d (FormatMove row col) = (-1, -1, None)).
Proof.
  intros Hscan. split.
  - intros Hr Hc.
    destruct (FormatMove_on_board row col Hr Hc) as (-> & Hletter & Hcolumn & Hdigits & Hvalue).
    destruct (ParseMove_column Sscanf_d (char (65 + col))
                (String (char (49 + row)) EmptyString)) as [_ Hrow];
      [done | by apply column_letter_not_pass |].
    rewrite <- Hcolumn at 2. apply (Hrow Hletter); [|lia].
    rewrite <- (append_empty (String (char (49 + row)) EmptyString)).
    rewrite (Hscan _ EmptyString); [| done | done | done | simpl; lia | unfold max_int; lia].
    rewrite Hvalue. simpl. rewrite wrap_small; [lia | unfold min_int, max_int; lia].
  - intros Hneg.
    assert (FormatMove row col = "Pass") as ->; [|done].
    unfold FormatMove.
    destruct (Z.ltb_spec row 0); [done|]. destruct (Z.ltb_spec col 0); [done | lia].
Qed.

Lemma FormatMove_ParseMove_witness :
  scansLeadingDigits scanDecimal ∧
  (0 <= 3 < 8 → 0 <= 4 < 8 →
   ParseMove scanDecimal (FormatMove 3 4) = (3, 4, None)) ∧
  (3 < 0 ∨ 4 < 0 →
   FormatMove 3 4 = "Pass" ∧
   ParseMove scanDecimal (FormatMove 3 4) = (-1, -1, None)).
Proof.
  split; [exact scanDecimal_digits|].
  exact (FormatMove_ParseMove scanDecimal 3 4 scanDecimal_digits).
Defined.

(** X13. Whatever the scanner does, [ParseMove] never hands out a
    coordinate off the board: without error the result is the pass
    sentinel (-1, -1), for one of the three pass tokens, or a row and a
    column in 0..7; with an error the result is (-1, -1). *)
Theorem ParseMove_range (Sscanf_d : string → option Z) (move : string)
  (row col : Z) (err : error) :
  ParseMove Sscanf_d move = (row, col, err) →
  (err = None →
   (row = -1 ∧ col = -1 ∧ isPassToken move) ∨ (0 <= row < 8 ∧ 0 <= col < 8)) ∧
  (err ≠ None → row = -1 ∧ col = -1).
Proof.
  unfold ParseMove. intros Hparse.
  destruct (Z.of_nat (String.length move) <? 2); [by simplify_eq|].
  destruct (bool_decide (move = "pass") || bool_decide (move = "Pass")
            || bool_decide (move = "PASS")) eqn:Hpass.
  { simplify_eq. split; [|done]. intros _. left. split; [done|]. split; [done|].
    rewrite !orb_true_iff, !bool_decide_eq_true in Hpass. unfold isPassToken. tauto. }
  destruct move as [|first rest]; [by simplify_eq|].
  match type of Hparse with
  | match ?c with _ => _ end = _ => destruct c as [column|] eqn:Hcol
  end; [|by simplify_eq].
  rewrite !Z.geb_leb in Hparse.
  set (r := wrap (default (-1) (Sscanf_d rest) - 1)) in *.
  destruct (Z.ltb_spec r 0), (Z.leb_spec 8 r), (Z.ltb_spec column 0), (Z.leb_spec 8 column);
    simpl in Hparse; simplify_eq; split; (done || intros _; right; lia).
Qed.

Lemma ParseMove_range_witness :
  ParseMove scanDecimal "E4" = (3, 4, None) ∧
  ((None : error) = None →
   (3 = -1 ∧ 4 = -1 ∧ isPassToken "E4") ∨ (0 <= 3 < 8 ∧ 0 <= 4 < 8)) ∧
  ((None : error) ≠ None → 3 = -1 ∧ 4 = -1).
Proof.
  split; [reflexivity|].
  exact (ParseMove_range scanDecimal "E4" 3 4 None eq_refl).
Defined.

(** ** Further properties of the search *)

(** The evaluation stays within 100 a cell of where it starts. *)
Lemma evalFrom_bound (p : Player) (b : Board) (ps : list Position) :
  ∀ score s,
    - 2 ^ 62 <= score - 100 * Z.of_nat (length ps) →
    score + 100 * Z.of_nat (length ps) <= 2 ^ 62 →
    evalFrom p b ps score = Some s →
    score - 100 * Z.of_nat (length ps) <= s <= score + 100 * Z.of_nat (length ps).
Proof.
  induction ps as [|pos ps IH]; intros score s Hlo Hhi Heval; simpl in Heval.
  { simplify_eq. simpl. lia. }
  destruct (GetPiece b (Row pos) (Col pos)) as [piece|]; [|done]. simpl in Heval.
  pose proof (weight_bound (Row pos) (Col pos)) as Hw. simpl length in *.
  apply IH in Heval.
  - repeat case_decide;
      rewrite ?wrap_small in Heval by (unfold min_int, max_int; lia); lia.
  - repeat case_decide; rewrite ?wrap_small by (unfold min_int, max_int; lia); lia.
  - repeat case_decide; rewrite ?wrap_small by (unfold min_int, max_int; lia); lia.
Qed.

Lemma evaluatePosition_bound (p : Player) (b : Board) :
  wfGrid b → ∃ s, evaluatePosition p b = Some s ∧ -6400 <= s <= 6400.
Proof.
  intros Hgrid. unfold evaluatePosition.
  destruct (evalFrom_total p b (rowMajor 8) 0 Hgrid) as [s Hs]. exists s. split; [done|].
  apply evalFrom_bound in Hs; rewrite rowMajor_length in *; lia.
Qed.

Lemma playOn_wf (board : Board) (move : Position) :
  wf board → ∃ b', playOn board move = Some b' ∧ wf b'.
Proof.
  intros Hwf. unfold playOn. rewrite (Clone_wf board (proj1 Hwf)). simpl.
  destruct (MakeMove_total board (Row move) (Col move) Hwf) as (v & b' & -> & Hwf').
  simpl. eauto.
Qed.

Lemma maxLoop_playOn (child : Board → Z → Z → option Z) (board : Board)
  (move : Position) (rest : list Position) (alpha beta maxScore : Z) (b' : Board) (v : Z) :
  playOn board move = Some b' → child b' alpha beta = Some v →
  maxLoop child board (move :: rest) alpha beta maxScore =
    if beta <=? Z.max alpha v then Some (Z.max maxScore v)
    else maxLoop child board rest (Z.max alpha v) beta (Z.max maxScore v).
Proof.
  unfold playOn. intros Hplay Hchild. simpl.
  destruct (Clone board) as [bc|]; [|done]. simpl in *.
  destruct (MakeMove bc (Row move) (Col move)) as [[ok b1]|]; [|done]. simpl in *.
  simplify_eq. rewrite Hchild. done.
Qed.

Lemma minLoop_playOn (child : Board → Z → Z → option Z) (board : Board)
  (move : Position) (rest : list Position) (alpha beta minScore : Z) (b' : Board) (v : Z) :
  playOn board move = Some b' → child b' alpha beta = Some v →
  minLoop child board (move :: rest) alpha beta minScore =
    if Z.min beta v <=? alpha then Some (Z.min minScore v)
    else minLoop child board rest alpha (Z.min beta v) (Z.min minScore v).
Proof.
  unfold playOn. intros Hplay Hchild. simpl.
  destruct (Clone board) as [bc|]; [|done]. simpl in *.
  destruct (MakeMove bc (Row move) (Col move)) as [[ok b1]|]; [|done]. simpl in *.
  simplify_eq. rewrite Hchild. done.
Qed.

(** The full loop over the moves returns, within the range of the values
    of the children once there is a move. *)
Lemma plainLoop_max (plain : Board → option Z) (board : Board) (lo hi : Z) :
  wf board → (∀ b, wf b → ∃ m, plain b = Some m ∧ lo <= m <= hi) →
  ∀ moves acc, ∃ m,
    plainLoop Z.max plain board moves acc = Some m ∧ acc <= m ∧
    (acc <= hi → m <= hi) ∧ (moves ≠ [] ∨ lo <= acc → lo <= m).
Proof.
  intros Hwf Hplain. induction moves as [|move rest IH]; intros acc; simpl.
  { exists acc. split; [done|]. split; [lia|]. split; [done|]. intros [? | ?]; done. }
  destruct (playOn_wf board move Hwf) as (b' & -> & Hwf'). simpl.
  destruct (Hplain b' Hwf') as (m1 & -> & Hm1). simpl.
  destruct (IH (Z.max acc m1)) as (m & -> & Hge & Hhi & Hlo).
  exists m. split; [done|]. split; [lia|]. split; [lia|]. intros _. apply Hlo. right. lia.
Qed.

Lemma plainLoop_min (plain : Board → option Z) (board : Board) (lo hi : Z) :
  wf board → (∀ b, wf b → ∃ m, plain b = Some m ∧ lo <= m <= hi) →
  ∀ moves acc, ∃ m,
    plainLoop Z.min plain board moves acc = Some m ∧ m <= acc ∧
    (lo <= acc → lo <= m) ∧ (moves ≠ [] ∨ acc <= hi → m <= hi).
Proof.
  intros Hwf Hplain. induction moves as [|move rest IH]; intros acc; simpl.
  { exists acc. split; [done|]. split; [lia|]. split; [done|]. intros [? | ?]; done. }
  destruct (playOn_wf board move Hwf) as (b' & -> & Hwf'). simpl.
  destruct (Hplain b' Hwf') as (m1 & -> & Hm1). simpl.
  destruct (IH (Z.min acc m1)) as (m & -> & Hle & Hlo & Hhi).
  exists m. split; [done|]. split; [lia|]. split; [lia|]. intros _. apply Hhi. right. lia.
Qed.

(** The maximizing loop with cut-offs against the full loop. [M] and [P]
    are the running maxima of the two; [a] is the running alpha. *)
Lemma maxLoop_agrees (child : Board → Z → Z → option Z) (plain : Board → option Z)
  (board : Board) (beta lo hi : Z) :
  wf board →
  (∀ b, wf b → ∃ m, plain b = Some m ∧ lo <= m <= hi) →
  (∀ b a, wf b → MinInt32 <= a → a < beta →
     ∃ v m, child b a beta = Some v ∧ plain b = Some m ∧ agrees a beta m v) →
  ∀ moves alpha a M P,
    MinInt32 <= alpha → a = Z.max alpha M → a < beta → P <= M → (alpha < M → P = M) →
    ∃ v m, maxLoop child board moves a beta M = Some v ∧
           plainLoop Z.max plain board moves P = Some m ∧ agrees alpha beta m v.
Proof.
  intros Hwf Hplain Hchild.
  induction moves as [|move rest IH]; intros alpha a M P Hmin Ha Hab HPM Heq.
  { exists M, P. split; [done|]. split; [done|]. unfold agrees. lia. }
  destruct (playOn_wf board move Hwf) as (b' & Hplay & Hwf').
  destruct (Hchild b' a Hwf') as (v1 & m1 & Hv1 & Hm1 & Hagree); [lia | lia |].
  rewrite (maxLoop_playOn _ _ _ _ _ _ _ _ _ Hplay Hv1). simpl. rewrite Hplay. simpl.
  rewrite Hm1. simpl. unfold agrees in Hagree.
  destruct (Z.leb_spec beta (Z.max a v1)) as [Hcut | Hgo].
  - destruct (plainLoop_max plain board lo hi Hwf Hplain rest (Z.max P m1))
      as (m & -> & Hge & _).
    exists (Z.max M v1), m. split; [done|]. split; [done|]. unfold agrees. lia.
  - apply IH; lia.
Qed.

(** The minimizing loop with cut-offs against the full loop. *)
Lemma minLoop_agrees (child : Board → Z → Z → option Z) (plain : Board → option Z)
  (board : Board) (alpha lo hi : Z) :
  wf board →
  (∀ b, wf b → ∃ m, plain b = Some m ∧ lo <= m <= hi) →
  (∀ b c, wf b → alpha < c → c <= MaxInt32 →
     ∃ v m, child b alpha c = Some v ∧ plain b = Some m ∧ agrees alpha c m v) →
  ∀ moves beta c M P,
    beta <= MaxInt32 → c = Z.min beta M → alpha < c → M <= P → (M < beta → P = M) →
    ∃ v m, minLoop child board moves alpha c M = Some v ∧
           plainLoop Z.min plain board moves P = Some m ∧ agrees alpha beta m v.
Proof.
  intros Hwf Hplain Hchild.
  induction moves as [|move rest IH]; intros beta c M P Hmax Hc Hac HMP Heq.
  { exists M, P. split; [done|]. split; [done|]. unfold agrees. lia. }
  destruct (playOn_wf board move Hwf) as (b' & Hplay & Hwf').
  destruct (Hchild b' c Hwf') as (v1 & m1 & Hv1 & Hm1 & Hagree); [lia | lia |].
  rewrite (minLoop_playOn _ _ _ _ _ _ _ _ _ Hplay Hv1). simpl. rewrite Hplay. simpl.
  rewrite Hm1. simpl. unfold agrees in Hagree.
  destruct (Z.leb_spec (Z.min c v1) alpha) as [Hcut | Hgo].
  - destruct (plainLoop_min plain board lo hi Hwf Hplain rest (Z.min P m1))
      as (m & -> & Hle & _).
    exists (Z.min M v1), m. split; [done|]. split; [done|]. unfold agrees. lia.
  - apply IH; lia.
Qed.

(** The full search returns a value within the range of the evaluation. *)
Lemma exhaustive_bound (p : Player) :
  ∀ fuel board depth maximizing,
    wf board → 0 <= depth < Z.of_nat fuel → depth <= max_int →
    ∃ m, exhaustive fuel p board depth maximizing = Some m ∧ -6400 <= m <= 6400.
Proof.
  induction fuel as [|fuel IH]; intros board depth maximizing Hwf Hdepth Hmax; [lia|].
  simpl. destruct (Z.eqb_spec depth 0) as [Hzero | Hdeep].
  { simpl. apply evaluatePosition_bound, Hwf. }
  destruct (IsGameOver_legal board Hwf) as (over & -> & _). simpl.
  destruct over; [apply evaluatePosition_bound, Hwf|].
  destruct (GetValidMoves_legal board Hwf) as (moves & -> & _). simpl.
  case_bool_decide as Hlen; [apply evaluatePosition_bound, Hwf|].
  assert (Hne : moves ≠ []) by (by destruct moves).
  assert (Hchild : ∀ m b, wf b →
            ∃ v, exhaustive fuel p b (wrap (depth - 1)) m = Some v ∧ -6400 <= v <= 6400).
  { intros m b Hb. apply IH; [done | |];
      rewrite wrap_small; unfold min_int, max_int in *; lia. }
  destruct maximizing.
  - destruct (plainLoop_max _ board (-6400) 6400 Hwf (Hchild false) moves MinInt32)
      as (m & -> & _ & Hhi & Hlo).
    exists m. split; [done|]. unfold MinInt32 in *. split; [by apply Hlo; left | apply Hhi; lia].
  - destruct (plainLoop_min _ board (-6400) 6400 Hwf (Hchild true) moves MaxInt32)
      as (m & -> & _ & Hlo & Hhi).
    exists m. split; [done|]. unfold MaxInt32 in *. split; [apply Hlo; lia | by apply Hhi; left].
Qed.

(** [minimax] in a window against the full search. *)
Lemma minimax_agrees (p : Player) :
  ∀ fuel board depth alpha beta maximizing,
    wf board → 0 <= depth < Z.of_nat fuel → depth <= max_int →
    MinInt32 <= alpha → alpha < beta → beta <= MaxInt32 →
    ∃ v m, minimax fuel p board depth alpha beta maximizing = Some v ∧
           exhaustive fuel p board depth maximizing = Some m ∧ agrees alpha beta m v.
Proof.
  induction fuel as [|fuel IH];
    intros board depth alpha beta maximizing Hwf Hdepth Hmax Hlo Hab Hhi; [lia|].
  assert (Hleaf : ∃ v m, evaluatePosition p board = Some v ∧
                         evaluatePosition p board = Some m ∧ agrees alpha beta m v).
  { destruct (evaluatePosition_bound p board (proj1 Hwf)) as (s & Hs & _).
    exists s, s. split; [done|]. split; [done|]. unfold agrees. lia. }
  simpl. destruct (Z.eqb_spec depth 0) as [Hzero | Hdeep]; [done|].
  destruct (IsGameOver_legal board Hwf) as (over & -> & _). simpl.
  destruct over; [done|].
  destruct (GetValidMoves_legal board Hwf) as (moves & -> & _). simpl.
  case_bool_decide as Hlen; [done|].
  assert (Hstep : 0 <= wrap (depth - 1) < Z.of_nat fuel ∧ wrap (depth - 1) <= max_int).
  { rewrite wrap_small; unfold min_int, max_int in *; lia. }
  destruct maximizing.
  - apply (maxLoop_agrees _ (λ bc, exhaustive fuel p bc (wrap (depth - 1)) false)
             board beta (-6400) 6400);
      [ done
      | intros b Hb; apply exhaustive_bound; [done | apply Hstep..]
      | intros b a Hb Ha Hlt; apply IH; [done | apply Hstep.. | done | done | done]
      | done | unfold MinInt32 in *; lia | done | lia | intros; lia ].
  - apply (minLoop_agrees _ (λ bc, exhaustive fuel p bc (wrap (depth - 1)) true)
             board alpha (-6400) 6400);
      [ done
      | intros b Hb; apply exhaustive_bound; [done | apply Hstep..]
      | intros b c Hb Hlt Hc; apply IH; [done | apply Hstep.. | done | done | done]
      | done | unfold MaxInt32 in *; lia | done | lia | intros; lia ].
Qed.

(** With the full window the pruned search and the full search agree. *)
Lemma minimax_exhaustive (p : Player) (fuel : nat) (board : Board) (depth : Z)
  (maximizing : bool) :
  wf board → 0 <= depth < Z.of_nat fuel → depth <= max_int →
  ∃ v, minimax fuel p board depth MinInt32 MaxInt32 maximizing = Some v ∧
       exhaustive fuel p board depth maximizing = Some v ∧ -6400 <= v <= 6400.
Proof.
  intros Hwf Hdepth Hmax.
  destruct (minimax_agrees p fuel board depth MinInt32 MaxInt32 maximizing)
    as (v & m & Hv & Hm & Hagree); [done.. | unfold MinInt32; lia | | unfold MaxInt32; lia |].
  { unfold MinInt32, MaxInt32. lia. }
  destruct (exhaustive_bound p fuel board depth maximizing Hwf Hdepth Hmax)
    as (m' & Hm' & Hrange).
  assert (m' = m) as -> by congruence.
  assert (v = m) as ->; [|by exists m].
  unfold agrees, MinInt32, MaxInt32 in Hagree. lia.
Qed.

(** X14. Pruning does not change what the search finds.  On a board of the
    data model, with enough levels of nesting for the depth: [minimax] in
    a window [MinInt32 <= alpha < beta <= MaxInt32] and minimax without
    pruning both return; a value strictly inside the window is the value
    of the full search, a value at or below [alpha] is an upper bound of
    it and a value at or above [beta] a lower bound; and with the full
    window, as [getHardMove] calls it, the two values are equal. *)
Theorem minimax_pruning_sound (p : Player) (fuel : nat) (board : Board)
  (depth alpha beta : Z) (maximizing : bool) :
  wf board → 0 <= depth < Z.of_nat fuel → depth <= max_int →
  (MinInt32 <= alpha → alpha < beta → beta <= MaxInt32 →
   ∃ v m, minimax fuel p board depth alpha beta maximizing = Some v ∧
          exhaustive fuel p board depth maximizing = Some m ∧
          (v <= alpha → m <= v) ∧ (alpha < v < beta → m = v) ∧ (beta <= v → v <= m)) ∧
  ∃ v, minimax fuel p board depth MinInt32 MaxInt32 maximizing = Some v ∧
       exhaustive fuel p board depth maximizing = Some v.
Proof.
  intros Hwf Hdepth Hmax. split.
  - intros Hlo Hab Hhi. by apply minimax_agrees.
  - destruct (minimax_exhaustive p fuel board depth maximizing Hwf Hdepth Hmax)
      as (v & Hv & Hm & _).
    by exists v.
Qed.

Lemma minimax_pruning_sound_witness :
  wf NewBoard ∧ 0 <= 2 < Z.of_nat 3 ∧ 2 <= max_int ∧
  (MinInt32 <= -5 → -5 < 5 → 5 <= MaxInt32 →
   ∃ v m, minimax 3 (NewPlayer Hard Black) NewBoard 2 (-5) 5 true = Some v ∧
          exhaustive 3 (NewPlayer Hard Black) NewBoard 2 true = Some m ∧
          (v <= -5 → m <= v) ∧ (-5 < v < 5 → m = v) ∧ (5 <= v → v <= m)) ∧
  ∃ v, minimax 3 (NewPlayer Hard Black) NewBoard 2 MinInt32 MaxInt32 true = Some v ∧
       exhaustive 3 (NewPlayer Hard Black) NewBoard 2 true = Some v.
Proof.
  assert (H1 : 0 <= 2 < Z.of_nat 3) by (simpl; lia).
  assert (H2 : 2 <= max_int) by (unfold max_int; lia).
  split; [exact NewBoard_wf|]. split; [exact H1|]. split; [exact H2|].
  exact (minimax_pruning_sound (NewPlayer Hard Black) 3 NewBoard 2 (-5) 5 true
           NewBoard_wf H1 H2).
Defined.

(** The loop of [getMediumMove] and [getHardMove] keeps the first of the
    best rated moves, when one is rated above the score it starts with. *)
Lemma bestOf_first_best (score : Board → option Z) (board : Board) :
  wf board → (∀ b, wf b → ∃ s, score b = Some s) →
  ∀ moves bestScore bestMove,
    ∃ best, bestOf score board moves bestScore bestMove = Some best ∧
      ((best = bestMove ∧ ∀ m s, m ∈ moves → rated score board m s → s <= bestScore) ∨
       (∃ pre post sb,
          moves = pre ++ best :: post ∧ rated score board best sb ∧ bestScore < sb ∧
          (∀ m s, m ∈ pre → rated score board m s → s < sb) ∧
          (∀ m s, m ∈ post → rated score board m s → s <= sb))).
Proof.
  intros Hwf Hscore. induction moves as [|move rest IH]; intros bestScore bestMove.
  { exists bestMove. split; [done|]. left. split; [done|]. intros m s Hm.
    by apply elem_of_nil in Hm. }
  destruct (playOn_wf board move Hwf) as (b' & Hplay & Hwf').
  destruct (Hscore b' Hwf') as [s1 Hs1].
  assert (Hrated : ∀ s, rated score board move s → s = s1).
  { intros s (b'' & Hb'' & Hs). congruence. }
  assert (Hstep : bestOf score board (move :: rest) bestScore bestMove =
            if s1 >? bestScore then bestOf score board rest s1 move
            else bestOf score board rest bestScore bestMove).
  { simpl. unfold playOn in Hplay.
    destruct (Clone board) as [bc|]; [|done]. simpl in *.
    destruct (MakeMove bc (Row move) (Col move)) as [[ok b1]|]; [|done]. simpl in *.
    simplify_eq. by rewrite Hs1. }
  rewrite Hstep. destruct (Z.gtb_spec s1 bestScore) as [Hgt | Hle].
  - destruct (IH s1 move)
      as (best & Hbest & [[-> Hall] | (pre & post & sb & -> & Hsb & Hlt & Hpre & Hpost)]).
    + exists move. split; [done|]. right. exists [], rest, s1. split; [done|].
      split; [by exists b'|]. split; [lia|]. split; [|done].
      intros m s Hm. by apply elem_of_nil in Hm.
    + exists best. split; [done|]. right. exists (move :: pre), post, sb.
      split; [done|]. split; [done|]. split; [lia|]. split; [|done].
      intros m s [-> | Hm]%elem_of_cons Hr; [|by eapply Hpre].
      apply Hrated in Hr. lia.
  - destruct (IH bestScore bestMove)
      as (best & Hbest & [[-> Hall] | (pre & post & sb & -> & Hsb & Hlt & Hpre & Hpost)]).
    + exists bestMove. split; [done|]. left. split; [done|].
      intros m s [-> | Hm]%elem_of_cons Hr; [|by eapply Hall].
      apply Hrated in Hr. lia.
    + exists best. split; [done|]. right. exists (move :: pre), post, sb.
      split; [done|]. split; [done|]. split; [lia|]. split; [|done].
      intros m s [-> | Hm]%elem_of_cons Hr; [|by eapply Hpre].
      apply Hrated in Hr. lia.
Qed.

(** From the sentinel [MinInt32], with every move rated above it, the loop
    returns the first of the best rated moves. *)
Lemma bestOf_sentinel (score : Board → option Z) (board : Board) (moves : list Position) :
  wf board → (∀ b, wf b → ∃ s, score b = Some s ∧ MinInt32 < s) → moves ≠ [] →
  ∃ best pre post sb,
    bestOf score board moves MinInt32 {| Row := 0; Col := 0 |} = Some best ∧
    moves = pre ++ best :: post ∧ rated score board best sb ∧
    (∀ m s, m ∈ pre → rated score board m s → s < sb) ∧
    (∀ m s, m ∈ post → rated score board m s → s <= sb).
Proof.
  intros Hwf Hscore Hne.
  destruct (bestOf_first_best score board Hwf) with (moves := moves)
    (bestScore := MinInt32) (bestMove := {| Row := 0; Col := 0 |})
    as (best & Hbest & [[_ Hall] | (pre & post & sb & Hsplit & Hsb & _ & Hpre & Hpost)]).
  { intros b Hb. destruct (Hscore b Hb) as (s & Hs & _). eauto. }
  - destruct moves as [|move rest]; [done|].
    destruct (playOn_wf board move Hwf) as (b' & Hplay & Hwf').
    destruct (Hscore b' Hwf') as (s & Hs & Hgt).
    assert (s <= MinInt32); [|lia]. apply (Hall move); [left | by exists b'].
  - exists best, pre, post, sb. done.
Qed.

Lemma rated_hard (p : Player) (board : Board) (move : Position) (s : Z) :
  wf board →
  (rated (λ bc, minimax 5 p bc 4 MinInt32 MaxInt32 false) board move s ↔
   rated (λ bc, exhaustive 5 p bc 4 false) board move s).
Proof.
  intros Hwf. destruct (playOn_wf board move Hwf) as (b' & Hplay & Hwf').
  destruct (minimax_exhaustive p 5 b' 4 false Hwf') as (v & Hv & Hm & _);
    [simpl; lia | unfold max_int; lia |].
  split; intros (b'' & Hb'' & Hs); exists b'; (split; [done|]); congruence.
Qed.

(** X15. [getMediumMove] on a board of the data model returns without
    error: (-1, -1) when the side to move has no legal move; otherwise a
    legal move whose resulting position [evaluatePosition] rates highest
    for the player, and among the moves rated highest the first in
    row-major order. *)
Theorem getMediumMove_best (p : Player) (board : Board) :
  wf board →
  ∃ moves, GetValidMoves board = Some moves ∧
    (moves = [] → getMediumMove p board = Some (-1, -1, None)) ∧
    (moves ≠ [] →
     ∃ best pre post sb,
       getMediumMove p board = Some (Row best, Col best, None) ∧
       moves = pre ++ best :: post ∧ legal board (Row best) (Col best) ∧
       rated (evaluatePosition p) board best sb ∧
       (∀ m s, m ∈ pre → rated (evaluatePosition p) board m s → s < sb) ∧
       (∀ m s, m ∈ post → rated (evaluatePosition p) board m s → s <= sb)).
Proof.
  intros Hwf. unfold getMediumMove.
  destruct (GetValidMoves_legal board Hwf) as (moves & -> & Hin). simpl.
  exists moves. split; [done|]. split; [by intros ->|]. intros Hne.
  rewrite bool_decide_eq_false_2 by (by destruct moves).
  destruct (bestOf_sentinel (evaluatePosition p) board moves Hwf)
    as (best & pre & post & sb & -> & Hsplit & Hsb & Hpre & Hpost); [|done|].
  { intros b Hb. destruct (evaluatePosition_bound p b (proj1 Hb)) as (s & Hs & Hrange).
    exists s. split; [done|]. unfold MinInt32. lia. }
  simpl. exists best, pre, post, sb. split; [done|]. split; [done|].
  split; [|done]. apply Hin. rewrite Hsplit. apply elem_of_app. right. left.
Qed.

Lemma getMediumMove_best_witness :
  wf NewBoard ∧
  ∃ moves, GetValidMoves NewBoard = Some moves ∧
    (moves = [] → getMediumMove (NewPlayer Medium White) NewBoard = Some (-1, -1, None)) ∧
    (moves ≠ [] →
     ∃ best pre post sb,
       getMediumMove (NewPlayer Medium White) NewBoard = Some (Row best, Col best, None) ∧
       moves = pre ++ best :: post ∧ legal NewBoard (Row best) (Col best) ∧
       rated (evaluatePosition (NewPlayer Medium White)) NewBoard best sb ∧
       (∀ m s, m ∈ pre →
          rated (evaluatePosition (NewPlayer Medium White)) NewBoard m s → s < sb) ∧
       (∀ m s, m ∈ post →
          rated (evaluatePosition (NewPlayer Medium White)) NewBoard m s → s <= sb)).
Proof.
  split; [exact NewBoard_wf|].
  exact (getMediumMove_best (NewPlayer Medium White) NewBoard NewBoard_wf).
Defined.

(** X16. [getHardMove] on a board of the data model returns without
    error: (-1, -1) when the side to move has no legal move; otherwise a
    legal move whose resulting position has the highest value under
    minimax without pruning, four plies deep with the opponent to move,
    and among the moves of highest value the first in row-major order. *)
Theorem getHardMove_best (p : Player) (board : Board) :
  wf board →
  ∃ moves, GetValidMoves board = Some moves ∧
    (moves = [] → getHardMove p board = Some (-1, -1, None)) ∧
    (moves ≠ [] →
     ∃ best pre post sb,
       getHardMove p board = Some (Row best, Col best, None) ∧
       moves = pre ++ best :: post ∧ legal board (Row best) (Col best) ∧
       rated (λ bc, exhaustive 5 p bc 4 false) board best sb ∧
       (∀ m s, m ∈ pre → rated (λ bc, exhaustive 5 p bc 4 false) board m s → s < sb) ∧
       (∀ m s, m ∈ post → rated (λ bc, exhaustive 5 p bc 4 false) board m s → s <= sb)).
Proof.
  intros Hwf. unfold getHardMove.
  destruct (GetValidMoves_legal board Hwf) as (moves & -> & Hin). cbn -[minimax bestOf].
  exists moves. split; [done|]. split; [by intros ->|]. intros Hne.
  rewrite bool_decide_eq_false_2 by (by destruct moves).
  destruct (bestOf_sentinel (λ bc, minimax 5 p bc 4 MinInt32 MaxInt32 false) board moves Hwf)
    as (best & pre & post & sb & -> & Hsplit & Hsb & Hpre & Hpost); [|done|].
  { intros b Hb.
    destruct (minimax_exhaustive p 5 b 4 false Hb) as (v & Hv & _ & Hrange);
      [simpl; lia | unfold max_int; lia |].
    exists v. split; [done|]. unfold MinInt32. lia. }
  cbn -[minimax bestOf exhaustive]. exists best, pre, post, sb.
  split; [done|]. split; [done|]. split.
  { apply Hin. rewrite Hsplit. apply elem_of_app. right. left. }
  split; [by apply rated_hard|]. split.
  - intros m s Hm Hr. apply (Hpre m s Hm). by apply rated_hard.
  - intros m s Hm Hr. apply (Hpost m s Hm). by apply rated_hard.
Qed.

Lemma getHardMove_best_witness :
  wf NewBoard ∧
  ∃ moves, GetValidMoves NewBoard = Some moves ∧
    (moves = [] → getHardMove (NewPlayer Hard White) NewBoard = Some (-1, -1, None)) ∧
    (moves ≠ [] →
     ∃ best pre post sb,
       getHardMove (NewPlayer Hard White) NewBoard = Some (Row best, Col best, None) ∧
       moves = pre ++ best :: post ∧ legal NewBoard (Row best) (Col best) ∧
       rated (λ bc, exhaustive 5 (NewPlayer Hard White) bc 4 false) NewBoard best sb ∧
       (∀ m s, m ∈ pre →
          rated (λ bc, exhaustive 5 (NewPlayer Hard White) bc 4 false) NewBoard m s →
          s < sb) ∧
       (∀ m s, m ∈ post →
          rated (λ bc, exhaustive 5 (NewPlayer Hard White) bc 4 false) NewBoard m s →
          s <= sb)).
Proof.
  split; [exact NewBoard_wf|].
  exact (getHardMove_best (NewPlayer Hard White) NewBoard NewBoard_wf).
Defined.

(** ** Further properties: what the session reports, and captures *)

(** X17. In every session that play leads to, [GetScore] is the number of
    black and of white pieces on the grid, and [GetGameStatus] tells the
    truth: before the end it names the side to move; at the end neither
    side has a legal move and it names the colour with more pieces on the
    grid, or a tie when they are as many. *)
Theorem reachable_report (g : Game) :
  reachable g →
  GetScore g = (countPiece Black (Cells (GameBoard g)),
                countPiece White (Cells (GameBoard g))) ∧
  (GameOver g = false →
   (CurrentPlayer (GameBoard g) = Black ∧ GetGameStatus g = "Black's turn") ∨
   (CurrentPlayer (GameBoard g) = White ∧ GetGameStatus g = "White's turn")) ∧
  (GameOver g = true →
   terminal (GameBoard g) ∧
   ((countPiece Black (Cells (GameBoard g)) > countPiece White (Cells (GameBoard g)) ∧
     GetGameStatus g = "Game Over - Black Wins!") ∨
    (countPiece White (Cells (GameBoard g)) > countPiece Black (Cells (GameBoard g)) ∧
     GetGameStatus g = "Game Over - White Wins!") ∨
    (countPiece Black (Cells (GameBoard g)) = countPiece White (Cells (GameBoard g)) ∧
     GetGameStatus g = "Game Over - It's a tie!"))).
Proof.
  intros Hreach.
  destruct (reachable_inv g Hreach) as ([_ Hcur] & [HB HW] & _ & _ & Hover & Hwin & _).
  unfold GetScore, GetGameStatus. rewrite <- HB, <- HW. split; [done|]. split.
  - intros ->. destruct (CurrentPlayer (GameBoard g)); [done | by left | by right].
  - intros Hg. rewrite Hg, (Hwin Hg). split; [by apply Hover|]. unfold GetWinner.
    destruct (Z.gtb_spec (BlackCnt (GameBoard g)) (WhiteCnt (GameBoard g)));
      [left; split; [lia | done]|].
    destruct (Z.gtb_spec (WhiteCnt (GameBoard g)) (BlackCnt (GameBoard g)));
      [right; left; split; [lia | done] | right; right; split; [lia | done]].
Qed.

Lemma reachable_report_witness :
  reachable NewGame ∧
  GetScore NewGame = (countPiece Black (Cells (GameBoard NewGame)),
                      countPiece White (Cells (GameBoard NewGame))) ∧
  (GameOver NewGame = false →
   (CurrentPlayer (GameBoard NewGame) = Black ∧ GetGameStatus NewGame = "Black's turn") ∨
   (CurrentPlayer (GameBoard NewGame) = White ∧ GetGameStatus NewGame = "White's turn")) ∧
  (GameOver NewGame = true →
   terminal (GameBoard NewGame) ∧
   ((countPiece Black (Cells (GameBoard NewGame))
       > countPiece White (Cells (GameBoard NewGame)) ∧
     GetGameStatus NewGame = "Game Over - Black Wins!") ∨
    (countPiece White (Cells (GameBoard NewGame))
       > countPiece Black (Cells (GameBoard NewGame)) ∧
     GetGameStatus NewGame = "Game Over - White Wins!") ∨
    (countPiece Black (Cells (GameBoard NewGame))
       = countPiece White (Cells (GameBoard NewGame)) ∧
     GetGameStatus NewGame = "Game Over - It's a tie!"))).
Proof. split; [exact reachable_new|]. exact (reachable_report NewGame reachable_new). Defined.

(** The loop of [flipPieces] flips at least one piece when some direction
    brackets. *)
Lemma flipDirs_progress (row col : Z) (dirs : list Direction) :
  dirs ⊆ Directions →
  ∀ b n b' n',
    wf b → (∃ d k, d ∈ dirs ∧ bracketRun b row col d k) →
    flipDirs b row col dirs n = Some (b', n') → n < n'.
Proof.
  induction dirs as [|dir rest IH]; intros Hsub b n b' n' Hwf (d & k & Hd & Hrun) Hflip.
  { by apply elem_of_nil in Hd. }
  assert (Hdir : dir ∈ Directions) by (apply Hsub; left).
  assert (Hsub' : rest ⊆ Directions) by (intros x Hx; apply Hsub; by right).
  assert (Hnone : (∀ k', ¬ bracketRun b row col dir k') →
            flipDirs b row col rest n = Some (b', n') → n < n').
  { intros Hno Hrest. apply (IH Hsub' b n b' n' Hwf); [|done].
    apply elem_of_cons in Hd as [-> | Hd]; [by apply Hno in Hrun|]. eauto. }
  pose proof Hwf as [Hgrid Hcur]. simpl in Hflip.
  destruct (IsValidPosition b (row + DRow dir) (col + DCol dir)) eqn:Hpos; simpl in Hflip.
  2: { apply Hnone; [|done]. intros k' (Hk' & Hheld & _).
       destruct (Hheld 1) as [Hon _]; [lia|]. rewrite !Z.mul_1_l in Hon.
       apply IsValidPosition_off in Hpos; [done | apply Hgrid]. }
  destruct (cell b (row + DRow dir) (col + DCol dir)) as [p|] eqn:Hp; [|done].
  simpl in Hflip. rewrite (getOpponent_other b Hcur) in Hflip.
  destruct (decide (p ≠ other (CurrentPlayer b))) as [Hne | Heq].
  { apply Hnone; [|done]. intros k' (Hk' & Hheld & _).
    destruct (Hheld 1) as [_ Hc]; [lia|]. rewrite !Z.mul_1_l in Hc. congruence. }
  apply dec_stable in Heq. subst p.
  apply IsValidPosition_onBoard in Hpos; [|apply Hgrid].
  destruct (scanFlip (scanFuel b) b dir _ _ _) as [[foundOwn toFlip]|] eqn:Hscan; [|done].
  simpl in Hflip.
  destruct (scanFlip_bracket b row col dir Hwf (scanFuel b) 1
              (row + DRow dir + DRow dir) (col + DCol dir + DCol dir) foundOwn toFlip)
    as (k1 & Hk1 & -> & Hfound & Hlost); [lia | lia | lia | | |].
  { intros i Hi. assert (i = 1) as -> by lia. rewrite !Z.mul_1_l. done. }
  { rewrite <- Hscan. f_equal. change (seqZ 1 1) with [1]. simpl. unfold ray.
    do 2 f_equal; lia. }
  destruct foundOwn; [|by apply Hnone; [apply Hlost|]].
  pose proof (Hfound eq_refl) as (_ & Hheld & _).
  destruct (flipAll_counts (ray row col dir <$> seqZ 1 k1) b n Hwf)
    as (b1 & Hflip1 & Hwf1 & _).
  { apply NoDup_fmap_2_strong; [|apply NoDup_seqZ].
    intros i j _ _ Heq. by apply (ray_inj row col dir). }
  { intros pos Hin. apply list_elem_of_fmap in Hin as (i & -> & Hi).
    apply elem_of_seqZ in Hi. simpl. apply Hheld. lia. }
  rewrite Hflip1 in Hflip. simpl in Hflip.
  destruct (flipDirs_counts row col rest Hsub' b1
              (n + Z.of_nat (length (ray row col dir <$> seqZ 1 k1))) Hwf1)
    as (b2 & n2 & Hrest & _ & _ & Hle & _).
  rewrite Hrest in Hflip. simplify_eq.
  rewrite length_fmap, length_seqZ in Hle. lia.
Qed.

(** X18. A legal move always captures.  After a legal [MakeMove] on a
    board of the data model whose counters agree with the grid, the
    opponent has at least one piece fewer, the mover at least two more,
    on the grid and in [BlackCnt] and [WhiteCnt] alike. *)
Theorem MakeMove_captures (b b' : Board) (row col : Z) :
  wf b → countsAgree b → MakeMove b row col = Some (true, b') →
  countsAgree b' ∧
  countPiece (other (CurrentPlayer b)) (Cells b')
    < countPiece (other (CurrentPlayer b)) (Cells b) ∧
  countPiece (CurrentPlayer b) (Cells b')
    >= countPiece (CurrentPlayer b) (Cells b) + 2.
Proof.
  intros Hwf Hcnt Hmove. split; [by eapply MakeMove_keeps_counts|].
  pose proof Hwf as [Hgrid Hcur].
  destruct (MakeMove_effect b b' row col Hwf Hmove) as ([[_ Hempty] (d & Hd & Hbr)] & _).
  unfold MakeMove in Hmove.
  destruct (IsValidMove b row col) as [[|]|]; simpl in Hmove; [|congruence|done].
  destruct (setCell b row col (CurrentPlayer b)) as [b1|] eqn:Hset; [|done].
  simpl in Hmove.
  destruct (setCell_effect _ _ _ _ _ Hgrid Hset)
    as (old & Hold & Hgrid1 & Hframe1 & Hcount1 & Hother).
  assert (old = Empty) as -> by congruence.
  pose proof Hframe1 as (_ & Hcur1 & _).
  assert (Hwf1 : wf b1) by (split; congruence).
  destruct (flipPieces b1 row col) as [b2|] eqn:Hflip; [|done]. simpl in Hmove.
  unfold flipPieces in Hflip.
  destruct (flipDirs_counts row col Directions ltac:(done) b1 0 Hwf1)
    as (b3 & flipped & Hdirs & _ & _ & _ & [G1 G2]).
  rewrite Hdirs in Hflip. simpl in Hflip.
  assert (Hpos : 0 < flipped).
  { apply (flipDirs_progress row col Directions ltac:(done) b1 0 b3 flipped Hwf1);
      [|done].
    destruct Hbr as (k & Hk & Hheld & Hend). exists d, k. split; [done|].
    apply (bracketRun_ext b b1); [done | | by split].
    intros j Hj. apply Hother. by apply ray_off_origin. }
  assert (Hcells : Cells b' = Cells b3).
  { destruct (decide (CurrentPlayer b3 = Black)); by simplify_eq. }
  rewrite Hcells. rewrite Hcur1 in G1, G2.
  destruct (ind_other _ Hcur) as (_ & I2 & I3 & _ & I5 & I6).
  rewrite !Hcount1 in G1, G2. rewrite ?I2, ?I3, ?I5, ?I6 in G1, G2. lia.
Qed.

Lemma MakeMove_captures_witness :
  ∃ b', wf NewBoard ∧ countsAgree NewBoard ∧ MakeMove NewBoard 2 3 = Some (true, b') ∧
    (countsAgree b' ∧
     countPiece (other (CurrentPlayer NewBoard)) (Cells b')
       < countPiece (other (CurrentPlayer NewBoard)) (Cells NewBoard) ∧
     countPiece (CurrentPlayer NewBoard) (Cells b')
       >= countPiece (CurrentPlayer NewBoard) (Cells NewBoard) + 2).
Proof.
  eexists. split; [exact NewBoard_wf|]. split; [split; reflexivity|].
  split; [vm_compute; reflexivity|].
  apply (MakeMove_captures NewBoard _ 2 3);
    [exact NewBoard_wf | split; reflexivity | vm_compute; reflexivity].
Defined.

(** X19. The column letter is read without regard to case: an input that
    begins with a column letter parses as the same input with that letter
    in lower case, whatever the scanner does with the rest. *)
Theorem ParseMove_column_case (Sscanf_d : string → option Z) (first : ascii) (rest : string) :
  isColumnLetter first = true →
  ParseMove Sscanf_d (String first rest) = ParseMove Sscanf_d (String (lowerByte first) rest).
Proof.
  intros Hcol. destruct rest as [|second rest].
  { reflexivity. }
  destruct (ParseMove_column Sscanf_d first (String second rest)) as [_ Hup];
    [done | by apply column_letter_not_pass |].
  assert (Hlow : isColumnLetter (lowerByte first) = true ∧
                 columnOf (lowerByte first) = columnOf first).
  { destruct first as [[] [] [] [] [] [] [] []]; try discriminate Hcol;
      split; reflexivity. }
  destruct Hlow as [Hlow Hsame].
  destruct (ParseMove_column Sscanf_d (lowerByte first) (String second rest)) as [_ Hdown];
    [done | by apply column_letter_not_pass |].
  set (row := wrap (default (-1) (Sscanf_d (String second rest)) - 1)).
  destruct (Hup Hcol row eq_refl) as [Hup1 Hup2].
  destruct (Hdown Hlow row eq_refl) as [Hdown1 Hdown2].
  destruct (decide (0 <= row < 8)) as [Hin | Hout].
  - rewrite Hup2, Hdown2 by done. by rewrite Hsame.
  - rewrite Hup1, Hdown1 by done. done.
Qed.

Lemma ParseMove_column_case_witness :
  isColumnLetter "E" = true ∧
  ParseMove scanDecimal "E4" = ParseMove scanDecimal (String (lowerByte "E") "4").
Proof. split; [reflexivity|]. exact (ParseMove_column_case scanDecimal "E" "4" eq_refl). Defined.
